(** * rtreego: a shallow embedding of rtree.go

    The Go source keeps the tree as nodes linked by pointers in both
    directions (entries point at children, children point back at their
    parent).  The embedding keeps that store explicit: a [state] holds the
    [Rtree] struct (whose [root] field is a node stored inline, so that
    [&tree.root] is an address of its own) and the heap of nodes that were
    allocated with [&node{...}] or escaped from a local variable.

    Every function of rtree.go that the properties below talk about is
    transcribed statement by statement into an error/state monad whose
    failure carries the run-time panic Go would raise. *)

From Stdlib Require Import ZArith Lia Permutation PrimFloat.
From stdpp Require Import base option list.

Local Open Scope Z_scope.

(** ** Outcomes of a Go computation *)

(** The run-time panics the transcribed code can raise. *)
Inductive panic :=
| NilDeref      (* nil pointer dereference *)
| IndexRange    (* index out of range *)
| SliceBounds   (* slice bounds out of range *)
| DimMismatch.  (* geometry called on boxes of different dimension *)

(** [Ok a]: normal return.  [Panic k]: the goroutine panics.  [Stuck] is
    not a Go value: the recursion budget of the model ran out (the Go code
    would recurse without end on a cyclic store) or an address outside the
    heap was used (impossible in Go). *)
Inductive res (A : Type) :=
| Ok (a : A)
| Panic (k : panic)
| Stuck.
Arguments Ok {A} a.
Arguments Panic {A} k.
Arguments Stuck {A}.

Definition rbind {A B} (r : res A) (f : A -> res B) : res B :=
  match r with
  | Ok a => f a
  | Panic k => Panic k
  | Stuck => Stuck
  end.

Declare Scope res_scope.
Delimit Scope res_scope with res.
Notation "x <- c1 ;; c2" := (rbind c1 (fun x => c2))
  (at level 100, c1 at next level, right associativity) : res_scope.

(** ** Geometry *)

Module Geom.

(** Modelled from the spec: the file that declares [Rect], [size],
    [boundingBox] and [boundingBoxN] is not part of the sources.  A
    rectangle is a pair of coordinate vectors (min, max).  Coordinates and
    areas are float64: rtree.go compares areas with [math.MaxFloat64] and
    [-1.0] and passes them to [math.Abs].  The type [float] is IEEE 754
    binary64 with every operation rounded to nearest even, infinities and
    NaN included, which is the arithmetic of Go's float64 when no
    operations are fused. *)
Record Rect := mkRect { p : list float; q : list float }.

Definition dim (r : Rect) : nat := length (p r).

(** Modelled from the spec: size(bb) is the product of (max[i]-min[i])
    over all axes, accumulated from 1 axis by axis. *)
Definition size (r : Rect) : float :=
  foldl PrimFloat.mul 1%float (zip_with PrimFloat.sub (q r) (p r)).

(** The smaller and the larger of two coordinates. *)
Definition fmin (a b : float) : float := if (a <=? b)%float then a else b.
Definition fmax (a b : float) : float := if (a <=? b)%float then b else a.

(** Modelled from the spec: union(a,b) is the smallest rectangle
    containing both, computed per axis; it fails when the operands differ
    in dimension. *)
Definition boundingBox (r1 r2 : Rect) : res Rect :=
  if Nat.eqb (dim r1) (dim r2)
  then Ok (mkRect (zip_with fmin (p r1) (p r2)) (zip_with fmax (q r1) (q r2)))
  else Panic DimMismatch.

(** Modelled from the spec: unionAll(list) is the fold of union over a
    non-empty sequence. *)
Definition boundingBoxN (rects : list Rect) : res Rect :=
  match rects with
  | [] => Panic IndexRange
  | r :: rs => foldl (fun acc r' => (a <- acc ;; boundingBox a r')%res) (Ok r) rs
  end.

(** Modelled from the spec: contains(a,b) is true iff b lies entirely
    within a on every axis. *)
Definition containsRect (r1 r2 : Rect) : res bool :=
  if Nat.eqb (dim r1) (dim r2)
  then Ok (forallb (fun x => x) (zip_with PrimFloat.leb (p r1) (p r2)) &&
           forallb (fun x => x) (zip_with PrimFloat.leb (q r2) (q r1)))%bool
  else Panic DimMismatch.

End Geom.

Abbreviation Rect := Geom.Rect.

(** ** Data model *)

(** [Spatial] is an interface with the single method [Bounds]; a value of
    it is a payload (identified by [ident]) together with its bounds. *)
Record Spatial := mkSpatial { ident : nat; Bounds : Rect }.

(** A [*node]: nil, the address of the [root] field of the tree, or the
    address of a node on the heap. *)
Inductive ptr :=
| null
| root_addr
| heap_addr (a : nat).

Definition ptr_eqb (x y : ptr) : bool :=
  match x, y with
  | null, null => true
  | root_addr, root_addr => true
  | heap_addr a, heap_addr b => Nat.eqb a b
  | _, _ => false
  end.

(** The field [bb] is a [*Rect] in the source; every entry the code builds
    takes its box from [Bounds()] or from the geometry, so the field holds
    the box itself.  The zero-valued entry, whose [bb] is nil, only occurs
    as the starting value of [chosen] in [chooseLeaf] and is modelled
    there. *)
Record entry := mkEntry {
  bb : Rect;
  child : ptr;
  obj : option Spatial }.

Record node := mkNode {
  parent : ptr;
  leaf : bool;
  entries : list entry }.

Record Rtree := mkRtree {
  Dim : Z;
  MinChildren : Z;
  MaxChildren : Z;
  root : node;
  size : Z }.

Record state := mkState {
  tree : Rtree;
  heap : list node }.

(** The error value [Insert] and [Delete] can return. *)
Inductive error := DimError (expected actual : Z).

(** Go's [int] is 64 bits wide; [x++] and [x += y] wrap around. *)
Definition wrap64 (z : Z) : Z := (z + 2 ^ 63) mod 2 ^ 64 - 2 ^ 63.

(** [len(s)] as an [int]. *)
Definition len {A} (l : list A) : Z := Z.of_nat (length l).

(** ** The monad of statements *)

Definition M (A : Type) : Type := state -> res (A * state).

Definition ret {A} (a : A) : M A := fun s => Ok (a, s).

Definition bind {A B} (m : M A) (f : A -> M B) : M B :=
  fun s =>
    match m s with
    | Ok (a, s') => f a s'
    | Panic k => Panic k
    | Stuck => Stuck
    end.

Definition lift {A} (r : res A) : M A :=
  fun s =>
    match r with
    | Ok a => Ok (a, s)
    | Panic k => Panic k
    | Stuck => Stuck
    end.

Definition stuck {A} : M A := fun _ => Stuck.
Definition get : M state := fun s => Ok (s, s).
Definition put (s : state) : M unit := fun _ => Ok (tt, s).

Declare Scope m_scope.
Delimit Scope m_scope with M.
Bind Scope m_scope with M.
Notation "x <- c1 ;; c2" := (bind c1 (fun x => c2))
  (at level 100, c1 at next level, right associativity) : m_scope.
Notation "c1 ;;; c2" := (bind c1 (fun _ => c2))
  (at level 100, right associativity) : m_scope.

(** What the store holds at an address. *)
Definition node_at (s : state) (x : ptr) : option node :=
  match x with
  | null => None
  | root_addr => Some (root (tree s))
  | heap_addr a => heap s !! a
  end.

Definition set_root (t : Rtree) (n : node) : Rtree :=
  mkRtree (Dim t) (MinChildren t) (MaxChildren t) n (size t).

Definition set_node (s : state) (x : ptr) (n : node) : state :=
  match x with
  | null => s
  | root_addr => mkState (set_root (tree s) n) (heap s)
  | heap_addr a => mkState (tree s) (<[a := n]> (heap s))
  end.

(** [*x] read. *)
Definition load (x : ptr) : M node :=
  fun s =>
    match x with
    | null => Panic NilDeref
    | _ => match node_at s x with
           | Some n => Ok (n, s)
           | None => Stuck
           end
    end.

(** [*x = n]. *)
Definition store (x : ptr) (n : node) : M unit :=
  fun s =>
    match x with
    | null => Panic NilDeref
    | _ => match node_at s x with
           | Some _ => Ok (tt, set_node s x n)
           | None => Stuck
           end
    end.

(** [&node{...}], and a local node whose address escapes. *)
Definition alloc (n : node) : M ptr :=
  fun s => Ok (heap_addr (length (heap s)), mkState (tree s) (heap s ++ [n])).

(** [x.entries = es] and [x.parent = y]. *)
Definition set_entries (x : ptr) (es : list entry) : M unit :=
  (n <- load x ;; store x (mkNode (parent n) (leaf n) es))%M.

Definition set_parent (x y : ptr) : M unit :=
  (n <- load x ;; store x (mkNode y (leaf n) (entries n)))%M.

(** [s[i]] and [s[lo:hi]] with Go's bounds checks (the capacity of a slice
    is taken to be its length; every [hi] the code uses is at most the
    length). *)
Definition index {A} (l : list A) (i : nat) : res A :=
  match l !! i with
  | Some a => Ok a
  | None => Panic IndexRange
  end.

Definition slice {A} (l : list A) (lo hi : nat) : res (list A) :=
  if (Nat.leb lo hi && Nat.leb hi (length l))%bool
  then Ok (take (hi - lo) (drop lo l))
  else Panic SliceBounds.

(** ** rtree.go *)

(** [NewTree]: the struct literal sets the three configuration fields and
    leaves [root] and [size] at their zero values; the root then gets an
    empty entry slice and the leaf flag.  Nothing else is allocated. *)
Definition NewTree (Dim MinChildren MaxChildren : Z) : state :=
  mkState (mkRtree Dim MinChildren MaxChildren (mkNode null true []) 0) [].

Definition Size : M Z :=
  (s <- get ;; ret (size (tree s)))%M.

(** [Depth]: the closure [nodeDepth] returns 1 on a leaf and otherwise adds
    up what it returns on every child. *)
Fixpoint nodeDepth (fuel : nat) (n : ptr) : M Z :=
  match fuel with
  | O => stuck
  | S fuel' =>
      (nd <- load n ;;
       if leaf nd then ret 1
       else
         foldl (fun (acc : M Z) (e : entry) =>
                  sum <- acc ;;
                  d <- nodeDepth fuel' (child e) ;;
                  ret (wrap64 (sum + d)))
               (ret 0) (entries nd))%M
  end.

(** A descent or an ascent through pairwise distinct nodes is never longer
    than the number of nodes in the store. *)
Definition budget (s : state) : nat := S (S (length (heap s))).

Definition Depth : M Z :=
  (s <- get ;; nodeDepth (budget s) root_addr)%M.

(** [computeBoundingBox]. *)
Definition computeBoundingBox (n : ptr) : M Rect :=
  (nd <- load n ;; lift (Geom.boundingBoxN (map bb (entries nd))))%M.

(** [math.MaxFloat64], the largest finite float64:
    (2 - 2^-52) * 2^1023. *)
Definition MaxFloat64 : float := 0x1.fffffffffffffp+1023%float.

(** The loop of [chooseLeaf].  [chosen] starts as the zero-valued entry,
    all of whose fields are nil: [None] stands for it. *)
Fixpoint chooseLeaf_loop (es : list entry) (o : Spatial) (diff : float)
    (chosen : option entry) : res (option entry) :=
  match es with
  | [] => Ok chosen
  | e :: es' =>
      (b <- Geom.boundingBox (bb e) (Bounds o) ;;
       let d := (Geom.size b - Geom.size (bb e))%float in
       if (d <? diff)%float then chooseLeaf_loop es' o d (Some e)
       else if (d =? diff)%float then
         match chosen with
         | None => Panic NilDeref
         | Some c =>
             if (Geom.size (bb e) <? Geom.size (bb c))%float
             then chooseLeaf_loop es' o d (Some e)
             else chooseLeaf_loop es' o diff chosen
         end
       else chooseLeaf_loop es' o diff chosen)%res
  end.

Definition chosen_child (chosen : option entry) : ptr :=
  match chosen with
  | Some c => child c
  | None => null
  end.

Fixpoint chooseLeaf (fuel : nat) (n : ptr) (o : Spatial) : M ptr :=
  match fuel with
  | O => stuck
  | S fuel' =>
      (nd <- load n ;;
       if leaf nd then ret n
       else
         chosen <- lift (chooseLeaf_loop (entries nd) o MaxFloat64 None) ;;
         chooseLeaf fuel' (chosen_child chosen) o)%M
  end.

(** [pickSeeds]: the inner loop ranges over [n.entries[i+1:]]; the named
    results [left] and [right] start at zero.  The test
    [d > maxWastedSpace] is written [maxWastedSpace <? d]. *)
Fixpoint pickSeeds_inner (e1 : entry) (i : nat) (es : list entry) (j : nat)
    (st : float * (nat * nat)) : res (float * (nat * nat)) :=
  match es with
  | [] => Ok st
  | e2 :: es' =>
      (u <- Geom.boundingBox (bb e1) (bb e2) ;;
       let d := (Geom.size u - Geom.size (bb e1) - Geom.size (bb e2))%float in
       pickSeeds_inner e1 i es' (S j)
         (if (fst st <? d)%float then (d, (i, (j + i + 1)%nat)) else st))%res
  end.

Fixpoint pickSeeds_outer (es : list entry) (i : nat) (st : float * (nat * nat))
    : res (float * (nat * nat)) :=
  match es with
  | [] => Ok st
  | e1 :: rest =>
      (st' <- pickSeeds_inner e1 i rest 0 st ;;
       pickSeeds_outer rest (S i) st')%res
  end.

Definition pickSeeds (es : list entry) : res (nat * nat) :=
  (st <- pickSeeds_outer es 0 ((-1)%float, (0%nat, 0%nat)) ;; Ok (snd st))%res.

(** [pickNext]; [d > maxDiff] is written [maxDiff <? d]. *)
Fixpoint pickNext_loop (leftBB rightBB : Rect) (es : list entry) (i : nat)
    (st : float * nat) : res (float * nat) :=
  match es with
  | [] => Ok st
  | e :: es' =>
      (u1 <- Geom.boundingBox leftBB (bb e) ;;
       let d1 := (Geom.size u1 - Geom.size leftBB)%float in
       u2 <- Geom.boundingBox rightBB (bb e) ;;
       let d2 := (Geom.size u2 - Geom.size rightBB)%float in
       let d := PrimFloat.abs (d1 - d2) in
       pickNext_loop leftBB rightBB es' (S i)
         (if (fst st <? d)%float then (d, i) else st))%res
  end.

Definition pickNext (left right : ptr) (es : list entry) : M nat :=
  (leftBB <- computeBoundingBox left ;;
   rightBB <- computeBoundingBox right ;;
   st <- lift (pickNext_loop leftBB rightBB es 0 ((-1)%float, 0%nat)) ;;
   ret (snd st))%M.

(** [assign] and [assignGroup]; [diff > 0] is written [0 <? diff]. *)
Definition assign (e : entry) (group : ptr) : M unit :=
  (g <- load group ;; set_entries group (entries g ++ [e]))%M.

Definition assignGroup (e : entry) (left right : ptr) : M unit :=
  (leftBB <- computeBoundingBox left ;;
   rightBB <- computeBoundingBox right ;;
   leftEnlarged <- lift (Geom.boundingBox leftBB (bb e)) ;;
   rightEnlarged <- lift (Geom.boundingBox rightBB (bb e)) ;;
   let leftDiff := (Geom.size leftEnlarged - Geom.size leftBB)%float in
   let rightDiff := (Geom.size rightEnlarged - Geom.size rightBB)%float in
   if (leftDiff - rightDiff <? 0)%float then assign e left
   else if (0 <? leftDiff - rightDiff)%float then assign e right
   else if (Geom.size leftBB - Geom.size rightBB <? 0)%float then assign e left
   else if (0 <? Geom.size leftBB - Geom.size rightBB)%float then assign e right
   else
     l <- load left ;;
     r <- load right ;;
     if len (entries l) - len (entries r) <=? 0 then assign e left
     else assign e right)%M.

(** The distribution loop of [split].  Every round removes one entry from
    [remaining], so a budget equal to its length is never used up. *)
Fixpoint split_loop (fuel : nat) (left right : ptr) (minGroupSize : Z)
    (remaining : list entry) : M unit :=
  match remaining with
  | [] => ret tt
  | _ :: _ =>
      match fuel with
      | O => stuck
      | S fuel' =>
          (next <- pickNext left right remaining ;;
           e <- lift (index remaining next) ;;
           l <- load left ;;
           r <- load right ;;
           (if len remaining + len (entries l) <=? minGroupSize then assign e left
            else if len remaining + len (entries r) <=? minGroupSize then assign e right
            else assignGroup e left right) ;;;
           before <- lift (slice remaining 0 next) ;;
           after <- lift (slice remaining (S next) (length remaining)) ;;
           split_loop fuel' left right minGroupSize (before ++ after))%M
      end
  end.

(** [split].  The two seeds are copied out first.  The [append] calls that
    build [remaining] write into the backing array of [n.entries], at
    positions below [r-1] and then below [len-2], always behind the
    positions still to be read, so [remaining] is the old entry list
    without the two seeds; [n.entries] is replaced by a fresh slice right
    after. *)
Definition split (n : ptr) (minGroupSize : Z) : M (ptr * ptr) :=
  (nd <- load n ;;
   lr <- lift (pickSeeds (entries nd)) ;;
   let l := fst lr in
   let r := snd lr in
   leftSeed <- lift (index (entries nd) l) ;;
   rightSeed <- lift (index (entries nd) r) ;;
   s1 <- lift (slice (entries nd) 0 l) ;;
   s2 <- lift (slice (entries nd) (S l) r) ;;
   s3 <- lift (slice (entries nd) (S r) (length (entries nd))) ;;
   let remaining := (s1 ++ s2) ++ s3 in
   set_entries n [leftSeed] ;;;
   right <- alloc (mkNode (parent nd) (leaf nd) [rightSeed]) ;;
   split_loop (length remaining) n right minGroupSize remaining ;;;
   ret (n, right))%M.

(** [getEntry] returns a pointer into the entry array of the parent: the
    parent together with the index of the first entry whose child is [n],
    or nil when the loop finds none. *)
Fixpoint find_child (n : ptr) (es : list entry) (i : nat) : option nat :=
  match es with
  | [] => None
  | e :: es' => if ptr_eqb (child e) n then Some i else find_child n es' (S i)
  end.

Definition getEntry (n : ptr) : M (option (ptr * nat)) :=
  (nd <- load n ;;
   pn <- load (parent nd) ;;
   ret (match find_child n (entries pn) 0 with
        | Some i => Some (parent nd, i)
        | None => None
        end))%M.

(** [e.bb = b] through an entry pointer. *)
Definition set_bb (e : option (ptr * nat)) (b : Rect) : M unit :=
  match e with
  | None => lift (Panic NilDeref)
  | Some (x, i) =>
      (nd <- load x ;;
       old <- lift (index (entries nd) i) ;;
       set_entries x (<[i := mkEntry b (child old) (obj old)]> (entries nd)))%M
  end.

(** [adjustTree]. *)
Fixpoint adjustTree (fuel : nat) (n nn : ptr) : M (ptr * ptr) :=
  match fuel with
  | O => stuck
  | S fuel' =>
      if ptr_eqb n root_addr then ret (n, nn)
      else
        (e <- getEntry n ;;
         b <- computeBoundingBox n ;;
         set_bb e b ;;;
         if ptr_eqb nn null then
           nd <- load n ;;
           adjustTree fuel' (parent nd) null
         else
           bnn <- computeBoundingBox nn ;;
           let enn := mkEntry bnn nn None in
           nd <- load n ;;
           pn <- load (parent nd) ;;
           set_entries (parent nd) (entries pn ++ [enn]) ;;;
           pn' <- load (parent nd) ;;
           s <- get ;;
           if len (entries pn') >? MaxChildren (tree s) then
             lr <- split (parent nd) (MinChildren (tree s)) ;;
             adjustTree fuel' (fst lr) (snd lr)
           else
             adjustTree fuel' (parent nd) null)%M
  end.

(** [Insert].  [oldRoot := *root] copies the root node into a local whose
    address is taken, so the copy lives at a fresh heap address. *)
Definition Insert (o : Spatial) : M (option error) :=
  (s0 <- get ;;
   leaf0 <- chooseLeaf (budget s0) root_addr o ;;
   ln <- load leaf0 ;;
   set_entries leaf0 (entries ln ++ [mkEntry (Bounds o) null (Some o)]) ;;;
   ln' <- load leaf0 ;;
   s1 <- get ;;
   ls <- (if len (entries ln') >? MaxChildren (tree s1)
          then split leaf0 (MinChildren (tree s1))
          else ret (leaf0, null)) ;;
   s2 <- get ;;
   rs <- adjustTree (budget s2) (fst ls) (snd ls) ;;
   let root' := fst rs in
   let splitRoot := snd rs in
   (if negb (ptr_eqb splitRoot null) then
      oldRootVal <- load root' ;;
      oldRoot <- alloc oldRootVal ;;
      b1 <- computeBoundingBox oldRoot ;;
      b2 <- computeBoundingBox splitRoot ;;
      store root_addr
        (mkNode null false [mkEntry b1 oldRoot None; mkEntry b2 splitRoot None]) ;;;
      set_parent oldRoot root_addr ;;;
      set_parent splitRoot root_addr
    else ret tt) ;;;
   s3 <- get ;;
   put (mkState (mkRtree (Dim (tree s3)) (MinChildren (tree s3))
                         (MaxChildren (tree s3)) (root (tree s3))
                         (wrap64 (size (tree s3) + 1)))
                (heap s3)) ;;;
   ret None)%M.

(** [Delete]. *)
Definition Delete (o : Spatial) : M (bool * option error) :=
  ret (false, None).

(** [findLeaf] and [condenseTree]; nothing calls them. *)
Fixpoint findLeaf_loop (es : list entry) (o : Spatial) : res (option entry) :=
  match es with
  | [] => Ok None
  | e :: es' =>
      (c <- Geom.containsRect (bb e) (Bounds o) ;;
       if (c : bool) then Ok (Some e) else findLeaf_loop es' o)%res
  end.

Fixpoint findLeaf (fuel : nat) (n : ptr) (o : Spatial) : M ptr :=
  match fuel with
  | O => stuck
  | S fuel' =>
      (nd <- load n ;;
       if leaf nd then ret n
       else
         found <- lift (findLeaf_loop (entries nd) o) ;;
         match found with
         | Some e => findLeaf fuel' (child e) o
         | None => ret null
         end)%M
  end.

Definition condenseTree (n : ptr) : M ptr :=
  ret null.

(** ** Running the code on examples *)

Definition pt (x y : float) : Rect := Geom.mkRect [x; y] [x; y].
Definition box (x0 y0 x1 y1 : float) : Rect := Geom.mkRect [x0; y0] [x1; y1].

Fixpoint insert_all (os : list Spatial) : M unit :=
  match os with
  | [] => ret tt
  | o :: os' => (Insert o ;;; insert_all os')%M
  end.

Definition pts (l : list (float * float)) : list Spatial :=
  imap (fun i xy => mkSpatial i (pt (fst xy) (snd xy))) l.

(** A caller's sequence of calls.  [run] returns how many [Insert]s
    returned a nil error and how many [Delete]s returned [ok = true]; a
    panic ends the run. *)
Inductive op :=
| OpInsert (o : Spatial)
| OpDelete (o : Spatial).

Definition is_nil (e : option error) : bool :=
  match e with
  | None => true
  | Some _ => false
  end.

Fixpoint run (ops : list op) : M (nat * nat) :=
  match ops with
  | [] => ret (0%nat, 0%nat)
  | OpInsert o :: ops' =>
      (e <- Insert o ;;
       c <- run ops' ;;
       ret ((if is_nil e then S (fst c) else fst c), snd c))%M
  | OpDelete o :: ops' =>
      (d <- Delete o ;;
       c <- run ops' ;;
       ret (fst c, (if fst d then S (snd c) else snd c)))%M
  end.

(** ** What the specification talks about *)

(** Wasted space of a pair of boxes (defined when the dimensions agree),
    as [pickSeeds] computes it. *)
Definition wasted (r1 r2 : Rect) : res float :=
  (u <- Geom.boundingBox r1 r2 ;;
   Ok (Geom.size u - Geom.size r1 - Geom.size r2)%float)%res.

(** Enlargement of [r] needed to include [x], as [chooseLeaf] computes
    it. *)
Definition enlargement (r x : Rect) : res float :=
  (u <- Geom.boundingBox r x ;; Ok (Geom.size u - Geom.size r)%float)%res.

(** [levels s h x]: every leaf below [x] is reached after exactly [h]
    nodes, [x] included ([h = 1] when [x] is a leaf). *)
Fixpoint levels (s : state) (h : nat) (x : ptr) : Prop :=
  match h with
  | O => False
  | S h' =>
      exists nd, node_at s x = Some nd /\
        if leaf nd then h' = O
        else h' <> O /\ Forall (fun e => levels s h' (child e)) (entries nd)
  end.

(** The structural invariant of the specification, for a subtree of [h]
    levels: leaves hold objects under their own bounds, entries of
    internal nodes carry the MBR of the child they point at, and every node
    other than the root holds between [MinChildren] and [MaxChildren]
    entries. *)
Definition leaf_entry (e : entry) : Prop :=
  exists o, obj e = Some o /\ bb e = Bounds o.



(** ** Notions used in the proofs *)

(** The configuration fields and the counter of the tree. *)
Definition conf (s : state) : Z * Z * Z * Z :=
  (Dim (tree s), MinChildren (tree s), MaxChildren (tree s), size (tree s)).

(** A statement that leaves the configuration and the counter alone. *)
Definition keeps_conf {A} (m : M A) : Prop :=
  forall s a s', m s = Ok (a, s') -> conf s' = conf s.

(** A path from [n] to [l] that goes from each internal node to the child
    of one of its entries and ends in a leaf. *)
Inductive descends (s : state) : ptr -> ptr -> Prop :=
| descends_leaf n nd :
    node_at s n = Some nd -> leaf nd = true -> descends s n n
| descends_child n nd c l :
    node_at s n = Some nd -> leaf nd = false ->
    c ∈ entries nd ->
    descends s (child c) l ->
    descends s n l.

(** A node with its entry list replaced. *)
Definition with_entries (nd : node) (es : list entry) : node :=
  mkNode (parent nd) (leaf nd) es.

#[global] Instance ptr_eq_dec : EqDecision ptr.
Proof. solve_decision. Defined.

(** [b] is the MBR of the entries of the node at [x]. *)
Definition mbr (s : state) (x : ptr) (b : Rect) : Prop :=
  exists nd, node_at s x = Some nd /\
             Geom.boundingBoxN (map bb (entries nd)) = Ok b.

(** The node at [x] is a leaf on the heap within the bounds, and names the
    root as its parent. *)
Definition heap_leaf (s : state) (x : ptr) : Prop :=
  exists a nd, x = heap_addr a /\ node_at s x = Some nd /\
    parent nd = root_addr /\ leaf nd = true /\
    Forall leaf_entry (entries nd) /\
    MinChildren (tree s) <= len (entries nd) <= MaxChildren (tree s).

Definition leaf_below (s : state) (e : entry) : Prop :=
  heap_leaf s (child e) /\ mbr s (child e) (bb e).

(** The node at [child e] is an internal node on the heap within the
    bounds, over leaves that name the root as their parent. *)
Definition inner_below (s : state) (e : entry) : Prop :=
  exists a nd, child e = heap_addr a /\ node_at s (child e) = Some nd /\
    leaf nd = false /\
    MinChildren (tree s) <= len (entries nd) <= MaxChildren (tree s) /\
    mbr s (child e) (bb e) /\
    Forall (leaf_below s) (entries nd).

(** The stores that successful insertions produce: one, two or three
    levels.  With three levels the leaves still name the root as their
    parent, though they hang two levels below it. *)
Inductive shape (s : state) : Prop :=
| one_level :
    leaf (root (tree s)) = true ->
    Forall leaf_entry (entries (root (tree s))) ->
    len (entries (root (tree s))) <= MaxChildren (tree s) ->
    shape s
| two_levels :
    leaf (root (tree s)) = false ->
    Forall (leaf_below s) (entries (root (tree s))) ->
    NoDup (map child (entries (root (tree s)))) ->
    len (entries (root (tree s))) <= MaxChildren (tree s) ->
    shape s
| three_levels :
    leaf (root (tree s)) = false ->
    Forall (inner_below s) (entries (root (tree s))) ->
    shape s.

(** Every entry of [es] carries a box of [d] dimensions. *)
Definition same_dim (d : nat) (es : list entry) : Prop :=
  Forall (fun e => Geom.dim (bb e) = d) es.

(** The node at [x] has entries, all of [d] dimensions. *)
Definition filled (s : state) (d : nat) (x : ptr) : Prop :=
  exists nd, node_at s x = Some nd /\ entries nd <> [] /\ same_dim d (entries nd).

(** ** Example inputs *)

Definition five_points : list Spatial :=
  pts [(0,0); (10,10); (1,1); (9,9); (5,5)]%float.

Definition eight_points : list Spatial :=
  pts [(0,0); (10,10); (1,1); (9,9); (5,5); (0,1); (1,0); (2,2)]%float.

Definition thirteen_points : list Spatial :=
  pts [(0,0); (10,10); (1,1); (9,9); (5,5); (0,1); (1,0); (2,2);
       (20,20); (21,21); (20,21); (30,30); (31,31)]%float.

Definition same_box (i : nat) : Spatial := mkSpatial i (box 0 0 2 2).

(** The two-dimensional point (2^600, 2^600). *)
Definition far : Spatial := mkSpatial 5 (pt 0x1p600 0x1p600).

Definition cube : Spatial :=
  mkSpatial 0 (Geom.mkRect [0; 0; 0]%float [1; 1; 1]%float).

Definition state_of (r : res (unit * state)) : state :=
  match r with
  | Ok (_, s) => s
  | _ => NewTree 0 0 0
  end.

(** ** The content of a tree *)

(** The entry [Insert] builds for an object. *)
Definition entry_of (o : Spatial) : entry := mkEntry (Bounds o) null (Some o).

(** The entries held by the leaves below [x], from left to right; [fuel]
    bounds the number of levels that are visited. *)
Fixpoint stored (fuel : nat) (s : state) (x : ptr) : list entry :=
  match fuel with
  | O => []
  | S fuel' =>
      match node_at s x with
      | None => []
      | Some nd =>
          if leaf nd then entries nd
          else flat_map (fun e => stored fuel' s (child e)) (entries nd)
      end
  end.

Definition objects (s : state) : list entry := stored (budget s) s root_addr.

(** The leaf nodes below [x], from left to right. *)
Fixpoint leaves (fuel : nat) (s : state) (x : ptr) : list ptr :=
  match fuel with
  | O => []
  | S fuel' =>
      match node_at s x with
      | None => []
      | Some nd =>
          if leaf nd then [x]
          else flat_map (fun e => leaves fuel' s (child e)) (entries nd)
      end
  end.

(** The objects a sequence of calls passes to [Insert]. *)
Fixpoint inserted (ops : list op) : list Spatial :=
  match ops with
  | [] => []
  | OpInsert o :: ops' => o :: inserted ops'
  | OpDelete _ :: ops' => inserted ops'
  end.

(** The box of [e] does not contain the bounds of [o], or does. *)
Definition misses (o : Spatial) (e : entry) : Prop :=
  Geom.containsRect (bb e) (Bounds o) = Ok false.

Definition covers (o : Spatial) (e : entry) : Prop :=
  Geom.containsRect (bb e) (Bounds o) = Ok true.

(** The path of [findLeaf]: at every internal node it goes through the
    first entry whose box contains the bounds of [o]; it ends in a leaf, or
    in nil at an internal node none of whose boxes contains them. *)
Inductive finds (s : state) (o : Spatial) : ptr -> ptr -> Prop :=
| finds_leaf n nd :
    node_at s n = Some nd -> leaf nd = true -> finds s o n n
| finds_nil n nd :
    node_at s n = Some nd -> leaf nd = false ->
    Forall (misses o) (entries nd) ->
    finds s o n null
| finds_child n nd pre c post l :
    node_at s n = Some nd -> leaf nd = false ->
    entries nd = pre ++ c :: post ->
    Forall (misses o) pre -> covers o c ->
    finds s o (child c) l ->
    finds s o n l.

(** The boxes of all entries of all internal nodes have the dimension of
    the bounds of [o]. *)
Definition searchable (s : state) (o : Spatial) : Prop :=
  forall x nd, node_at s x = Some nd -> leaf nd = false ->
    Forall (fun e => Geom.dim (bb e) = Geom.dim (Bounds o)) (entries nd).

(** One round of the loop of [nodeDepth]. *)
Definition depth_step (f : nat) (acc : M Z) (e : entry) : M Z :=
  (sum <- acc ;; d <- nodeDepth f (child e) ;; ret (wrap64 (sum + d)))%M.

(** * Properties *)

(** ** Construction *)

(** C10: [NewTree] accepts every triple of integers, also those that break
    the documented constraints, and returns a tree whose root is a leaf
    without entries, on which [Size] is 0 and [Depth] is 1. *)
Theorem NewTree_no_validation (d m mx : Z) :
  let s := NewTree d m mx in
  Dim (tree s) = d /\ MinChildren (tree s) = m /\ MaxChildren (tree s) = mx /\
  leaf (root (tree s)) = true /\ entries (root (tree s)) = [] /\
  Size s = Ok (0, s) /\ Depth s = Ok (1, s).
Proof. repeat split. Qed.

(** ** Deletion is a stub *)

Lemma Delete_is_noop (o : Spatial) (s : state) :
  Delete o s = Ok ((false, None), s).
Proof. reflexivity. Qed.

(** C5: after [Insert(o)] on the empty tree, [Delete(o)] reports that the
    object was not found and leaves it stored, where the specification
    asks for [(true, nil)] and the tree restored. *)
Theorem Delete_after_Insert_not_found :
  exists s, Insert (mkSpatial 0 (pt 3 4)) (NewTree 2 2 4) = Ok (None, s) /\
    Delete (mkSpatial 0 (pt 3 4)) s = Ok ((false, None), s) /\
    Size s = Ok (1, s) /\
    Size (NewTree 2 2 4) = Ok (0, NewTree 2 2 4).
Proof. eexists. split; [vm_compute; reflexivity|]. repeat split. Qed.

(** ** Dimensions are never checked *)

(** C2: a three-dimensional object is accepted by a two-dimensional tree:
    [Insert] returns a nil error and the size goes from 0 to 1. *)
Theorem Insert_accepts_wrong_dimension :
  exists s, Geom.dim (Bounds cube) = 3%nat /\ Dim (NewTree 2 2 4).(tree) = 2 /\
    Insert cube (NewTree 2 2 4) = Ok (None, s) /\
    Size (NewTree 2 2 4) = Ok (0, NewTree 2 2 4) /\ Size s = Ok (1, s).
Proof.
  eexists. split; [reflexivity|]. split; [reflexivity|].
  split; [vm_compute; reflexivity|]. split; reflexivity.
Qed.

(** ** Depth adds up over the children *)

(** C4: after eight insertions the root has three leaves below it, so the
    tree has two levels, and [Depth] returns 3. *)
Theorem Depth_counts_leaves :
  exists s, insert_all eight_points (NewTree 2 2 4) = Ok (tt, s) /\
    levels s 2 root_addr /\ Depth s = Ok (3, s).
Proof.
  eexists. split; [vm_compute; reflexivity|]. split; [|vm_compute; reflexivity].
  cbn. eexists. split; [reflexivity|]. cbn. split; [lia|].
  repeat constructor; cbn; eexists; (split; [reflexivity|reflexivity]).
Qed.

(** ** Seeds of a split *)

(** C6: on two copies of the box [0,2]x[0,2] the only pair wastes
    4 - 4 - 4 = -4, which is not above the starting value -1, and
    [pickSeeds] returns the index pair (0, 0): not a pair of distinct
    entries. *)
Theorem pickSeeds_overlapping_boxes :
  wasted (box 0 0 2 2) (box 0 0 2 2) = Ok (-4)%float /\
  pickSeeds [mkEntry (box 0 0 2 2) null (Some (same_box 0));
             mkEntry (box 0 0 2 2) null (Some (same_box 1))] = Ok (0%nat, 0%nat).
Proof. split; reflexivity. Qed.

(** C1: a leaf with MaxChildren+1 = 5 entries that all carry the box
    [0,2]x[0,2] is not split into two groups: [pickSeeds] answers (0, 0)
    and the slice expression [n.entries[l+1:r]] panics. *)
Theorem split_overlapping_boxes_panics :
  let es := map (fun i => mkEntry (box 0 0 2 2) null (Some (same_box i))) (seq 0 5) in
  let s := mkState (mkRtree 2 2 4 (mkNode null true es) 4) [] in
  len es = MaxChildren (tree s) + 1 /\
  pickSeeds es = Ok (0%nat, 0%nat) /\
  split root_addr 2 s = Panic SliceBounds.
Proof. repeat split. Qed.

(** ** Insert can panic *)

(** C3: thirteen points insert without error and leave a tree of three
    levels whose leaves still name the root as their parent; for the next
    object, of the right dimension, [chooseLeaf] finds a leaf, [getEntry]
    on that leaf returns nil, and [Insert] panics on the nil entry.  Five
    equal boxes make the fifth [Insert] panic in [split]. *)
Theorem Insert_panics :
  (exists s l,
     insert_all thirteen_points (NewTree 2 2 4) = Ok (tt, s) /\
     levels s 3 root_addr /\
     Geom.dim (Bounds (mkSpatial 13 (pt 30 31))) = 2%nat /\
     chooseLeaf (budget s) root_addr (mkSpatial 13 (pt 30 31)) s = Ok (l, s) /\
     getEntry l s = Ok (None, s) /\
     Insert (mkSpatial 13 (pt 30 31)) s = Panic NilDeref) /\
  (exists s,
     insert_all (map same_box (seq 0 4)) (NewTree 2 2 4) = Ok (tt, s) /\
     Insert (same_box 4) s = Panic SliceBounds).
Proof.
  split.
  - eexists. eexists. split; [vm_compute; reflexivity|].
    split.
    { cbn. eexists. split; [reflexivity|]. cbn. split; [lia|].
      repeat constructor; cbn; eexists; (split; [reflexivity|]); cbn;
        (split; [lia|]);
        repeat constructor; cbn; eexists; (split; [reflexivity|reflexivity]). }
    split; [reflexivity|].
    split; [vm_compute; reflexivity|].
    split; vm_compute; reflexivity.
  - eexists. split; [vm_compute; reflexivity|]. vm_compute; reflexivity.
Qed.

(** ** Descent can panic *)

(** C7: after five insertions the root is an internal node over two
    leaves.  For the two-dimensional point (2^600, 2^600) the enlargement
    of either entry of the root is +Inf, which is not below the starting
    value [math.MaxFloat64] of [diff]: the loop of [chooseLeaf] chooses no
    entry, [chosen.child] is nil, and [chooseLeaf], and with it [Insert],
    panics on the nil node instead of following an entry of least
    enlargement down to a leaf. *)
Theorem chooseLeaf_follows_no_entry :
  exists s,
    insert_all five_points (NewTree 2 2 4) = Ok (tt, s) /\
    levels s 2 root_addr /\
    length (entries (root (tree s))) = 2%nat /\
    Geom.dim (Bounds far) = 2%nat /\
    Forall (fun e => enlargement (bb e) (Bounds far) = Ok infinity)
           (entries (root (tree s))) /\
    (infinity <? MaxFloat64)%float = false /\
    chooseLeaf_loop (entries (root (tree s))) far MaxFloat64 None = Ok None /\
    chooseLeaf (budget s) root_addr far s = Panic NilDeref /\
    Insert far s = Panic NilDeref.
Proof.
  eexists. split; [vm_compute; reflexivity|].
  split.
  { cbn. eexists. split; [reflexivity|]. cbn. split; [lia|].
    repeat constructor; cbn; eexists; (split; [reflexivity|reflexivity]). }
  split; [reflexivity|]. split; [reflexivity|].
  split; [repeat constructor; vm_compute; reflexivity|].
  split; [reflexivity|].
  split; [vm_compute; reflexivity|].
  split; vm_compute; reflexivity.
Qed.

(** The comparisons of the loop are those of float64.  For the
    one-dimensional boxes [0, 2^53-1] and [-1, 2^53] and the point 2^53+2
    the enlargements are computed as 3 and 4, and the first entry is kept,
    though in exact arithmetic the second needs less (2 against 3).  An
    entry whose own area is +Inf has enlargement NaN, which compares false
    with everything, and is never chosen. *)
Lemma chooseLeaf_loop_float64 :
  let e1 := mkEntry (Geom.mkRect [0] [0x1p53 - 1])%float null None in
  let e2 := mkEntry (Geom.mkRect [-1] [0x1p53])%float null None in
  let o := mkSpatial 0 (Geom.mkRect [0x1p53 + 2] [0x1p53 + 2])%float in
  let e3 := mkEntry (box 0 0 0x1p600 0x1p600) null None in
  enlargement (bb e1) (Bounds o) = Ok 3%float /\
  enlargement (bb e2) (Bounds o) = Ok 4%float /\
  chooseLeaf_loop [e1; e2] o MaxFloat64 None = Ok (Some e1) /\
  enlargement (bb e3) (pt 1 1) = Ok nan /\
  chooseLeaf_loop [e3] (mkSpatial 0 (pt 1 1)) MaxFloat64 None = Ok None.
Proof. repeat split; vm_compute; reflexivity. Qed.

(** ** Reasoning about the monad *)

Lemma rbind_Ok {A B} (r : res A) (f : A -> res B) (b : B) :
  rbind r f = Ok b -> exists a, r = Ok a /\ f a = Ok b.
Proof. destruct r; simpl; intros H; try discriminate. eauto. Qed.

Lemma bind_Ok {A B} (m : M A) (f : A -> M B) (s s' : state) (b : B) :
  bind m f s = Ok (b, s') -> exists a s1, m s = Ok (a, s1) /\ f a s1 = Ok (b, s').
Proof.
  unfold bind. destruct (m s) as [[a s1]| |]; intros H; try discriminate. eauto.
Qed.

Lemma lift_Ok {A} (r : res A) (s s' : state) (a : A) :
  lift r s = Ok (a, s') -> r = Ok a /\ s' = s.
Proof. destruct r; simpl; intros H; inversion H; auto. Qed.

Lemma get_Ok (s s' x : state) : get s = Ok (x, s') -> x = s /\ s' = s.
Proof. intros H; inversion H; auto. Qed.

Lemma load_Ok (x : ptr) (s s' : state) (n : node) :
  load x s = Ok (n, s') -> node_at s x = Some n /\ s' = s.
Proof.
  unfold load. destruct x; try discriminate;
    (destruct (node_at s _) eqn:E; intros H; inversion H; subst; auto).
Qed.

Lemma store_Ok (x : ptr) (n : node) (s s' : state) (u : unit) :
  store x n s = Ok (u, s') -> is_Some (node_at s x) /\ s' = set_node s x n.
Proof.
  unfold store. destruct x; try discriminate;
    (destruct (node_at s _) eqn:E; intros H; inversion H; subst; eauto).
Qed.

Lemma alloc_Ok (n : node) (s s' : state) (x : ptr) :
  alloc n s = Ok (x, s') ->
  x = heap_addr (length (heap s)) /\ s' = mkState (tree s) (heap s ++ [n]).
Proof. intros H; inversion H; auto. Qed.

Lemma load_eq (x : ptr) (s : state) (n : node) :
  node_at s x = Some n -> load x s = Ok (n, s).
Proof.
  intros H. unfold load. destruct x; [discriminate|rewrite H; reflexivity..].
Qed.

(** Splits a successful run into the successful runs of its statements. *)
Ltac inv_step :=
  match goal with
  | H : bind _ _ _ = Ok _ |- _ =>
      let a := fresh "a" in let s1 := fresh "s" in
      let H1 := fresh "H" in let H2 := fresh "H" in
      apply bind_Ok in H; destruct H as (a & s1 & H1 & H2)
  | H : lift _ _ = Ok _ |- _ =>
      let H1 := fresh "H" in
      apply lift_Ok in H; destruct H as [H1 ->]
  | H : ret _ _ = Ok _ |- _ => unfold ret in H; inversion H; subst; clear H
  | H : get _ = Ok _ |- _ => apply get_Ok in H; destruct H as [-> ->]
  | H : stuck _ = Ok _ |- _ => discriminate H
  | H : Panic _ = Ok _ |- _ => discriminate H
  | H : Stuck = Ok _ |- _ => discriminate H
  | H : rbind _ _ = Ok _ |- _ =>
      let a := fresh "a" in let H1 := fresh "H" in
      apply rbind_Ok in H; destruct H as (a & H1 & H)
  end.

(** ** The configuration and the counter are only touched by the last
    statement of Insert *)

Lemma keeps_ret {A} (a : A) : keeps_conf (ret a).
Proof. intros s b s' H. inv_step. reflexivity. Qed.

Lemma keeps_bind {A B} (m : M A) (f : A -> M B) :
  keeps_conf m -> (forall a, keeps_conf (f a)) -> keeps_conf (bind m f).
Proof.
  intros Hm Hf s b s' H. inv_step.
  rewrite (Hf _ _ _ _ H1). eapply Hm; eauto.
Qed.

Lemma keeps_lift {A} (r : res A) : keeps_conf (lift r).
Proof. intros s b s' H. inv_step. reflexivity. Qed.

Lemma keeps_stuck {A} : keeps_conf (@stuck A).
Proof. intros s b s' H. discriminate. Qed.

Lemma keeps_get : keeps_conf get.
Proof. intros s b s' H. inv_step. reflexivity. Qed.

Lemma keeps_load (x : ptr) : keeps_conf (load x).
Proof. intros s b s' H. apply load_Ok in H as [_ ->]. reflexivity. Qed.

Lemma keeps_store (x : ptr) (n : node) : keeps_conf (store x n).
Proof. intros s b s' H. apply store_Ok in H as [_ ->]. destruct x; reflexivity. Qed.

Lemma keeps_alloc (n : node) : keeps_conf (alloc n).
Proof. intros s b s' H. apply alloc_Ok in H as [_ ->]. reflexivity. Qed.

Create HintDb keepsdb.
#[local] Hint Resolve keeps_ret keeps_lift keeps_stuck keeps_get keeps_load
  keeps_store keeps_alloc : keepsdb.

Ltac keeps :=
  repeat first
    [ solve [auto 1 with keepsdb nocore]
    | apply keeps_bind; [|intros ?]
    | progress cbv zeta
    | match goal with
      | |- keeps_conf (if ?b then _ else _) => destruct b
      | |- keeps_conf (match ?e with Some _ => _ | None => _ end) => destruct e
      | |- keeps_conf (match ?e with (_, _) => _ end) => destruct e
      end ].

Lemma keeps_set_entries x es : keeps_conf (set_entries x es).
Proof. unfold set_entries. keeps. Qed.

Lemma keeps_set_parent x y : keeps_conf (set_parent x y).
Proof. unfold set_parent. keeps. Qed.

Lemma keeps_computeBoundingBox n : keeps_conf (computeBoundingBox n).
Proof. unfold computeBoundingBox. keeps. Qed.

#[local] Hint Resolve keeps_set_entries keeps_set_parent keeps_computeBoundingBox : keepsdb.

Lemma keeps_chooseLeaf fuel n o : keeps_conf (chooseLeaf fuel n o).
Proof. revert n. induction fuel as [|fuel IH]; intros n; simpl; keeps. Qed.

Lemma keeps_assign e g : keeps_conf (assign e g).
Proof. unfold assign. keeps. Qed.

#[local] Hint Resolve keeps_chooseLeaf keeps_assign : keepsdb.

Lemma keeps_assignGroup e l r : keeps_conf (assignGroup e l r).
Proof. unfold assignGroup. keeps. Qed.

Lemma keeps_pickNext l r es : keeps_conf (pickNext l r es).
Proof. unfold pickNext. keeps. Qed.

#[local] Hint Resolve keeps_assignGroup keeps_pickNext : keepsdb.

Lemma keeps_split_loop fuel l r m rem : keeps_conf (split_loop fuel l r m rem).
Proof. revert rem. induction fuel as [|fuel IH]; intros [|e rem]; simpl; keeps. Qed.

#[local] Hint Resolve keeps_split_loop : keepsdb.

Lemma keeps_split n m : keeps_conf (split n m).
Proof. unfold split. keeps. Qed.

Lemma keeps_getEntry n : keeps_conf (getEntry n).
Proof. unfold getEntry. keeps. Qed.

Lemma keeps_set_bb e b : keeps_conf (set_bb e b).
Proof. unfold set_bb. destruct e as [[x i]|]; keeps. Qed.

#[local] Hint Resolve keeps_split keeps_getEntry keeps_set_bb : keepsdb.

Lemma keeps_adjustTree fuel n nn : keeps_conf (adjustTree fuel n nn).
Proof. revert n nn. induction fuel as [|fuel IH]; intros n nn; simpl; keeps. Qed.

#[local] Hint Resolve keeps_adjustTree : keepsdb.

(** [Insert] returns a nil error whenever it returns, and has then added
    one to the counter. *)
Lemma Insert_Ok o s e s' :
  Insert o s = Ok (e, s') ->
  e = None /\
  size (tree s') = wrap64 (size (tree s) + 1) /\
  Dim (tree s') = Dim (tree s) /\
  MinChildren (tree s') = MinChildren (tree s) /\
  MaxChildren (tree s') = MaxChildren (tree s).
Proof.
  unfold Insert. intros H.
  repeat match goal with
  | H : bind get _ ?s = Ok _ |- _ =>
      let a := fresh "a" in let s1 := fresh "s" in let H1 := fresh "H" in
      apply bind_Ok in H; destruct H as (a & s1 & H1 & H);
      apply get_Ok in H1; destruct H1 as [-> ->]
  | H : bind ?m _ ?s = Ok _ |- _ =>
      let a := fresh "a" in let s1 := fresh "s" in
      let H1 := fresh "H" in let Hc := fresh "Hc" in
      apply bind_Ok in H; destruct H as (a & s1 & H1 & H);
      first [ assert (Hc : conf s1 = conf s)
                by (refine ((_ : keeps_conf m) s a s1 H1); keeps); clear H1
            | inversion H1; subst; clear H1 ]
  end.
  inv_step.
  repeat match goal with Hc : conf _ = conf _ |- _ => inversion Hc; clear Hc end.
  simpl. repeat split; congruence.
Qed.

(** ** Counting *)

Lemma wrap64_small z : - 2 ^ 63 <= z < 2 ^ 63 -> wrap64 z = z.
Proof. intros H. unfold wrap64. rewrite Z.mod_small; lia. Qed.

Lemma run_counts ops : forall s n k s',
  run ops s = Ok ((n, k), s') ->
  k = 0%nat /\
  size (tree s') = Nat.iter n (fun z => wrap64 (z + 1)) (size (tree s)) /\
  Dim (tree s') = Dim (tree s) /\
  MinChildren (tree s') = MinChildren (tree s) /\
  MaxChildren (tree s') = MaxChildren (tree s).
Proof.
  induction ops as [|[o|o] ops IH]; intros s n k s' H; simpl in H.
  - inv_step. auto.
  - repeat inv_step. destruct a0 as [n1 k1].
    apply Insert_Ok in H0 as (-> & Hsz & Hd & Hm & Hx).
    apply IH in H as (-> & Hsz' & Hd' & Hm' & Hx').
    simpl. split; [reflexivity|].
    split; [|repeat split; congruence].
    rewrite Hsz', Hsz. clear. induction n1; simpl; congruence.
  - repeat inv_step. destruct a0 as [n1 k1].
    rewrite Delete_is_noop in H0. inversion H0; subst.
    apply IH in H as (-> & Hsz' & Hd' & Hm' & Hx').
    simpl. auto.
Qed.

Lemma iter_incr_wrap n z :
  - 2 ^ 63 <= z -> z + Z.of_nat n < 2 ^ 63 ->
  Nat.iter n (fun z => wrap64 (z + 1)) z = z + Z.of_nat n.
Proof.
  induction n as [|n IH]; intros Hl Hu; simpl; [lia|].
  rewrite IH by lia. rewrite wrap64_small; lia.
Qed.

(** C9: on a new tree, after a run of calls of which [n] were [Insert]s
    that returned without error and [k] were [Delete]s that returned
    [ok = true], [Size] returns [n - k], as long as [n] fits the 64-bit
    counter. *)
Theorem Size_counts_inserts_minus_deletes (d m mx : Z) (ops : list op)
    (n k : nat) (s : state) :
  run ops (NewTree d m mx) = Ok ((n, k), s) ->
  Z.of_nat n < 2 ^ 63 ->
  Size s = Ok (Z.of_nat n - Z.of_nat k, s).
Proof.
  intros H Hn. apply run_counts in H as (-> & Hsz & _).
  unfold Size, bind, get, ret. rewrite Hsz. simpl size.
  rewrite iter_incr_wrap by lia. do 2 f_equal. lia.
Qed.

Lemma Size_counts_inserts_minus_deletes_witness :
  exists s,
    run [OpInsert (mkSpatial 0 (pt 0 0)); OpDelete (mkSpatial 0 (pt 0 0));
         OpInsert (mkSpatial 1 (pt 1 1))] (NewTree 2 2 4) = Ok ((2%nat, 0%nat), s) /\
    Size s = Ok (2, s).
Proof.
  eexists. split; [vm_compute; reflexivity|].
  apply (Size_counts_inserts_minus_deletes 2 2 4
           [OpInsert (mkSpatial 0 (pt 0 0)); OpDelete (mkSpatial 0 (pt 0 0));
            OpInsert (mkSpatial 1 (pt 1 1))] 2 0).
  - vm_compute; reflexivity.
  - simpl; lia.
Defined.

(** ** Descent: chooseLeaf *)

(** The loop of [chooseLeaf] ends with the entry it started with or with an
    entry of the node. *)
Lemma chooseLeaf_loop_elem o es : forall diff chosen r,
  chooseLeaf_loop es o diff chosen = Ok r ->
  r = chosen \/ exists c, r = Some c /\ c ∈ es.
Proof.
  induction es as [|e es IH]; intros diff chosen r H; simpl in H.
  - inversion H. auto.
  - apply rbind_Ok in H as (b & _ & H).
    assert (Hnew : forall d, chooseLeaf_loop es o d (Some e) = Ok r ->
                     exists c, r = Some c /\ c ∈ e :: es).
    { intros d Hd. apply IH in Hd as [->|(c & -> & Hc)].
      - exists e. split; [reflexivity|left].
      - exists c. split; [reflexivity|right; exact Hc]. }
    assert (Hold : chooseLeaf_loop es o diff chosen = Ok r ->
                     r = chosen \/ exists c, r = Some c /\ c ∈ e :: es).
    { intros Hd. apply IH in Hd as [->|(c & -> & Hc)]; [left; reflexivity|].
      right. exists c. split; [reflexivity|right; exact Hc]. }
    destruct (_ <? _)%float; [right; eapply Hnew, H|].
    destruct (_ =? _)%float; [|apply Hold, H].
    destruct chosen as [c0|]; [|discriminate].
    destruct (_ <? _)%float; [right; eapply Hnew, H|apply Hold, H].
Qed.

(** Whenever [chooseLeaf] returns, it has not changed the store and the
    node it returns is a leaf at the end of a path through entries of the
    nodes it visited. *)
Lemma chooseLeaf_descends o s fuel : forall n l s',
  chooseLeaf fuel n o s = Ok (l, s') -> s' = s /\ descends s n l.
Proof.
  induction fuel as [|fuel IH]; intros n l s' H; simpl in H; [discriminate|].
  apply bind_Ok in H as (nd & s1 & H1 & H). apply load_Ok in H1 as [Hn ->].
  destruct (leaf nd) eqn:El.
  - inv_step. split; [reflexivity|]. eapply descends_leaf; eauto.
  - apply bind_Ok in H as (chosen & s1 & H1 & H). apply lift_Ok in H1 as [H1 ->].
    apply IH in H as [-> Hf]. split; [reflexivity|].
    destruct chosen as [c|]; simpl in Hf.
    + apply chooseLeaf_loop_elem in H1 as [H1|(c' & H1 & Hin)]; [discriminate|].
      inversion H1; subst c'. eapply descends_child; eauto.
    + inversion Hf; simpl in *; discriminate.
Qed.

(** ** The store *)

Lemma ptr_eqb_eq x y : ptr_eqb x y = true <-> x = y.
Proof.
  destruct x, y; simpl; split; intros H; try discriminate; try reflexivity.
  - apply Nat.eqb_eq in H. congruence.
  - inversion H. apply Nat.eqb_refl.
Qed.

Lemma ptr_eqb_neq x y : ptr_eqb x y = false <-> x <> y.
Proof.
  rewrite <- ptr_eqb_eq. destruct (ptr_eqb x y); split; congruence.
Qed.

Lemma node_at_set_eq s x n :
  is_Some (node_at s x) -> node_at (set_node s x n) x = Some n.
Proof.
  destruct x; simpl; intros [old H]; try discriminate; [reflexivity|].
  apply list_lookup_insert_eq. eapply lookup_lt_Some; eauto.
Qed.

Lemma node_at_set_ne s x n y :
  x <> y -> node_at (set_node s x n) y = node_at s y.
Proof.
  destruct x, y; simpl; intros H; try reflexivity; try congruence.
  apply list_lookup_insert_ne. congruence.
Qed.

Lemma node_at_alloc_eq s n :
  node_at (mkState (tree s) (heap s ++ [n])) (heap_addr (length (heap s))) = Some n.
Proof. simpl. rewrite lookup_app_r by lia. rewrite Nat.sub_diag. reflexivity. Qed.

Lemma node_at_alloc_ne s n y :
  y <> heap_addr (length (heap s)) ->
  node_at (mkState (tree s) (heap s ++ [n])) y = node_at s y.
Proof.
  destruct y as [| |b]; simpl; intros H; try reflexivity.
  destruct (decide (b < length (heap s))%nat) as [Hb|Hb].
  - apply lookup_app_l. exact Hb.
  - rewrite !lookup_ge_None_2; [reflexivity|lia|].
    rewrite length_app. simpl. assert (b <> length (heap s)) by congruence. lia.
Qed.

Lemma node_at_valid s a nd :
  node_at s (heap_addr a) = Some nd -> (a < length (heap s))%nat.
Proof. simpl. apply lookup_lt_Some. Qed.

Lemma heap_length_set s x n : length (heap (set_node s x n)) = length (heap s).
Proof. destruct x; simpl; try reflexivity. apply length_insert. Qed.

Lemma conf_set s x n : conf (set_node s x n) = conf s.
Proof. destruct x; reflexivity. Qed.

Lemma set_entries_Ok x es s s' u :
  set_entries x es s = Ok (u, s') ->
  exists nd, node_at s x = Some nd /\ s' = set_node s x (with_entries nd es).
Proof.
  unfold set_entries. intros H. inv_step.
  apply load_Ok in H0 as [Hn ->]. apply store_Ok in H1 as [_ ->]. eauto.
Qed.

Lemma set_parent_Ok x y s s' u :
  set_parent x y s = Ok (u, s') ->
  exists nd, node_at s x = Some nd /\
    s' = set_node s x (mkNode y (leaf nd) (entries nd)).
Proof.
  unfold set_parent. intros H. inv_step.
  apply load_Ok in H0 as [Hn ->]. apply store_Ok in H1 as [_ ->]. eauto.
Qed.

Lemma computeBoundingBox_Ok x s s' b :
  computeBoundingBox x s = Ok (b, s') ->
  s' = s /\ exists nd, node_at s x = Some nd /\
                       Geom.boundingBoxN (map bb (entries nd)) = Ok b.
Proof.
  unfold computeBoundingBox. intros H. inv_step.
  apply load_Ok in H0 as [Hn ->]. inv_step. eauto.
Qed.

Lemma computeBoundingBox_eq x s nd b :
  node_at s x = Some nd -> Geom.boundingBoxN (map bb (entries nd)) = Ok b ->
  computeBoundingBox x s = Ok (b, s).
Proof.
  intros Hn Hb. unfold computeBoundingBox, bind. rewrite (load_eq _ _ _ Hn).
  unfold lift. rewrite Hb. reflexivity.
Qed.

(** Like [inv_step], and also through the statements that only read. *)
Ltac inv_read :=
  first
    [ inv_step
    | match goal with
      | H : load _ _ = Ok _ |- _ =>
          apply load_Ok in H; destruct H as [H ?]; subst
      | H : computeBoundingBox _ _ = Ok _ |- _ =>
          apply computeBoundingBox_Ok in H; destruct H as [? H]; subst
      end ].

Lemma assign_Ok e g s s' u :
  assign e g s = Ok (u, s') ->
  exists nd, node_at s g = Some nd /\
    s' = set_node s g (with_entries nd (entries nd ++ [e])).
Proof.
  unfold assign. intros H. repeat inv_read.
  apply set_entries_Ok in H1 as (nd & Hn' & ->).
  rewrite H0 in Hn'. inversion Hn'; subst. eauto.
Qed.

Lemma pickNext_Ok l r es s s' i :
  pickNext l r es s = Ok (i, s') -> s' = s.
Proof. unfold pickNext. intros H. repeat inv_read. reflexivity. Qed.

Lemma assignGroup_Ok e l r s s' u :
  assignGroup e l r s = Ok (u, s') ->
  assign e l s = Ok (u, s') \/ assign e r s = Ok (u, s').
Proof.
  unfold assignGroup. intros H. repeat inv_read.
  match goal with H : _ = Ok (u, s') |- _ => cbv zeta in H;
    repeat match type of H with
           | (if ?b then _ else _) _ = _ => destruct b; auto
           end;
    repeat inv_read end.
  match goal with H : _ = Ok (u, s') |- _ => destruct (_ <=? _) in H; auto end.
Qed.

(** ** split *)

Lemma index_Ok {A} (l : list A) i a : index l i = Ok a -> l !! i = Some a.
Proof. unfold index. destruct (l !! i); intros H; inversion H; reflexivity. Qed.

Lemma slice_Ok {A} (l : list A) lo hi x :
  slice l lo hi = Ok x ->
  (lo <= hi <= length l)%nat /\ x = take (hi - lo) (drop lo l).
Proof.
  unfold slice. destruct (Nat.leb lo hi) eqn:E1; simpl; [|discriminate].
  destruct (Nat.leb hi (length l)) eqn:E2; [|discriminate].
  apply Nat.leb_le in E1, E2. intros H; inversion H. split; [lia|reflexivity].
Qed.

Lemma slice_prefix {A} (l : list A) i x : slice l 0 i = Ok x -> x = take i l.
Proof. intros H. apply slice_Ok in H as [_ ->]. rewrite Nat.sub_0_r. reflexivity. Qed.

Lemma slice_suffix {A} (l : list A) i x :
  slice l i (length l) = Ok x -> x = drop i l.
Proof.
  intros H. apply slice_Ok in H as [_ ->].
  apply take_ge. rewrite length_drop. lia.
Qed.

Lemma with_entries_nil nd : with_entries nd (entries nd ++ []) = nd.
Proof. destruct nd; unfold with_entries; simpl. rewrite app_nil_r. reflexivity. Qed.

Lemma len_app {A} (l1 l2 : list A) : len (l1 ++ l2) = len l1 + len l2.
Proof. unfold len. rewrite length_app. lia. Qed.

Lemma len_cons {A} (a : A) (l : list A) : len (a :: l) = 1 + len l.
Proof. unfold len. simpl length. lia. Qed.

Lemma len_perm {A} (l1 l2 : list A) : l1 ≡ₚ l2 -> len l1 = len l2.
Proof. intros H. unfold len. rewrite (Permutation_length H). reflexivity. Qed.

(** The distribution loop appends the remaining entries to the two groups:
    nothing is lost or duplicated, no other node is touched, and a group
    that can still reach the minimum does reach it. *)
Lemma split_loop_spec m : forall fuel rem s s' u l r gl gr,
  split_loop fuel l r m rem s = Ok (u, s') ->
  l <> r -> node_at s l = Some gl -> node_at s r = Some gr ->
  exists L R,
    node_at s' l = Some (with_entries gl (entries gl ++ L)) /\
    node_at s' r = Some (with_entries gr (entries gr ++ R)) /\
    (forall y, y <> l -> y <> r -> node_at s' y = node_at s y) /\
    length (heap s') = length (heap s) /\
    L ++ R ≡ₚ rem /\
    (m <= len (entries gl) + len rem -> m <= len (entries gr) + len rem ->
     2 * m + 1 <= len (entries gl) + len (entries gr) + len rem ->
     m <= len (entries gl) + len L /\ m <= len (entries gr) + len R).
Proof.
  induction fuel as [|fuel IH]; intros rem s s' u l r gl gr H Hlr Hl Hr.
  - destruct rem as [|e0 rem]; simpl in H; [|discriminate].
    inv_step. exists [], []. rewrite !with_entries_nil.
    repeat split; auto; unfold len; simpl; lia.
  - destruct rem as [|e0 rem0]; simpl in H.
    { inv_step. exists [], []. rewrite !with_entries_nil.
      repeat split; auto; unfold len; simpl; lia. }
    change (S (length rem0)) with (length (e0 :: rem0)) in H.
    remember (e0 :: rem0) as rem eqn:Erem.
    apply bind_Ok in H as (next & s1 & Hnext & H).
    apply pickNext_Ok in Hnext as ->.
    apply bind_Ok in H as (e & s1 & He & H). apply lift_Ok in He as [He ->].
    apply index_Ok in He.
    apply bind_Ok in H as (gl' & s1 & Hgl & H). apply load_Ok in Hgl as [Hgl ->].
    apply bind_Ok in H as (gr' & s1 & Hgr & H). apply load_Ok in Hgr as [Hgr ->].
    rewrite Hl in Hgl. rewrite Hr in Hgr. inversion Hgl; inversion Hgr; subst gl' gr'.
    clear Hgl Hgr.
    apply bind_Ok in H as ([] & s1 & Hassign & H).
    apply bind_Ok in H as (before & s2 & Hb & H). apply lift_Ok in Hb as [Hb ->].
    apply bind_Ok in H as (after & s2 & Ha & H). apply lift_Ok in Ha as [Ha ->].
    apply slice_prefix in Hb. apply slice_suffix in Ha. subst before after.
    assert (Hperm : e :: (take next rem ++ drop (S next) rem) ≡ₚ rem).
    { rewrite <- (take_drop_middle rem next e He) at 3.
      apply Permutation_middle. }
    assert (Hlen : len rem = 1 + len (take next rem ++ drop (S next) rem)).
    { rewrite <- (len_perm _ _ Hperm). apply len_cons. }
    assert (Hcase :
      (assign e l s = Ok (tt, s1) /\
       (len rem + len (entries gl) <= m \/
        (m < len rem + len (entries gl) /\ m < len rem + len (entries gr)))) \/
      (assign e r s = Ok (tt, s1) /\
       m < len rem + len (entries gl))).
    { destruct (_ <=? m) eqn:E1 in Hassign.
      - apply Z.leb_le in E1. left. split; [exact Hassign|left; exact E1].
      - apply Z.leb_gt in E1. destruct (_ <=? m) eqn:E2 in Hassign.
        + right. split; [exact Hassign|lia].
        + apply Z.leb_gt in E2. apply assignGroup_Ok in Hassign as [Hassign|Hassign].
          * left. split; [exact Hassign|right; lia].
          * right. split; [exact Hassign|lia]. }
    clear Hassign.
    destruct Hcase as [[Hassign Hc]|[Hassign Hc]];
      apply assign_Ok in Hassign as (g & Hg & ->).
    + rewrite Hl in Hg. inversion Hg; subst g. clear Hg.
      eapply IH in H as (L & R & HL & HR & Hfr & Hhp & Hp & Hcnt);
        [|exact Hlr|apply node_at_set_eq; eauto
         |rewrite node_at_set_ne by exact Hlr; exact Hr].
      exists (e :: L), R. simpl in HL. rewrite <- app_assoc in HL. simpl in HL.
      split; [exact HL|]. split; [exact HR|].
      split. { intros y Hy1 Hy2. rewrite Hfr by auto. apply node_at_set_ne. congruence. }
      split. { rewrite Hhp. apply heap_length_set. }
      split. { simpl. rewrite <- Hperm. constructor. exact Hp. }
      intros H1 H2 H3. clear IH Hperm Hp HL HR Hfr Hhp.
      unfold len in *. simpl entries in *. rewrite ?length_app in *.
      simpl length in *. destruct Hc as [Hc|Hc]; lia.
    + rewrite Hr in Hg. inversion Hg; subst g. clear Hg.
      eapply IH in H as (L & R & HL & HR & Hfr & Hhp & Hp & Hcnt);
        [|exact Hlr|rewrite node_at_set_ne by congruence; exact Hl
         |apply node_at_set_eq; eauto].
      exists L, (e :: R). simpl in HR. rewrite <- app_assoc in HR. simpl in HR.
      split; [exact HL|]. split; [exact HR|].
      split. { intros y Hy1 Hy2. rewrite Hfr by auto. apply node_at_set_ne. congruence. }
      split. { rewrite Hhp. apply heap_length_set. }
      split. { rewrite <- Hperm, <- Hp. symmetry. apply Permutation_middle. }
      intros H1 H2 H3. clear IH Hperm Hp HL HR Hfr Hhp.
      unfold len in *. simpl entries in *. rewrite ?length_app in *.
      simpl length in *. lia.
Qed.

Lemma remove_two {A} (es : list A) (l r : nat) (x y : A) :
  es !! l = Some x -> es !! r = Some y -> (S l <= r)%nat ->
  x :: y :: ((take l es ++ take (r - S l) (drop (S l) es)) ++ drop (S r) es) ≡ₚ es.
Proof.
  intros Hl Hr Hlr.
  rewrite <- (take_drop_middle es l x Hl) at 4.
  assert (Hr' : drop (S l) es !! (r - S l)%nat = Some y).
  { rewrite lookup_drop. replace (S l + (r - S l))%nat with r by lia. exact Hr. }
  rewrite <- (take_drop_middle (drop (S l) es) (r - S l) y Hr') at 2.
  rewrite drop_drop. replace (S l + S (r - S l))%nat with (S r) by lia.
  rewrite <- app_assoc.
  rewrite <- Permutation_middle. constructor.
  rewrite (Permutation_middle (take l es)).
  apply Permutation_app_head.
  apply Permutation_middle.
Qed.

(** Whenever [split] returns, the node keeps its address, parent and leaf
    flag, a new node with the same parent and flag sits at the next free
    address, the two entry lists are a rearrangement of the old list, no
    other node has changed, and, for a node that was one entry over the
    maximum, both lists are within the bounds. *)
Lemma split_spec n m s lr s' nd :
  split n m s = Ok (lr, s') -> node_at s n = Some nd ->
  exists L R,
    lr = (n, heap_addr (length (heap s))) /\
    node_at s' n = Some (with_entries nd L) /\
    node_at s' (heap_addr (length (heap s))) = Some (with_entries nd R) /\
    (forall y, y <> n -> y <> heap_addr (length (heap s)) ->
               node_at s' y = node_at s y) /\
    length (heap s') = S (length (heap s)) /\
    conf s' = conf s /\
    L ++ R ≡ₚ entries nd /\
    (forall mx, len (entries nd) = mx + 1 -> 1 <= m -> 2 * m <= mx ->
       m <= len L <= mx /\ m <= len R <= mx).
Proof.
  intros H Hn. pose proof (keeps_split n m s lr s' H) as Hconf.
  unfold split in H.
  apply bind_Ok in H as (nd' & s1 & Hld & H). apply load_Ok in Hld as [Hld ->].
  rewrite Hn in Hld; inversion Hld; subst nd'; clear Hld.
  apply bind_Ok in H as ([l r] & s1 & Hseeds & H). apply lift_Ok in Hseeds as [_ ->].
  simpl fst in H; simpl snd in H. cbv zeta in H.
  apply bind_Ok in H as (leftSeed & s1 & Hls & H). apply lift_Ok in Hls as [Hls ->].
  apply bind_Ok in H as (rightSeed & s1 & Hrs & H). apply lift_Ok in Hrs as [Hrs ->].
  apply index_Ok in Hls, Hrs.
  apply bind_Ok in H as (p1 & s1 & Hp1 & H). apply lift_Ok in Hp1 as [Hp1 ->].
  apply bind_Ok in H as (p2 & s1 & Hp2 & H). apply lift_Ok in Hp2 as [Hp2 ->].
  apply bind_Ok in H as (p3 & s1 & Hp3 & H). apply lift_Ok in Hp3 as [Hp3 ->].
  apply slice_prefix in Hp1. apply slice_Ok in Hp2 as [Hlr Hp2].
  apply slice_suffix in Hp3. subst p1 p2 p3.
  apply bind_Ok in H as ([] & sA & HA & H).
  apply set_entries_Ok in HA as (nd' & Hld & ->).
  rewrite Hn in Hld; inversion Hld; subst nd'; clear Hld.
  apply bind_Ok in H as (right & sB & HB & H). apply alloc_Ok in HB as [-> ->].
  rewrite heap_length_set in H.
  apply bind_Ok in H as ([] & sC & Hloop & H). inv_step.
  set (sA := set_node s n (with_entries nd [leftSeed])) in *.
  set (right := heap_addr (length (heap s))) in *.
  assert (Hne : n <> right).
  { subst right. destruct n as [| |a]; try discriminate.
    apply node_at_valid in Hn. intros E; inversion E; lia. }
  assert (HlenA : length (heap sA) = length (heap s)) by apply heap_length_set.
  eapply split_loop_spec in Hloop as (L & R & HL & HR & Hfr & Hhp & Hp & Hcnt);
    [|exact Hne
     |rewrite node_at_alloc_ne by (rewrite HlenA; exact Hne);
      apply node_at_set_eq; eauto
     |unfold right; rewrite <- HlenA; apply node_at_alloc_eq].
  exists (leftSeed :: L), (rightSeed :: R).
  split; [reflexivity|]. split; [exact HL|]. split; [exact HR|].
  split.
  { intros y Hy1 Hy2. rewrite Hfr by auto.
    rewrite node_at_alloc_ne by (rewrite HlenA; exact Hy2).
    apply node_at_set_ne. congruence. }
  split.
  { rewrite Hhp. simpl. rewrite length_app, HlenA. simpl. lia. }
  split; [exact Hconf|].
  assert (Hperm : (leftSeed :: L) ++ rightSeed :: R ≡ₚ entries nd).
  { rewrite <- (remove_two (entries nd) l r leftSeed rightSeed Hls Hrs) by lia.
    simpl. constructor. rewrite <- Permutation_middle. constructor. exact Hp. }
  split; [exact Hperm|].
  intros mx Hmx Hm1 Hm2.
  pose proof (len_perm _ _ Hperm) as Hlen. rewrite len_app, !len_cons in Hlen.
  pose proof (len_perm _ _ Hp) as Hlen'. rewrite len_app in Hlen'.
  simpl entries in Hcnt. rewrite !len_cons.
  assert (len (@nil entry) = 0) by reflexivity. rewrite !len_cons in Hcnt.
  lia.
Qed.

(** ** The shape of the stores that insertion produces *)


Lemma mbr_ext s s' x b :
  node_at s' x = node_at s x -> mbr s x b -> mbr s' x b.
Proof. intros E (nd & Hn & Hb). exists nd. rewrite E. auto. Qed.

Lemma heap_leaf_ext s s' x :
  node_at s' x = node_at s x ->
  MinChildren (tree s') = MinChildren (tree s) ->
  MaxChildren (tree s') = MaxChildren (tree s) ->
  heap_leaf s x -> heap_leaf s' x.
Proof.
  intros E E1 E2 (a & nd & Hx & Hn & H). exists a, nd.
  rewrite E, E1, E2. auto.
Qed.

Lemma leaf_below_ext s s' e :
  node_at s' (child e) = node_at s (child e) ->
  MinChildren (tree s') = MinChildren (tree s) ->
  MaxChildren (tree s') = MaxChildren (tree s) ->
  leaf_below s e -> leaf_below s' e.
Proof.
  intros E E1 E2 [H1 H2]. split; [eapply heap_leaf_ext|eapply mbr_ext]; eauto.
Qed.

Lemma shape_ext s s' :
  (forall y, node_at s' y = node_at s y) ->
  MinChildren (tree s') = MinChildren (tree s) ->
  MaxChildren (tree s') = MaxChildren (tree s) ->
  shape s -> shape s'.
Proof.
  intros E E1 E2 H.
  assert (Er : root (tree s') = root (tree s)).
  { specialize (E root_addr). simpl in E. congruence. }
  destruct H as [Hl Hall Hlen|Hl Hall Hnd Hlen|Hl Hall].
  - apply one_level; rewrite ?Er, ?E2; auto.
  - apply two_levels; rewrite ?Er, ?E2; auto.
    eapply Forall_impl; [exact Hall|]. intros e. apply leaf_below_ext; auto.
  - apply three_levels; rewrite ?Er; auto.
    eapply Forall_impl; [exact Hall|].
    intros e (a & nd & Hc & Hn & Hlf & Hb & Hm & Hin).
    exists a, nd. rewrite E, E1, E2. repeat split; auto; try lia.
    + eapply mbr_ext; eauto.
    + eapply Forall_impl; [exact Hin|]. intros e'. apply leaf_below_ext; auto.
Qed.

Lemma shape_NewTree d m mx : 0 <= mx -> shape (NewTree d m mx).
Proof. intros H. apply one_level; simpl; auto. Qed.



Lemma descends_root_leaf s l :
  leaf (root (tree s)) = true -> descends s root_addr l -> l = root_addr.
Proof.
  intros Hl H. inversion H as [n nd Hn Hlf|n nd c l' Hn Hlf]; subst; [reflexivity|].
  simpl in Hn. inversion Hn; subst. congruence.
Qed.

(** The last statements of [Insert] change nothing but the counter. *)
Lemma Insert_count_Ok s e s' :
  (s3 <- get ;;
   put (mkState (mkRtree (Dim (tree s3)) (MinChildren (tree s3))
                         (MaxChildren (tree s3)) (root (tree s3))
                         (wrap64 (size (tree s3) + 1)))
                (heap s3)) ;;;
   ret (@None error))%M s = Ok (e, s') ->
  (forall y, node_at s' y = node_at s y) /\
  MinChildren (tree s') = MinChildren (tree s) /\
  MaxChildren (tree s') = MaxChildren (tree s).
Proof.
  intros H. inversion H; subst; clear H. repeat split.
Qed.

(** The body of [if splitRoot != nil], for the root and a sibling on the
    heap: the old root moves to the next free address, the root becomes an
    internal node over the two, and both name it as their parent. *)
Lemma grow_root_Ok r s u s' nsr :
  (oldRootVal <- load root_addr ;;
   oldRoot <- alloc oldRootVal ;;
   b1 <- computeBoundingBox oldRoot ;;
   b2 <- computeBoundingBox (heap_addr r) ;;
   store root_addr
     (mkNode null false [mkEntry b1 oldRoot None; mkEntry b2 (heap_addr r) None]) ;;;
   set_parent oldRoot root_addr ;;;
   set_parent (heap_addr r) root_addr)%M s = Ok (u, s') ->
  node_at s (heap_addr r) = Some nsr ->
  exists b1 b2,
    Geom.boundingBoxN (map bb (entries (root (tree s)))) = Ok b1 /\
    Geom.boundingBoxN (map bb (entries nsr)) = Ok b2 /\
    root (tree s') =
      mkNode null false [mkEntry b1 (heap_addr (length (heap s))) None;
                         mkEntry b2 (heap_addr r) None] /\
    node_at s' (heap_addr (length (heap s))) =
      Some (mkNode root_addr (leaf (root (tree s))) (entries (root (tree s)))) /\
    node_at s' (heap_addr r) = Some (mkNode root_addr (leaf nsr) (entries nsr)) /\
    (forall y, y <> root_addr -> y <> heap_addr (length (heap s)) ->
               y <> heap_addr r -> node_at s' y = node_at s y) /\
    conf s' = conf s.
Proof.
  intros H Hr.
  assert (Hrk : r <> length (heap s)).
  { apply node_at_valid in Hr. lia. }
  apply bind_Ok in H as (rt & s1 & Hld & H). apply load_Ok in Hld as [Hld ->].
  simpl in Hld. inversion Hld; subst rt; clear Hld.
  apply bind_Ok in H as (oldRoot & sC & Hal & H). apply alloc_Ok in Hal as [-> ->].
  set (sC := mkState (tree s) (heap s ++ [root (tree s)])) in *.
  assert (HCk : node_at sC (heap_addr (length (heap s))) = Some (root (tree s)))
    by apply node_at_alloc_eq.
  assert (HCr : node_at sC (heap_addr r) = Some nsr).
  { unfold sC. rewrite node_at_alloc_ne by congruence. exact Hr. }
  apply bind_Ok in H as (b1 & s1 & Hb1 & H).
  apply computeBoundingBox_Ok in Hb1 as [-> (n1 & Hn1 & Hb1)].
  rewrite HCk in Hn1; inversion Hn1; subst n1; clear Hn1.
  apply bind_Ok in H as (b2 & s1 & Hb2 & H).
  apply computeBoundingBox_Ok in Hb2 as [-> (n2 & Hn2 & Hb2)].
  rewrite HCr in Hn2; inversion Hn2; subst n2; clear Hn2.
  apply bind_Ok in H as ([] & sD & Hst & H). apply store_Ok in Hst as [_ ->].
  apply bind_Ok in H as ([] & sE & Hp1 & H).
  apply set_parent_Ok in Hp1 as (n1 & Hn1 & ->).
  rewrite node_at_set_ne in Hn1 by discriminate.
  rewrite HCk in Hn1; inversion Hn1; subst n1; clear Hn1.
  apply set_parent_Ok in H as (n2 & Hn2 & ->).
  rewrite !node_at_set_ne in Hn2 by congruence.
  rewrite HCr in Hn2; inversion Hn2; subst n2; clear Hn2.
  exists b1, b2. split; [exact Hb1|]. split; [exact Hb2|].
  split; [reflexivity|].
  split.
  { rewrite node_at_set_ne by congruence. apply node_at_set_eq.
    rewrite node_at_set_ne by discriminate. rewrite HCk. eauto. }
  split.
  { apply node_at_set_eq. rewrite !node_at_set_ne by congruence. rewrite HCr. eauto. }
  split.
  { intros y Hy1 Hy2 Hy3. rewrite !node_at_set_ne by congruence.
    unfold sC. apply node_at_alloc_ne. exact Hy2. }
  rewrite !conf_set. reflexivity.
Qed.

Lemma conf_bounds s s' :
  conf s' = conf s ->
  MinChildren (tree s') = MinChildren (tree s) /\
  MaxChildren (tree s') = MaxChildren (tree s).
Proof. unfold conf. intros H. inversion H. auto. Qed.

Lemma adjustTree_root f nn s rs s' :
  adjustTree (S f) root_addr nn s = Ok (rs, s') -> rs = (root_addr, nn) /\ s' = s.
Proof. simpl. intros H. inversion H. auto. Qed.

Lemma leaf_entry_new o : leaf_entry (mkEntry (Bounds o) null (Some o)).
Proof. exists o. auto. Qed.

Lemma Forall_app_perm {A} (P : A -> Prop) (l L R : list A) :
  L ++ R ≡ₚ l -> Forall P l -> Forall P L /\ Forall P R.
Proof.
  intros Hp Hl. apply Forall_app. rewrite Hp. exact Hl.
Qed.

(** Insertion into a tree whose root is a leaf. *)
Lemma Insert_one_level o s e s' :
  2 <= MinChildren (tree s) -> 2 * MinChildren (tree s) <= MaxChildren (tree s) ->
  leaf (root (tree s)) = true ->
  Forall leaf_entry (entries (root (tree s))) ->
  len (entries (root (tree s))) <= MaxChildren (tree s) ->
  Insert o s = Ok (e, s') -> shape s'.
Proof.
  intros Hmin Hmax Hl Hall Hlen H. unfold Insert in H.
  apply bind_Ok in H as (s0 & s1 & Hg & H). apply get_Ok in Hg as [-> ->].
  apply bind_Ok in H as (leaf0 & s1 & Hc & H).
  apply chooseLeaf_descends in Hc as [-> Hc].
  apply descends_root_leaf in Hc; [subst leaf0|exact Hl].
  apply bind_Ok in H as (ln & s1 & Hld & H). apply load_Ok in Hld as [Hld ->].
  simpl in Hld. inversion Hld; subst ln; clear Hld.
  apply bind_Ok in H as ([] & sA & HA & H).
  apply set_entries_Ok in HA as (nd & Hnd & ->).
  simpl in Hnd. inversion Hnd; subst nd; clear Hnd.
  apply bind_Ok in H as (ln' & s1 & Hld & H). apply load_Ok in Hld as [Hld ->].
  simpl in Hld. inversion Hld; subst ln'; clear Hld.
  apply bind_Ok in H as (s0 & s1 & Hg & H). apply get_Ok in Hg as [-> ->].
  set (new := mkEntry (Bounds o) null (Some o)) in *.
  set (nd := with_entries (root (tree s)) (entries (root (tree s)) ++ [new])) in *.
  set (sA := set_node s root_addr nd) in *.
  assert (HallA : Forall leaf_entry (entries nd)).
  { simpl. apply Forall_app. split; [exact Hall|]. repeat constructor. apply leaf_entry_new. }
  assert (HlenA : len (entries nd) = len (entries (root (tree s))) + 1).
  { simpl. rewrite len_app. reflexivity. }
  apply bind_Ok in H as (ls & sB & Hsplit & H).
  apply bind_Ok in H as (s0 & s1 & Hg & H). apply get_Ok in Hg as [-> ->].
  apply bind_Ok in H as (rs & sX & Hadj & H).
  apply bind_Ok in H as ([] & sF & Hgrow & H).
  apply Insert_count_Ok in H as (Hnode & Hmn & Hmx).
  apply (shape_ext sF); auto. clear Hnode Hmn Hmx s' e.
  change (MaxChildren (tree sA)) with (MaxChildren (tree s)) in Hsplit.
  change (MinChildren (tree sA)) with (MinChildren (tree s)) in Hsplit.
  destruct (len (entries nd) >? MaxChildren (tree s)) eqn:Eov.
  - (* the root overflows and is split *)
    apply Z.gtb_lt in Eov.
    apply (split_spec _ _ _ _ _ nd) in Hsplit
      as (L & R & -> & HL & HR & Hfr & Hhp & Hcf & Hp & Hcnt); [|reflexivity].
    change (length (heap sA)) with (length (heap s)) in *.
    destruct (Hcnt (MaxChildren (tree s))) as [HcL HcR]; [lia|lia|lia|]. clear Hcnt.
    destruct (Forall_app_perm _ _ _ _ Hp HallA) as [HaL HaR].
    unfold budget in Hadj. apply adjustTree_root in Hadj as [-> ->].
    cbn [fst snd ptr_eqb negb] in Hgrow.
    eapply grow_root_Ok in Hgrow as (b1 & b2 & Hb1 & Hb2 & Hroot & Hk & Hr & _ & Hcf');
      [|exact HR].
    simpl in HL. inversion HL as [HL']. rewrite HL' in *. simpl in Hb1, Hk.
    simpl in Hb2, Hr.
    change (conf sA) with (conf s) in Hcf. rewrite Hcf in Hcf'.
    apply conf_bounds in Hcf' as [Emn Emx].
    apply two_levels; rewrite Hroot; simpl.
    + reflexivity.
    + repeat constructor; simpl.
      * exists (length (heap sB)), (mkNode root_addr (leaf (root (tree s))) L).
        rewrite Emn, Emx. simpl. repeat split; auto; lia.
      * eexists. split; [exact Hk|exact Hb1].
      * exists (length (heap s)), (mkNode root_addr (leaf (root (tree s))) R).
        rewrite Emn, Emx. simpl. repeat split; auto; lia.
      * eexists. split; [exact Hr|exact Hb2].
    + repeat constructor; [|apply not_elem_of_nil].
      rewrite list_elem_of_singleton. intros E; inversion E; lia.
    + rewrite Emx. unfold len. simpl. lia.
  - (* no overflow *)
    rewrite Z.gtb_ltb in Eov. apply Z.ltb_ge in Eov. inv_step.
    unfold budget in Hadj. apply adjustTree_root in Hadj as [-> ->].
    cbn [fst snd ptr_eqb negb] in Hgrow. inv_step.
    apply one_level; simpl; auto.
Qed.

Lemma descends_heap_leaf s x l :
  heap_leaf s x -> descends s x l -> l = x.
Proof.
  intros (a & nd & -> & Hn & _ & Hl & _) H.
  inversion H as [n nd' Hn' Hlf|n nd' c l' Hn' Hlf]; subst; [reflexivity|].
  rewrite Hn in Hn'. inversion Hn'; subst. congruence.
Qed.

Lemma descends_two_levels s l :
  leaf (root (tree s)) = false ->
  Forall (leaf_below s) (entries (root (tree s))) ->
  descends s root_addr l ->
  exists c, c ∈ entries (root (tree s)) /\ l = child c /\ heap_leaf s l.
Proof.
  intros Hl Hall H.
  inversion H as [n nd Hn Hlf|n nd c l' Hn Hlf Hin Hf]; subst;
    simpl in Hn; inversion Hn; subst; [congruence|].
  rewrite Forall_forall in Hall. destruct (Hall c Hin) as [Hc _].
  apply (descends_heap_leaf _ _ _ Hc) in Hf. subst l. eauto.
Qed.

Lemma descends_three_levels s l :
  leaf (root (tree s)) = false ->
  Forall (inner_below s) (entries (root (tree s))) ->
  descends s root_addr l -> heap_leaf s l.
Proof.
  intros Hl Hall H.
  inversion H as [n nd Hn Hlf|n nd c l' Hn Hlf Hin Hf]; subst;
    simpl in Hn; inversion Hn; subst; [congruence|].
  rewrite Forall_forall in Hall.
  destruct (Hall c Hin) as (a & ndc & Hc & Hnc & Hlc & _ & _ & Hbelow).
  inversion Hf as [n nd Hn' Hlf'|n nd c' l' Hn' Hlf' Hin' Hf']; subst;
    rewrite Hnc in Hn'; inversion Hn'; subst; [congruence|].
  rewrite Forall_forall in Hbelow. destruct (Hbelow c' Hin') as [Hc' _].
  apply (descends_heap_leaf _ _ _ Hc') in Hf'. subst l. exact Hc'.
Qed.

Lemma find_child_None n es : forall i,
  Forall (fun e => child e <> n) es -> find_child n es i = None.
Proof.
  induction es as [|e es IH]; intros i H; simpl; [reflexivity|].
  apply Forall_cons in H as [He H].
  apply ptr_eqb_neq in He. rewrite He. apply IH, H.
Qed.

Lemma find_child_Some n es : forall i j,
  find_child n es i = Some j ->
  exists e, (i <= j)%nat /\ es !! (j - i)%nat = Some e /\ child e = n.
Proof.
  induction es as [|e es IH]; intros i j H; simpl in H; [discriminate|].
  destruct (ptr_eqb (child e) n) eqn:E.
  - inversion H; subst. apply ptr_eqb_eq in E. exists e.
    rewrite Nat.sub_diag. auto.
  - apply IH in H as (e' & Hij & He' & Hc). exists e'.
    split; [lia|]. split; [|exact Hc].
    replace (j - i)%nat with (S (j - S i)) by lia. exact He'.
Qed.

Lemma find_child_None_inv n es : forall i,
  find_child n es i = None -> Forall (fun e => child e <> n) es.
Proof.
  induction es as [|e es IH]; intros i H; simpl in H; constructor.
  - intros E. apply ptr_eqb_eq in E. rewrite E in H. discriminate.
  - destruct (ptr_eqb (child e) n); [discriminate|]. eapply IH, H.
Qed.

Lemma find_child_elem n es e :
  e ∈ es -> child e = n -> exists j, find_child n es 0 = Some j.
Proof.
  intros Hin Hc. destruct (find_child n es 0) eqn:E; [eauto|].
  apply find_child_None_inv in E. rewrite Forall_forall in E.
  destruct (E e Hin Hc).
Qed.

(** The first part of [Insert] at a leaf on the heap: the object is
    appended and the leaf is split when it overflows.  The leaf keeps its
    address and its parent pointer, and the root is not touched. *)
Lemma append_heap_leaf {A} o a s nd (K : ptr * ptr -> M A) res s' :
  node_at s (heap_addr a) = Some nd ->
  (ln <- load (heap_addr a) ;;
   set_entries (heap_addr a)
     (entries ln ++ [mkEntry (Bounds o) null (Some o)]) ;;;
   ln' <- load (heap_addr a) ;;
   s1 <- get ;;
   ls <- (if len (entries ln') >? MaxChildren (tree s1)
          then split (heap_addr a) (MinChildren (tree s1))
          else ret (heap_addr a, null)) ;;
   K ls)%M s = Ok (res, s') ->
  let new := mkEntry (Bounds o) null (Some o) in
  exists ls sB,
  K ls sB = Ok (res, s') /\
  conf sB = conf s /\
  (forall y, y <> heap_addr a -> y <> heap_addr (length (heap s)) ->
             node_at sB y = node_at s y) /\
  ((MaxChildren (tree s) < len (entries nd) + 1 /\
    exists L R,
      ls = (heap_addr a, heap_addr (length (heap s))) /\
      node_at sB (heap_addr a) = Some (with_entries nd L) /\
      node_at sB (heap_addr (length (heap s))) = Some (with_entries nd R) /\
      L ++ R ≡ₚ entries nd ++ [new] /\
      (forall mx, len (entries nd) = mx -> 1 <= MinChildren (tree s) ->
         2 * MinChildren (tree s) <= mx ->
         MinChildren (tree s) <= len L <= mx /\
         MinChildren (tree s) <= len R <= mx))
   \/
   (len (entries nd) + 1 <= MaxChildren (tree s) /\
    ls = (heap_addr a, null) /\
    node_at sB (heap_addr a) = Some (with_entries nd (entries nd ++ [new])) /\
    node_at sB (heap_addr (length (heap s))) = None)).
Proof.
  intros Hn H new.
  apply bind_Ok in H as (ln & s1 & Hld & H). apply load_Ok in Hld as [Hld ->].
  rewrite Hn in Hld; inversion Hld; subst ln; clear Hld.
  apply bind_Ok in H as ([] & sA & HA & H).
  apply set_entries_Ok in HA as (nd' & Hnd & ->).
  rewrite Hn in Hnd; inversion Hnd; subst nd'; clear Hnd.
  fold new in H.
  set (ndA := with_entries nd (entries nd ++ [new])) in *.
  set (sA := set_node s (heap_addr a) ndA) in *.
  assert (HnA : node_at sA (heap_addr a) = Some ndA).
  { apply node_at_set_eq. eauto. }
  assert (HlenA : len (entries ndA) = len (entries nd) + 1).
  { simpl. rewrite len_app. reflexivity. }
  apply bind_Ok in H as (ln' & s1 & Hld & H). apply load_Ok in Hld as [Hld ->].
  rewrite HnA in Hld; inversion Hld; subst ln'; clear Hld.
  apply bind_Ok in H as (s0 & s1 & Hg & H). apply get_Ok in Hg as [-> ->].
  apply bind_Ok in H as (ls & sB & H & HK).
  exists ls, sB. split; [exact HK|]. clear HK.
  change (MaxChildren (tree sA)) with (MaxChildren (tree s)) in H.
  change (MinChildren (tree sA)) with (MinChildren (tree s)) in H.
  destruct (len (entries ndA) >? MaxChildren (tree s)) eqn:Eov.
  - apply Z.gtb_lt in Eov.
    apply (split_spec _ _ _ _ _ ndA) in H
      as (L & R & -> & HL & HR & Hfr & Hhp & Hcf & Hp & Hcnt); [|exact HnA].
    assert (HlA : length (heap sA) = length (heap s)) by apply heap_length_set.
    rewrite HlA in *. clear HlA.
    split; [exact Hcf|]. split.
    { intros y Hy1 Hy2. rewrite Hfr by auto. apply node_at_set_ne. congruence. }
    left. split; [lia|]. exists L, R.
    split; [reflexivity|]. split; [exact HL|]. split; [exact HR|].
    split; [exact Hp|]. intros mx ? ? ?. apply Hcnt; lia.
  - rewrite Z.gtb_ltb in Eov. apply Z.ltb_ge in Eov. inv_step.
    split; [reflexivity|]. split.
    { intros y Hy1 Hy2. apply node_at_set_ne. congruence. }
    right. split; [lia|]. split; [reflexivity|]. split; [exact HnA|].
    unfold sA. rewrite node_at_set_ne.
    + simpl. apply lookup_ge_None_2. lia.
    + apply node_at_valid in Hn. intros E; inversion E; lia.
Qed.

(** With three levels, the leaf that [chooseLeaf] finds names the root as
    its parent, the root has no entry for it, and [Insert] does not
    return. *)
Lemma Insert_three_levels o s e s' :
  leaf (root (tree s)) = false ->
  Forall (inner_below s) (entries (root (tree s))) ->
  Insert o s = Ok (e, s') -> False.
Proof.
  intros Hl Hall H. unfold Insert in H.
  apply bind_Ok in H as (s0 & s1 & Hg & H). apply get_Ok in Hg as [-> ->].
  apply bind_Ok in H as (leaf0 & s1 & Hc & H).
  apply chooseLeaf_descends in Hc as [-> Hc].
  apply descends_three_levels in Hc as (a & ndl & -> & Hn & Hp & Hlf & _); auto.
  assert (Hnone : find_child (heap_addr a) (entries (root (tree s))) 0 = None).
  { apply find_child_None. eapply Forall_impl; [exact Hall|].
    intros c (a' & nd' & Hc' & Hn' & Hl' & _) E. rewrite E in Hn'. congruence. }
  apply (append_heap_leaf o a s ndl) in H
    as (ls & sB & H & _ & Hfr & Hcase); [|exact Hn].
  assert (Hroot : root (tree sB) = root (tree s)).
  { assert (E : node_at sB root_addr = node_at s root_addr)
      by (apply Hfr; discriminate).
    simpl in E. congruence. }
  assert (Hleaf : ls.1 = heap_addr a /\
                  exists ndB, node_at sB (heap_addr a) = Some ndB /\
                              parent ndB = root_addr).
  { destruct Hcase as [(_ & L & R & -> & HL & _)|(_ & -> & HL & _)];
      (split; [reflexivity|]); eexists; (split; [exact HL|exact Hp]). }
  destruct Hleaf as [E1 (ndB & HnB & HpB)].
  apply bind_Ok in H as (s0 & s1 & Hg & H). apply get_Ok in Hg as [-> ->].
  apply bind_Ok in H as (rs & sX & Hadj & _).
  rewrite E1 in Hadj. unfold budget in Hadj. simpl in Hadj.
  apply bind_Ok in Hadj as (ent & s1 & Hge & Hadj).
  unfold getEntry in Hge.
  apply bind_Ok in Hge as (nd1 & s2 & Hld & Hge). apply load_Ok in Hld as [Hld ->].
  change (heap sB !! a) with (node_at sB (heap_addr a)) in Hld.
  rewrite HnB in Hld; inversion Hld; subst nd1; clear Hld.
  rewrite HpB in Hge.
  apply bind_Ok in Hge as (nd2 & s2 & Hld & Hge). apply load_Ok in Hld as [Hld ->].
  simpl in Hld. inversion Hld; subst nd2; clear Hld.
  rewrite Hroot, Hnone in Hge. unfold ret in Hge. inversion Hge; subst ent s1.
  apply bind_Ok in Hadj as (b & s2 & _ & Hadj).
  apply bind_Ok in Hadj as (u & s3 & Hsb & _).
  simpl in Hsb. discriminate.
Qed.

(** Two reads of the same address, up to unfolding of the store. *)
Ltac same_node H1 H2 :=
  match type of H1 with
  | _ = Some ?x =>
      match type of H2 with
      | _ = Some ?y =>
          let E := fresh "E" in
          assert (E : Some x = Some y)
            by (etransitivity; [symmetry; exact H1|exact H2]);
          inversion E; subst x; clear E H1
      end
  end.

Lemma adjustTree_unfold f n nn :
  adjustTree (S f) n nn =
  if ptr_eqb n root_addr then ret (n, nn)
  else
    (e <- getEntry n ;;
     b <- computeBoundingBox n ;;
     set_bb e b ;;;
     if ptr_eqb nn null then
       nd <- load n ;;
       adjustTree f (parent nd) null
     else
       bnn <- computeBoundingBox nn ;;
       let enn := mkEntry bnn nn None in
       nd <- load n ;;
       pn <- load (parent nd) ;;
       set_entries (parent nd) (entries pn ++ [enn]) ;;;
       pn' <- load (parent nd) ;;
       s <- get ;;
       if len (entries pn') >? MaxChildren (tree s) then
         lr <- split (parent nd) (MinChildren (tree s)) ;;
         adjustTree f (fst lr) (snd lr)
       else
         adjustTree f (parent nd) null)%M.
Proof. reflexivity. Qed.

(** [adjustTree] at a leaf on the heap whose parent is the root: the entry
    of the leaf gets the MBR of the leaf; a sibling gets an entry of its
    own at the end of the root, and the root is split when that makes it
    overflow. *)
Lemma adjustTree_heap_leaf f a nn s rs s' nd i :
  node_at s (heap_addr a) = Some nd -> parent nd = root_addr ->
  find_child (heap_addr a) (entries (root (tree s))) 0 = Some i ->
  adjustTree (S (S f)) (heap_addr a) nn s = Ok (rs, s') ->
  exists b ci,
    Geom.boundingBoxN (map bb (entries nd)) = Ok b /\
    entries (root (tree s)) !! i = Some ci /\
    let rt := root (tree s) in
    let res1 := <[i := mkEntry b (child ci) (obj ci)]> (entries rt) in
    (nn = null /\ rs = (root_addr, null) /\
     s' = set_node s root_addr (with_entries rt res1))
    \/
    (nn <> null /\
     exists ndn bnn,
       node_at (set_node s root_addr (with_entries rt res1)) nn = Some ndn /\
       Geom.boundingBoxN (map bb (entries ndn)) = Ok bnn /\
       let res2 := res1 ++ [mkEntry bnn nn None] in
       let s2 := set_node s root_addr (with_entries rt res2) in
       (len res2 <= MaxChildren (tree s) /\ rs = (root_addr, null) /\ s' = s2)
       \/
       (MaxChildren (tree s) < len res2 /\
        split root_addr (MinChildren (tree s)) s2 = Ok (rs, s'))).
Proof.
  intros Hn Hp Hfind H. rewrite adjustTree_unfold in H. cbn [ptr_eqb] in H.
  apply bind_Ok in H as (ent & s1 & Hge & H).
  unfold getEntry in Hge.
  apply bind_Ok in Hge as (nd1 & s2 & Hld & Hge). apply load_Ok in Hld as [Hld ->].
  same_node Hld Hn.
  rewrite Hp in Hge.
  apply bind_Ok in Hge as (nd2 & s2 & Hld & Hge). apply load_Ok in Hld as [Hld ->].
  simpl in Hld. inversion Hld; subst nd2; clear Hld.
  rewrite Hfind in Hge. unfold ret in Hge. inversion Hge; subst ent s1; clear Hge.
  apply bind_Ok in H as (b & s1 & Hb & H).
  apply computeBoundingBox_Ok in Hb as [-> (nd1 & Hn1 & Hb)].
  rewrite Hn in Hn1; inversion Hn1; subst nd1; clear Hn1.
  apply bind_Ok in H as ([] & sC & Hsb & H).
  unfold set_bb in Hsb.
  apply bind_Ok in Hsb as (nd2 & s2 & Hld & Hsb). apply load_Ok in Hld as [Hld ->].
  simpl in Hld. inversion Hld; subst nd2; clear Hld.
  apply bind_Ok in Hsb as (ci & s2 & Hci & Hsb). apply lift_Ok in Hci as [Hci ->].
  apply index_Ok in Hci.
  apply set_entries_Ok in Hsb as (nd2 & Hld & ->).
  simpl in Hld. inversion Hld; subst nd2; clear Hld.
  exists b, ci. split; [exact Hb|]. split; [exact Hci|]. cbv zeta.
  set (rt := root (tree s)) in *.
  set (res1 := <[i := mkEntry b (child ci) (obj ci)]> (entries rt)) in *.
  set (sC := set_node s root_addr (with_entries rt res1)) in *.
  destruct (ptr_eqb nn null) eqn:Enn.
  - apply ptr_eqb_eq in Enn. subst nn. left.
    apply bind_Ok in H as (nd1 & s1 & Hld & H). apply load_Ok in Hld as [Hld ->].
    same_node Hld Hn.
    rewrite Hp in H. apply adjustTree_root in H as [-> ->]. repeat split.
  - apply ptr_eqb_neq in Enn. right. split; [exact Enn|].
    apply bind_Ok in H as (bnn & s1 & Hbnn & H).
    apply computeBoundingBox_Ok in Hbnn as [-> (ndn & Hnn & Hbnn)].
    exists ndn, bnn. split; [exact Hnn|]. split; [exact Hbnn|]. cbv zeta.
    apply bind_Ok in H as (nd1 & s1 & Hld & H). apply load_Ok in Hld as [Hld ->].
    same_node Hld Hn.
    rewrite Hp in H.
    apply bind_Ok in H as (pn & s1 & Hld & H). apply load_Ok in Hld as [Hld ->].
    simpl in Hld. inversion Hld; subst pn; clear Hld.
    apply bind_Ok in H as ([] & sD & HD & H).
    apply set_entries_Ok in HD as (nd2 & Hld & ->).
    simpl in Hld. inversion Hld; subst nd2; clear Hld.
    apply bind_Ok in H as (pn' & s1 & Hld & H). apply load_Ok in Hld as [Hld ->].
    simpl in Hld. inversion Hld; subst pn'; clear Hld.
    apply bind_Ok in H as (s0 & s1 & Hg & H). apply get_Ok in Hg as [-> ->].
    simpl entries in H. simpl MaxChildren in H. simpl MinChildren in H.
    destruct (_ >? _) eqn:Eov in H.
    + apply Z.gtb_lt in Eov. right. split; [exact Eov|].
      apply bind_Ok in H as (lr & sE & Hsp & H).
      pose proof Hsp as Hsp'.
      eapply split_spec in Hsp' as (L & R & -> & _); [|reflexivity].
      apply adjustTree_root in H as [-> ->]. exact Hsp.
    + rewrite Z.gtb_ltb in Eov. apply Z.ltb_ge in Eov. left.
      apply adjustTree_root in H as [-> ->]. auto.
Qed.

Lemma heap_leaf_valid s x : heap_leaf s x -> is_Some (node_at s x) /\ x <> root_addr.
Proof. intros (a & nd & -> & Hn & _). split; [eauto|discriminate]. Qed.

(** Replacing the box of the entry of one leaf keeps the other entries of
    the root in order, given that no other leaf has changed. *)
Lemma updated_entries s t res i ci a b :
  Forall (leaf_below s) res -> NoDup (map child res) ->
  res !! i = Some ci -> child ci = heap_addr a ->
  MinChildren (tree t) = MinChildren (tree s) ->
  MaxChildren (tree t) = MaxChildren (tree s) ->
  (forall y, y <> root_addr -> y <> heap_addr a -> is_Some (node_at s y) ->
             node_at t y = node_at s y) ->
  heap_leaf t (heap_addr a) -> mbr t (heap_addr a) b ->
  Forall (leaf_below t) (<[i := mkEntry b (child ci) (obj ci)]> res).
Proof.
  intros Hall Hnd Hci Hc Emn Emx Hfr Hleaf Hmbr.
  apply Forall_lookup. intros j e' Hj.
  apply list_lookup_insert_Some in Hj as [(-> & <- & _)|(Hij & Hj)].
  - split; simpl; rewrite Hc; assumption.
  - rewrite Forall_lookup in Hall. pose proof (Hall j e' Hj) as Hb.
    assert (Hne : child e' <> heap_addr a).
    { intros E. apply Hij. eapply NoDup_lookup; [exact Hnd| |].
      - rewrite list_lookup_fmap, Hci. reflexivity.
      - rewrite list_lookup_fmap, Hj. simpl. congruence. }
    destruct (heap_leaf_valid _ _ (proj1 Hb)) as [Hv Hr].
    eapply leaf_below_ext; [|exact Emn|exact Emx|exact Hb].
    apply Hfr; auto.
Qed.

Lemma updated_children (res : list entry) i ci b :
  res !! i = Some ci ->
  map child (<[i := mkEntry b (child ci) (obj ci)]> res) = map child res.
Proof.
  intros Hci. rewrite list_fmap_insert. simpl. apply list_insert_id.
  rewrite list_lookup_fmap, Hci. reflexivity.
Qed.

Lemma children_valid s res k :
  Forall (leaf_below s) res -> node_at s (heap_addr k) = None ->
  heap_addr k ∉ map child res.
Proof.
  intros Hall Hk Hin. apply list_elem_of_fmap in Hin as (e & He & Hin).
  rewrite Forall_forall in Hall. destruct (Hall e Hin) as [Hl _].
  apply heap_leaf_valid in Hl as [[nd Hn] _]. congruence.
Qed.

Lemma leaf_below_transfer t t' es :
  Forall (leaf_below t) es ->
  (forall y, y <> root_addr -> is_Some (node_at t y) -> node_at t' y = node_at t y) ->
  MinChildren (tree t') = MinChildren (tree t) ->
  MaxChildren (tree t') = MaxChildren (tree t) ->
  Forall (leaf_below t') es.
Proof.
  intros Hall Hfr Emn Emx. eapply Forall_impl; [exact Hall|].
  intros e He. destruct (heap_leaf_valid _ _ (proj1 He)) as [Hv Hr].
  apply (leaf_below_ext t); auto.
Qed.

Lemma node_at_beyond t j :
  (length (heap t) <= j)%nat -> node_at t (heap_addr j) = None.
Proof. intros H. simpl. apply lookup_ge_None_2. exact H. Qed.

Lemma Insert_two_levels o s e s' :
  2 <= MinChildren (tree s) -> 2 * MinChildren (tree s) <= MaxChildren (tree s) ->
  leaf (root (tree s)) = false ->
  Forall (leaf_below s) (entries (root (tree s))) ->
  NoDup (map child (entries (root (tree s)))) ->
  len (entries (root (tree s))) <= MaxChildren (tree s) ->
  Insert o s = Ok (e, s') -> shape s'.
Proof.
  intros Hmin Hmax Hl Hall Hnd Hlen H. unfold Insert in H.
  apply bind_Ok in H as (s0 & s1 & Hg & H). apply get_Ok in Hg as [-> ->].
  apply bind_Ok in H as (leaf0 & s1 & Hc & H).
  apply chooseLeaf_descends in Hc as [-> Hc].
  apply descends_two_levels in Hc as (c & Hin & -> & Hleaf); auto.
  destruct Hleaf as (a & nd & Ea & Hn & Hp & Hlf & Hle & Hb).
  rewrite Ea in *.
  destruct (find_child_elem _ _ _ Hin Ea) as [i Hfind].
  destruct (find_child_Some _ _ _ _ Hfind) as (ci & _ & Hci & Hcia).
  rewrite Nat.sub_0_r in Hci.
  apply (append_heap_leaf o a s nd) in H
    as (ls & sB & H & Hcf & Hfr & Hcase); [|exact Hn].
  assert (Hroot : root (tree sB) = root (tree s)).
  { assert (E : node_at sB root_addr = node_at s root_addr)
      by (apply Hfr; discriminate).
    simpl in E. congruence. }
  apply conf_bounds in Hcf as [EmnB EmxB].
  apply bind_Ok in H as (s0 & s1 & Hg & H). apply get_Ok in Hg as [-> ->].
  apply bind_Ok in H as (rs & sX & Hadj & H).
  apply bind_Ok in H as ([] & sF & Hgrow & H).
  apply Insert_count_Ok in H as (Hnode & Hmn & Hmx).
  apply (shape_ext sF); auto. clear Hnode Hmn Hmx s' e.
  unfold budget in Hadj.
  set (new := mkEntry (Bounds o) null (Some o)) in *.
  destruct Hcase as [(Hov & L & R & -> & HL & HR & Hperm & Hcnt)
                    |(Hov & -> & HL & HR)]; cbn [fst snd] in Hadj.
  - eapply adjustTree_heap_leaf in Hadj
      as (b & ci' & Hbb & Hci' & Hadj); [|exact HL|exact Hp|rewrite Hroot; exact Hfind].
    rewrite Hroot in Hci', Hadj. rewrite Hci in Hci'. inversion Hci'; subst ci'; clear Hci'.
    cbv zeta in Hadj.
    destruct Hadj as [(Hnull & _)|(_ & ndn & bnn & Hnn & Hbnn & Hadj)]; [discriminate|].
    rewrite node_at_set_ne in Hnn by discriminate. same_node Hnn HR.
    assert (Hk : node_at s (heap_addr (length (heap s))) = None).
    { simpl. apply lookup_ge_None_2. lia. }
    assert (Hak : a <> length (heap s)).
    { apply node_at_valid in Hn. lia. }
    destruct (Hcnt (MaxChildren (tree s))) as [HcL HcR]; [lia|lia|lia|]. clear Hcnt.
    assert (HleA : Forall leaf_entry (entries nd ++ [new])).
    { apply Forall_app. split; [exact Hle|]. repeat constructor. apply leaf_entry_new. }
    destruct (Forall_app_perm _ _ _ _ Hperm HleA) as [HaL HaR].
    simpl entries in Hbb, Hbnn.
    set (rt := root (tree s)) in *.
    set (res1 := <[i := mkEntry b (child ci) (obj ci)]> (entries rt)) in *.
    set (enn := mkEntry bnn (heap_addr (length (heap s))) None) in *.
    set (s2 := set_node sB root_addr (with_entries rt (res1 ++ [enn]))) in *.
    assert (Hs2 : forall y, y <> root_addr -> node_at s2 y = node_at sB y).
    { intros y Hy. unfold s2. apply node_at_set_ne. congruence. }
    assert (Hall2 : Forall (leaf_below s2) (res1 ++ [enn])).
    { apply Forall_app. split.
      - apply (updated_entries s s2 _ _ _ a); auto.
        + intros y Hy1 Hy2 [ndy Hy3]. rewrite Hs2 by exact Hy1. apply Hfr; [exact Hy2|].
          intros E. rewrite E in Hy3. congruence.
        + exists a, (with_entries nd L). rewrite Hs2 by discriminate.
          change (MinChildren (tree s2)) with (MinChildren (tree sB)).
          change (MaxChildren (tree s2)) with (MaxChildren (tree sB)).
          rewrite EmnB, EmxB. simpl. repeat split; auto; lia.
        + exists (with_entries nd L). rewrite Hs2 by discriminate. auto.
      - apply Forall_singleton. split.
        + exists (length (heap s)), (with_entries nd R). simpl child.
          rewrite Hs2 by discriminate.
          change (MinChildren (tree s2)) with (MinChildren (tree sB)).
          change (MaxChildren (tree s2)) with (MaxChildren (tree sB)).
          rewrite EmnB, EmxB. simpl. repeat split; auto; lia.
        + exists (with_entries nd R). simpl child. rewrite Hs2 by discriminate. auto. }
    assert (Hnd2 : NoDup (map child (res1 ++ [enn]))).
    { rewrite map_app. unfold res1. rewrite updated_children by exact Hci.
      apply NoDup_app. split; [exact Hnd|]. split; [|repeat constructor; apply not_elem_of_nil].
      intros x Hx Hx'. apply list_elem_of_singleton in Hx'. subst x.
      apply (children_valid s (entries rt) (length (heap s)) Hall Hk). exact Hx. }
    assert (Hlen2 : len (res1 ++ [enn]) = len (entries rt) + 1).
    { rewrite len_app. unfold res1, len. rewrite length_insert. reflexivity. }
    rewrite EmnB, EmxB in Hadj.
    destruct Hadj as [(Hfit & -> & ->)|(Hover & Hsplit)];
      cbn [fst snd ptr_eqb negb] in Hgrow.
    + (* the root has room for the entry of the sibling *)
      unfold ret in Hgrow. inversion Hgrow; subst sF; clear Hgrow.
      apply two_levels; auto.
      change (MaxChildren (tree s2)) with (MaxChildren (tree sB)).
      rewrite EmxB. exact Hfit.
    + (* the root overflows and is split *)
      apply (split_spec _ _ _ _ _ (with_entries rt (res1 ++ [enn]))) in Hsplit
        as (L' & R' & -> & HL' & HR' & Hfr' & Hhp' & Hcf' & Hperm' & Hcnt');
        [|reflexivity].
      cbn [fst snd ptr_eqb negb] in Hgrow.
      eapply grow_root_Ok in Hgrow
        as (b1 & b2 & Hb1 & Hb2 & HrootF & HkF & HrF & HfrF & HcfF); [|exact HR'].
      simpl in HL'. inversion HL' as [HL'']. rewrite HL'' in *. clear HL'.
      simpl in Hb1, Hb2. simpl leaf in HkF, HrF. simpl entries in HkF, HrF.
      change (length (heap s2)) with (length (heap sB)) in *.
      change (conf s2) with (conf sB) in Hcf'.
      rewrite Hcf' in HcfF. apply conf_bounds in HcfF as [EmnF EmxF].
      rewrite EmnB in EmnF. rewrite EmxB in EmxF.
      simpl entries in Hperm', Hcnt'.
      destruct (Hcnt' (MaxChildren (tree s))) as [HcL' HcR']; [lia|lia|lia|].
      destruct (Forall_app_perm _ _ _ _ Hperm' Hall2) as [HaL' HaR'].
      assert (Htr : forall es, Forall (leaf_below s2) es -> Forall (leaf_below sF) es).
      { intros es Hes. apply (leaf_below_transfer s2); auto.
        - intros y Hy [ndy Hv].
          assert (Hy2 : y <> heap_addr (length (heap sB))).
          { intros ->. rewrite (node_at_beyond s2) in Hv; [discriminate|].
            change (heap s2) with (heap sB). lia. }
          assert (Hy3 : y <> heap_addr (length (heap sX))).
          { intros ->. rewrite (node_at_beyond s2) in Hv; [discriminate|].
            change (heap s2) with (heap sB). lia. }
          rewrite HfrF, Hfr'; auto.
        - rewrite EmnF. symmetry. exact EmnB.
        - rewrite EmxF. symmetry. exact EmxB. }
      apply three_levels; rewrite HrootF; [reflexivity|]. simpl entries.
      constructor; [|constructor; [|constructor]].
      * exists (length (heap sX)), (mkNode root_addr (leaf rt) L'). simpl.
        split; [reflexivity|]. split; [exact HkF|]. split; [exact Hl|].
        split; [rewrite EmnF, EmxF; exact HcL'|].
        split; [eexists; split; [exact HkF|exact Hb1]|apply Htr, HaL'].
      * exists (length (heap sB)), (mkNode root_addr (leaf rt) R'). simpl.
        split; [reflexivity|]. split; [exact HrF|]. split; [exact Hl|].
        split; [rewrite EmnF, EmxF; exact HcR'|].
        split; [eexists; split; [exact HrF|exact Hb2]|apply Htr, HaR'].
  - (* the leaf has room for the object *)
    eapply adjustTree_heap_leaf in Hadj
      as (b & ci' & Hbb & Hci' & Hadj); [|exact HL|exact Hp|rewrite Hroot; exact Hfind].
    rewrite Hroot in Hci', Hadj. rewrite Hci in Hci'. inversion Hci'; subst ci'; clear Hci'.
    cbv zeta in Hadj.
    destruct Hadj as [(_ & -> & ->)|(Hnull & _)]; [|congruence].
    cbn [fst snd ptr_eqb negb] in Hgrow.
    unfold ret in Hgrow. inversion Hgrow; subst sF; clear Hgrow.
    simpl entries in Hbb.
    set (rt := root (tree s)) in *.
    set (res1 := <[i := mkEntry b (child ci) (obj ci)]> (entries rt)) in *.
    set (s2 := set_node sB root_addr (with_entries rt res1)) in *.
    assert (Hs2 : forall y, y <> root_addr -> node_at s2 y = node_at sB y).
    { intros y Hy. unfold s2. apply node_at_set_ne. congruence. }
    apply two_levels.
    + exact Hl.
    + apply (updated_entries s s2 _ _ _ a); auto.
      * intros y Hy1 Hy2 [ndy Hy3]. rewrite Hs2 by exact Hy1. apply Hfr; [exact Hy2|].
        intros E. rewrite E in Hy3. rewrite node_at_beyond in Hy3 by lia. discriminate.
      * exists a, (with_entries nd (entries nd ++ [new])). rewrite Hs2 by discriminate.
        change (MinChildren (tree s2)) with (MinChildren (tree sB)).
        change (MaxChildren (tree s2)) with (MaxChildren (tree sB)).
        rewrite EmnB, EmxB. simpl. rewrite len_app.
        assert (len [new] = 1) by reflexivity.
        repeat split; auto; try lia.
        apply Forall_app. split; [exact Hle|]. apply Forall_singleton, leaf_entry_new.
      * exists (with_entries nd (entries nd ++ [new])). rewrite Hs2 by discriminate. auto.
    + simpl. fold rt. unfold res1. rewrite updated_children by exact Hci. exact Hnd.
    + simpl. rewrite EmxB. unfold res1, len. rewrite length_insert. exact Hlen.
Qed.

Lemma Insert_shape o s e s' :
  2 <= MinChildren (tree s) -> 2 * MinChildren (tree s) <= MaxChildren (tree s) ->
  shape s -> Insert o s = Ok (e, s') -> shape s'.
Proof.
  intros Hmin Hmax [Hl Hall Hlen|Hl Hall Hnd Hlen|Hl Hall] H.
  - eapply Insert_one_level; eauto.
  - eapply Insert_two_levels; eauto.
  - destruct (Insert_three_levels _ _ _ _ Hl Hall H).
Qed.

Lemma run_shape ops : forall s c s',
  2 <= MinChildren (tree s) -> 2 * MinChildren (tree s) <= MaxChildren (tree s) ->
  shape s -> run ops s = Ok (c, s') -> shape s'.
Proof.
  induction ops as [|[o|o] ops IH]; intros s c s' Hmin Hmax Hs H; simpl in H.
  - inv_step. exact Hs.
  - apply bind_Ok in H as (e & s1 & Hi & H).
    apply bind_Ok in H as (c1 & s2 & Hr & H). inv_step.
    pose proof (Insert_Ok _ _ _ _ Hi) as (_ & _ & _ & Emn & Emx).
    eapply IH; [| |eapply Insert_shape; eauto|exact Hr]; lia.
  - apply bind_Ok in H as (d & s1 & Hd & H).
    rewrite Delete_is_noop in Hd. inversion Hd; subst d s1.
    apply bind_Ok in H as (c1 & s2 & Hr & H). inv_step.
    eapply IH; eauto.
Qed.



(** ** What pickSeeds does return *)

Lemma pickSeeds_inner_spec e1 i : forall rest j st st',
  pickSeeds_inner e1 i rest j st = Ok st' ->
  (st' = st /\
   forall t e2, rest !! t = Some e2 ->
     exists d, wasted (bb e1) (bb e2) = Ok d /\ (fst st <? d)%float = false)
  \/
  (exists t e2, rest !! t = Some e2 /\ snd st' = (i, (j + t + i + 1)%nat) /\
     wasted (bb e1) (bb e2) = Ok (fst st')).
Proof.
  induction rest as [|e2 rest IH]; intros j st st' H; simpl in H.
  - inversion H; subst. left. split; [reflexivity|].
    intros t e2 Ht. rewrite lookup_nil in Ht. discriminate.
  - apply rbind_Ok in H as (u & Hu & H).
    set (d := (Geom.size u - Geom.size (bb e1) - Geom.size (bb e2))%float) in *.
    assert (Hw : wasted (bb e1) (bb e2) = Ok d).
    { unfold wasted. rewrite Hu. reflexivity. }
    apply IH in H as [[-> Hall]|(t & e2' & Ht & Hs & Hw')].
    + destruct (fst st <? d)%float eqn:E.
      * right. exists 0%nat, e2. simpl. rewrite Nat.add_0_r. auto.
      * left. split; [reflexivity|].
        intros [|t] e2' Ht; simpl in Ht.
        -- inversion Ht; subst e2'. exists d. auto.
        -- apply (Hall t), Ht.
    + right. exists (S t), e2'. simpl lookup. split; [exact Ht|].
      split; [rewrite Hs; do 2 f_equal; lia|exact Hw'].
Qed.

Lemma pickSeeds_outer_spec : forall es i st st',
  pickSeeds_outer es i st = Ok st' ->
  (st' = st /\
   forall a b e1 e2, (a < b)%nat -> es !! a = Some e1 -> es !! b = Some e2 ->
     exists d, wasted (bb e1) (bb e2) = Ok d /\ (fst st <? d)%float = false)
  \/
  (exists a b e1 e2, (a < b)%nat /\ es !! a = Some e1 /\ es !! b = Some e2 /\
     snd st' = ((i + a)%nat, (i + b)%nat) /\
     wasted (bb e1) (bb e2) = Ok (fst st')).
Proof.
  induction es as [|e1 rest IH]; intros i st st' H; simpl in H.
  - inversion H; subst. left. split; [reflexivity|].
    intros a b e1 e2 _ Ha. rewrite lookup_nil in Ha. discriminate.
  - apply rbind_Ok in H as (st1 & Hin & H).
    apply pickSeeds_inner_spec in Hin as Hres1.
    apply IH in H as [[-> Hall]|(a & b & x & y & Hab & Ha & Hb & Hs & Hw)].
    + destruct Hres1 as [[-> Hall1]|(t & y & Ht & Hs & Hw)].
      * left. split; [reflexivity|].
        intros [|a] [|b] x y Hab Ha Hb; simpl in Ha, Hb; try lia.
        -- inversion Ha; subst x. apply (Hall1 b y Hb).
        -- apply (Hall a b); auto. lia.
      * right. exists 0%nat, (S t), e1, y. simpl.
        split; [lia|]. split; [reflexivity|]. split; [exact Ht|].
        split; [rewrite Hs; f_equal; lia|exact Hw].
    + right. exists (S a), (S b), x, y. simpl.
      split; [lia|]. split; [exact Ha|]. split; [exact Hb|].
      split; [rewrite Hs; f_equal; lia|exact Hw].
Qed.

(** Whenever [pickSeeds] returns, either no pair of entries wastes more
    than -1, as float64 compares, and the result is (0, 0), or the result
    is a pair of distinct entries: the last pair that raised the running
    maximum. *)
Lemma pickSeeds_spec es l r :
  pickSeeds es = Ok (l, r) ->
  (l = 0%nat /\ r = 0%nat /\
   forall a b e1 e2, (a < b)%nat -> es !! a = Some e1 -> es !! b = Some e2 ->
     exists d, wasted (bb e1) (bb e2) = Ok d /\ (-1 <? d)%float = false)
  \/
  (exists e1 e2 m, (l < r)%nat /\ es !! l = Some e1 /\ es !! r = Some e2 /\
     wasted (bb e1) (bb e2) = Ok m).
Proof.
  unfold pickSeeds. intros H. apply rbind_Ok in H as (st & Hst & H).
  inversion H as [Hs]; clear H.
  apply pickSeeds_outer_spec in Hst
    as [[-> Hall]|(a & b & e1 & e2 & Hab & Ha & Hb & Hs' & Hw)].
  - left. inversion Hs; subst. auto.
  - right. rewrite Hs in Hs'. inversion Hs'; subst l r.
    exists e1, e2, (fst st). simpl. auto 10.
Qed.

(** ** The recursion budget is enough *)

Lemma bind_Stuck {A B} (m : M A) (f : A -> M B) (s : state) :
  bind m f s = Stuck ->
  m s = Stuck \/ exists a s1, m s = Ok (a, s1) /\ f a s1 = Stuck.
Proof.
  unfold bind. destruct (m s) as [[a s1]| |]; intros H; try discriminate; eauto.
Qed.

Lemma lift_Stuck {A} (r : res A) (s : state) : lift r s = Stuck -> r = Stuck.
Proof. destruct r; simpl; intros H; try discriminate; reflexivity. Qed.

Lemma boundingBox_not_stuck r1 r2 : Geom.boundingBox r1 r2 <> Stuck.
Proof. unfold Geom.boundingBox. destruct (Nat.eqb _ _); discriminate. Qed.

Lemma boundingBoxN_not_stuck rects : Geom.boundingBoxN rects <> Stuck.
Proof.
  destruct rects as [|r rs]; simpl; [discriminate|].
  assert (H : forall acc, acc <> Stuck ->
            foldl (fun acc r' => (a <- acc ;; Geom.boundingBox a r')%res) acc rs <> Stuck).
  { induction rs as [|r' rs IH]; intros acc Hacc; simpl; [exact Hacc|].
    apply IH. destruct acc; simpl; try congruence. apply boundingBox_not_stuck. }
  apply H. discriminate.
Qed.

Lemma chooseLeaf_loop_not_stuck o es : forall diff chosen,
  chooseLeaf_loop es o diff chosen <> Stuck.
Proof.
  induction es as [|e es IH]; intros diff chosen; simpl; [discriminate|].
  pose proof (boundingBox_not_stuck (bb e) (Bounds o)).
  destruct (Geom.boundingBox _ _); simpl; try congruence.
  repeat match goal with
         | |- (if ?b then _ else _) <> _ => destruct b
         | |- match ?c with Some _ => _ | None => _ end <> _ => destruct c
         end; auto; discriminate.
Qed.

Lemma pickSeeds_inner_not_stuck e1 i es : forall j st,
  pickSeeds_inner e1 i es j st <> Stuck.
Proof.
  induction es as [|e es IH]; intros j st; simpl; [discriminate|].
  pose proof (boundingBox_not_stuck (bb e1) (bb e)).
  destruct (Geom.boundingBox _ _); simpl; try congruence; try apply IH.
Qed.

Lemma pickSeeds_not_stuck es : pickSeeds es <> Stuck.
Proof.
  unfold pickSeeds.
  assert (H : forall i st, pickSeeds_outer es i st <> Stuck).
  { induction es as [|e es IH]; intros i st; simpl; [discriminate|].
    pose proof (pickSeeds_inner_not_stuck e i es 0 st).
    destruct (pickSeeds_inner _ _ _ _ _); simpl; try congruence; try apply IH. }
  specialize (H 0%nat ((-1)%float, (0%nat, 0%nat))).
  destruct (pickSeeds_outer _ _ _); simpl; congruence.
Qed.

Lemma pickNext_loop_not_stuck lb rb es : forall i st,
  pickNext_loop lb rb es i st <> Stuck.
Proof.
  induction es as [|e es IH]; intros i st; simpl; [discriminate|].
  pose proof (boundingBox_not_stuck lb (bb e)).
  destruct (Geom.boundingBox lb _); simpl; try congruence.
  pose proof (boundingBox_not_stuck rb (bb e)).
  destruct (Geom.boundingBox rb _); simpl; try congruence; try apply IH.
Qed.

Lemma index_not_stuck {A} (l : list A) i : index l i <> Stuck.
Proof. unfold index. destruct (l !! i); discriminate. Qed.

Lemma slice_not_stuck {A} (l : list A) lo hi : slice l lo hi <> Stuck.
Proof. unfold slice. destruct (_ && _)%bool; discriminate. Qed.

Lemma load_not_stuck x s : is_Some (node_at s x) -> load x s <> Stuck.
Proof. intros [nd H]. rewrite (load_eq _ _ _ H). discriminate. Qed.

Lemma store_not_stuck x n s : is_Some (node_at s x) -> store x n s <> Stuck.
Proof.
  intros [nd H]. unfold store. destruct x; [discriminate|rewrite H; discriminate..].
Qed.

Lemma set_entries_not_stuck x es s :
  is_Some (node_at s x) -> set_entries x es s <> Stuck.
Proof.
  intros [nd H]. unfold set_entries, bind. rewrite (load_eq _ _ _ H).
  apply store_not_stuck. eauto.
Qed.

Lemma set_parent_not_stuck x y s :
  is_Some (node_at s x) -> set_parent x y s <> Stuck.
Proof.
  intros [nd H]. unfold set_parent, bind. rewrite (load_eq _ _ _ H).
  apply store_not_stuck. eauto.
Qed.

Lemma computeBoundingBox_not_stuck x s :
  is_Some (node_at s x) -> computeBoundingBox x s <> Stuck.
Proof.
  intros [nd H]. unfold computeBoundingBox, bind. rewrite (load_eq _ _ _ H).
  intros E. apply lift_Stuck in E. exact (boundingBoxN_not_stuck _ E).
Qed.

Lemma assign_not_stuck e g s : is_Some (node_at s g) -> assign e g s <> Stuck.
Proof.
  intros [nd H]. unfold assign, bind. rewrite (load_eq _ _ _ H).
  apply set_entries_not_stuck. eauto.
Qed.

Lemma valid_set s x n y :
  is_Some (node_at s y) -> is_Some (node_at (set_node s x n) y).
Proof.
  intros Hy. destruct (decide (x = y)) as [->|Hne].
  - rewrite node_at_set_eq by exact Hy. eauto.
  - rewrite node_at_set_ne by exact Hne. exact Hy.
Qed.

Lemma valid_alloc s n y :
  is_Some (node_at s y) -> is_Some (node_at (mkState (tree s) (heap s ++ [n])) y).
Proof.
  intros Hy. rewrite node_at_alloc_ne; [exact Hy|].
  intros ->. destruct Hy as [nd Hy]. rewrite node_at_beyond in Hy by lia. discriminate.
Qed.

Lemma valid_root s : is_Some (node_at s root_addr).
Proof. simpl. eauto. Qed.

Create HintDb validdb.
#[local] Hint Resolve valid_set valid_alloc valid_root : validdb.

(** A statement on valid addresses is not where a run gets stuck. *)
Ltac refute_stuck H :=
  solve
    [ discriminate H
    | apply lift_Stuck in H;
      first [ exact (boundingBox_not_stuck _ _ H)
            | exact (boundingBoxN_not_stuck _ H)
            | exact (chooseLeaf_loop_not_stuck _ _ _ _ H)
            | exact (pickSeeds_not_stuck _ H)
            | exact (pickNext_loop_not_stuck _ _ _ _ _ H)
            | exact (index_not_stuck _ _ H)
            | exact (slice_not_stuck _ _ _ H)
            | discriminate H ]
    | first [ eapply load_not_stuck; [|exact H]
            | eapply store_not_stuck; [|exact H]
            | eapply set_entries_not_stuck; [|exact H]
            | eapply set_parent_not_stuck; [|exact H]
            | eapply computeBoundingBox_not_stuck; [|exact H]
            | eapply assign_not_stuck; [|exact H] ];
      eauto with validdb ].

(** Goes past the first statement of a run that got stuck: either that
    statement is refuted by [refute_stuck] or by [tac], or it returned and
    [H1] records it. *)
Tactic Notation "stuck_step" hyp(H) "as" ident(H1) "by" tactic3(tac) :=
  let a := fresh "a" in let s1 := fresh "s" in
  apply bind_Stuck in H; destruct H as [H|(a & s1 & H1 & H)];
  [exfalso; first [ refute_stuck H | solve [tac] ]|].

Tactic Notation "stuck_step" hyp(H) "as" ident(H1) :=
  stuck_step H as H1 by fail.

Lemma pickNext_not_stuck l r es s :
  is_Some (node_at s l) -> is_Some (node_at s r) -> pickNext l r es s <> Stuck.
Proof.
  intros Hl Hr H. unfold pickNext in H.
  stuck_step H as H1. apply computeBoundingBox_Ok in H1 as [-> _].
  stuck_step H as H1. apply computeBoundingBox_Ok in H1 as [-> _].
  stuck_step H as H1. discriminate H.
Qed.

Lemma assignGroup_not_stuck e l r s :
  is_Some (node_at s l) -> is_Some (node_at s r) -> assignGroup e l r s <> Stuck.
Proof.
  intros Hl Hr H. unfold assignGroup in H.
  stuck_step H as H1. apply computeBoundingBox_Ok in H1 as [-> _].
  stuck_step H as H1. apply computeBoundingBox_Ok in H1 as [-> _].
  stuck_step H as H1. apply lift_Ok in H1 as [_ ->].
  stuck_step H as H1. apply lift_Ok in H1 as [_ ->].
  cbv zeta in H.
  repeat match type of H with
         | (if ?b then _ else _) _ = _ => destruct b
         end; try refute_stuck H.
  stuck_step H as H1. apply load_Ok in H1 as [_ ->].
  stuck_step H as H1. apply load_Ok in H1 as [_ ->].
  destruct (_ <=? _) in H; refute_stuck H.
Qed.

Lemma split_loop_not_stuck m : forall fuel rem s l r,
  (length rem <= fuel)%nat ->
  is_Some (node_at s l) -> is_Some (node_at s r) ->
  split_loop fuel l r m rem s <> Stuck.
Proof.
  induction fuel as [|fuel IH]; intros rem s l r Hlen Hl Hr H;
    destruct rem as [|e0 rem0]; simpl in H; try discriminate.
  { simpl in Hlen. lia. }
  change (S (length rem0)) with (length (e0 :: rem0)) in H.
  remember (e0 :: rem0) as rem eqn:Erem.
  assert (Hlen' : (length rem <= S fuel)%nat) by (subst rem; exact Hlen).
  clear Erem Hlen e0 rem0.
  stuck_step H as H1 by (exact (pickNext_not_stuck _ _ _ _ Hl Hr H)).
  apply pickNext_Ok in H1 as ->.
  stuck_step H as He. apply lift_Ok in He as [He ->]. apply index_Ok in He.
  stuck_step H as H1. apply load_Ok in H1 as [_ ->].
  stuck_step H as H1. apply load_Ok in H1 as [_ ->].
  stuck_step H as Has by
    (repeat match type of H with
            | (if ?b then _ else _) _ = _ => destruct b
            end;
     first [ refute_stuck H | exact (assignGroup_not_stuck _ _ _ _ Hl Hr H) ]).
  match type of Has with
  | _ = Ok (?u, ?s') =>
      assert (Hvalid : is_Some (node_at s' l) /\ is_Some (node_at s' r));
      [ assert (Has' : exists e g, assign e g s = Ok (u, s'));
        [ repeat match type of Has with
                 | (if ?b then _ else _) _ = _ => destruct b
                 end;
          [ eauto | eauto
          | destruct u; apply assignGroup_Ok in Has as [?|?]; eauto ]
        | destruct Has' as (e' & g & Has');
          apply assign_Ok in Has' as (ndg & _ & ->);
          split; apply valid_set; assumption ]
      | ]
  end.
  destruct Hvalid as [Hl' Hr'].
  stuck_step H as Hb. apply lift_Ok in Hb as [Hb ->]. apply slice_prefix in Hb.
  stuck_step H as Ha. apply lift_Ok in Ha as [Ha ->]. apply slice_suffix in Ha.
  subst. revert H. apply IH; [|exact Hl'|exact Hr'].
  apply lookup_lt_Some in He.
  rewrite length_app, length_take, length_drop. lia.
Qed.

Lemma split_not_stuck n m s : is_Some (node_at s n) -> split n m s <> Stuck.
Proof.
  intros Hn H. unfold split in H.
  stuck_step H as H1. apply load_Ok in H1 as [Hld ->].
  stuck_step H as H1. apply lift_Ok in H1 as [_ ->]. cbv zeta in H.
  stuck_step H as H1. apply lift_Ok in H1 as [_ ->].
  stuck_step H as H1. apply lift_Ok in H1 as [_ ->].
  stuck_step H as H1. apply lift_Ok in H1 as [_ ->].
  stuck_step H as H1. apply lift_Ok in H1 as [_ ->].
  stuck_step H as H1. apply lift_Ok in H1 as [_ ->].
  stuck_step H as H1. apply set_entries_Ok in H1 as (nd' & _ & ->).
  stuck_step H as H1. apply alloc_Ok in H1 as [-> ->].
  stuck_step H as H1 by
    (revert H; apply split_loop_not_stuck;
     [lia|apply valid_alloc, valid_set; exact Hn|rewrite node_at_alloc_eq; eauto]).
  discriminate H.
Qed.

Lemma getEntry_Ok n s e s' :
  getEntry n s = Ok (e, s') ->
  s' = s /\
  (e = None \/ exists nd i, node_at s n = Some nd /\ e = Some (parent nd, i)).
Proof.
  unfold getEntry. intros H.
  apply bind_Ok in H as (nd & s1 & Hld & H). apply load_Ok in Hld as [Hn ->].
  apply bind_Ok in H as (pn & s1 & Hld & H). apply load_Ok in Hld as [_ ->].
  unfold ret in H. inversion H; subst. split; [reflexivity|].
  destruct (find_child _ _ _); eauto.
Qed.

Lemma set_bb_Ok e b s u s' :
  set_bb e b s = Ok (u, s') ->
  exists x i nd es, e = Some (x, i) /\ node_at s x = Some nd /\
    s' = set_node s x (with_entries nd es).
Proof.
  destruct e as [[x i]|]; simpl; intros H; [|discriminate].
  apply bind_Ok in H as (nd & s1 & Hld & H). apply load_Ok in Hld as [Hn ->].
  apply bind_Ok in H as (old & s1 & Ho & H). apply lift_Ok in Ho as [_ ->].
  apply set_entries_Ok in H as (nd' & Hn' & ->). same_node Hn' Hn. eauto 10.
Qed.

Lemma parent_set_entries s x nd es y ndy :
  node_at s x = Some nd -> node_at s y = Some ndy ->
  exists ndy', node_at (set_node s x (with_entries nd es)) y = Some ndy' /\
               parent ndy' = parent ndy.
Proof.
  intros Hx Hy. destruct (decide (x = y)) as [->|Hne].
  - rewrite node_at_set_eq by eauto. same_node Hy Hx. eauto.
  - rewrite node_at_set_ne by exact Hne. eauto.
Qed.

(** [adjustTree] at a leaf on the heap whose parent is the root needs two
    rounds. *)
Lemma adjustTree_heap_leaf_not_stuck f a nn s nd :
  node_at s (heap_addr a) = Some nd -> parent nd = root_addr ->
  nn = null \/ is_Some (node_at s nn) ->
  adjustTree (S (S f)) (heap_addr a) nn s <> Stuck.
Proof.
  intros Hn Hp Hnn H. rewrite adjustTree_unfold in H. cbn [ptr_eqb] in H.
  assert (Ha : is_Some (node_at s (heap_addr a))) by eauto.
  stuck_step H as Hge by
    (unfold getEntry in H;
     stuck_step H as H1; apply load_Ok in H1 as [Hld ->]; same_node Hld Hn;
     rewrite Hp in H; stuck_step H as H1; discriminate H).
  apply getEntry_Ok in Hge as [-> He].
  stuck_step H as H1. apply computeBoundingBox_Ok in H1 as [-> _].
  stuck_step H as Hsb by
    (destruct He as [->|(nd' & i & Hn' & ->)]; [discriminate H|];
     same_node Hn' Hn; rewrite Hp in H; unfold set_bb in H;
     stuck_step H as H1; apply load_Ok in H1 as [_ ->];
     stuck_step H as H1; apply lift_Ok in H1 as [_ ->];
     refute_stuck H).
  apply set_bb_Ok in Hsb as (x & i & ndx & es & _ & Hx & ->).
  destruct (parent_set_entries s x ndx es _ _ Hx Hn) as (ndC & HnC & HpC).
  rewrite Hp in HpC.
  set (sC := set_node s x (with_entries ndx es)) in *.
  destruct (ptr_eqb nn null) eqn:Enn.
  - stuck_step H as H1. apply load_Ok in H1 as [Hld ->]. same_node Hld HnC.
    rewrite HpC in H. discriminate H.
  - apply ptr_eqb_neq in Enn. destruct Hnn as [Hnn|Hnn]; [contradiction|].
    assert (HnnC : is_Some (node_at sC nn)) by (apply valid_set; exact Hnn).
    stuck_step H as H1. apply computeBoundingBox_Ok in H1 as [-> _]. cbv zeta in H.
    stuck_step H as H1. apply load_Ok in H1 as [Hld ->]. same_node Hld HnC.
    rewrite HpC in H.
    stuck_step H as H1. apply load_Ok in H1 as [_ ->].
    stuck_step H as H1. apply set_entries_Ok in H1 as (ndr & _ & ->).
    stuck_step H as H1. apply load_Ok in H1 as [_ ->].
    stuck_step H as H1. apply get_Ok in H1 as [-> ->].
    destruct (_ >? _) in H; [|discriminate H].
    stuck_step H as Hsp by
      (revert H; apply split_not_stuck; apply valid_root).
    eapply split_spec in Hsp as (L & R & E & _); [|reflexivity].
    match type of E with ?v = _ => subst v end. discriminate H.
Qed.

(** The body of [if splitRoot != nil] on valid addresses. *)
Lemma grow_root_not_stuck r s :
  is_Some (node_at s (heap_addr r)) ->
  (oldRootVal <- load root_addr ;;
   oldRoot <- alloc oldRootVal ;;
   b1 <- computeBoundingBox oldRoot ;;
   b2 <- computeBoundingBox (heap_addr r) ;;
   store root_addr
     (mkNode null false [mkEntry b1 oldRoot None; mkEntry b2 (heap_addr r) None]) ;;;
   set_parent oldRoot root_addr ;;;
   set_parent (heap_addr r) root_addr)%M s <> Stuck.
Proof.
  intros Hr H.
  stuck_step H as H1. apply load_Ok in H1 as [_ ->].
  stuck_step H as H1. apply alloc_Ok in H1 as [-> ->].
  stuck_step H as H1 by
    (revert H; apply computeBoundingBox_not_stuck; rewrite node_at_alloc_eq; eauto).
  apply computeBoundingBox_Ok in H1 as [-> _].
  stuck_step H as H1. apply computeBoundingBox_Ok in H1 as [-> _].
  stuck_step H as H1. apply store_Ok in H1 as [_ ->].
  stuck_step H as H1 by
    (revert H; apply set_parent_not_stuck, valid_set; rewrite node_at_alloc_eq; eauto).
  apply set_parent_Ok in H1 as (n1 & _ & ->).
  revert H. apply set_parent_not_stuck. auto with validdb.
Qed.

Lemma chooseLeaf_unfold f n o :
  chooseLeaf (S f) n o =
  (nd <- load n ;;
   if leaf nd then ret n
   else
     chosen <- lift (chooseLeaf_loop (entries nd) o MaxFloat64 None) ;;
     chooseLeaf f (chosen_child chosen) o)%M.
Proof. reflexivity. Qed.

(** The descent does not run out of budget on a tree of [h] levels. *)
Lemma chooseLeaf_not_stuck o s : forall h fuel n,
  levels s h n -> (h <= fuel)%nat -> chooseLeaf fuel n o s <> Stuck.
Proof.
  induction h as [|h IH]; intros fuel n Hlv Hf H; simpl in Hlv; [contradiction|].
  destruct Hlv as (nd & Hn & Hlv).
  destruct fuel as [|fuel]; [lia|]. rewrite chooseLeaf_unfold in H.
  stuck_step H as H1. apply load_Ok in H1 as [Hld ->]. same_node Hld Hn.
  destruct (leaf nd); [discriminate H|]. destruct Hlv as [Hh Hall].
  stuck_step H as Hc. apply lift_Ok in Hc as [Hc ->].
  match type of H with
  | chooseLeaf _ (chosen_child ?x) _ _ = _ => destruct x as [c|]
  end; simpl in H.
  - apply chooseLeaf_loop_elem in Hc as [Hc|(c' & Hc & Hin)]; [discriminate|].
    inversion Hc; subst c'.
    rewrite Forall_forall in Hall. revert H. apply (IH fuel (child c)); [auto|lia].
  - destruct fuel as [|fuel]; [lia|]. discriminate H.
Qed.

Lemma heap_leaf_levels s x : heap_leaf s x -> levels s 1 x.
Proof.
  intros (a & nd & -> & Hn & _ & Hl & _). simpl. exists nd.
  split; [exact Hn|]. rewrite Hl. reflexivity.
Qed.

Lemma shape_levels s :
  shape s -> exists h, levels s h root_addr /\ (h <= budget s)%nat.
Proof.
  intros [Hl Hall Hlen|Hl Hall Hnd Hlen|Hl Hall].
  - exists 1%nat. split; [|unfold budget; lia]. simpl. eexists.
    split; [reflexivity|]. rewrite Hl. reflexivity.
  - exists 2%nat. split; [|unfold budget; lia]. simpl. eexists.
    split; [reflexivity|]. rewrite Hl. split; [discriminate|].
    eapply Forall_impl; [exact Hall|]. intros e [He _].
    apply heap_leaf_levels in He. exact He.
  - destruct (entries (root (tree s))) as [|e0 es0] eqn:Ees.
    + exists 2%nat. split; [|unfold budget; lia]. simpl. eexists.
      split; [reflexivity|]. rewrite Hl, Ees. split; [discriminate|constructor].
    + exists 3%nat. split.
      * cbn [levels]. eexists. split; [reflexivity|]. rewrite Hl.
        split; [discriminate|]. rewrite Ees.
        eapply Forall_impl; [exact Hall|].
        intros e (a & nd & Hc & Hn & Hlf & _ & _ & Hin). exists nd.
        split; [exact Hn|]. rewrite Hlf. split; [discriminate|].
        eapply Forall_impl; [exact Hin|]. intros e' [He' _].
        apply heap_leaf_levels in He'. exact He'.
      * apply Forall_cons in Hall as [(a & nd & Hc & Hn & _) _].
        rewrite Hc in Hn. apply node_at_valid in Hn. unfold budget. lia.
Qed.

Lemma append_heap_leaf_stuck {A} o a s nd (K : ptr * ptr -> M A) :
  node_at s (heap_addr a) = Some nd ->
  (ln <- load (heap_addr a) ;;
   set_entries (heap_addr a)
     (entries ln ++ [mkEntry (Bounds o) null (Some o)]) ;;;
   ln' <- load (heap_addr a) ;;
   s1 <- get ;;
   ls <- (if len (entries ln') >? MaxChildren (tree s1)
          then split (heap_addr a) (MinChildren (tree s1))
          else ret (heap_addr a, null)) ;;
   K ls)%M s = Stuck ->
  exists nn sB ndB,
    K (heap_addr a, nn) sB = Stuck /\
    root (tree sB) = root (tree s) /\
    node_at sB (heap_addr a) = Some ndB /\ parent ndB = parent nd /\
    (nn = null \/ is_Some (node_at sB nn)).
Proof.
  intros Hn H.
  assert (Ha : is_Some (node_at s (heap_addr a))) by eauto.
  stuck_step H as H1. apply load_Ok in H1 as [Hld ->]. same_node Hld Hn.
  stuck_step H as H1. apply set_entries_Ok in H1 as (nd' & Hld & ->). same_node Hld Hn.
  set (ndA := with_entries nd (entries nd ++ [mkEntry (Bounds o) null (Some o)])) in *.
  set (sA := set_node s (heap_addr a) ndA) in *.
  assert (HnA : node_at sA (heap_addr a) = Some ndA).
  { apply node_at_set_eq. exact Ha. }
  stuck_step H as H1. apply load_Ok in H1 as [Hld ->]. same_node Hld HnA.
  stuck_step H as H1. apply get_Ok in H1 as [-> ->].
  stuck_step H as Hif by
    (destruct (_ >? _) in H;
     [revert H; apply split_not_stuck; eauto|discriminate H]).
  destruct (_ >? _) in Hif.
  - apply (split_spec _ _ _ _ _ ndA) in Hif
      as (L & R & E & HL & HR & Hfr & _); [|exact HnA].
    match type of E with ?v = _ => subst v end.
    exists (heap_addr (length (heap sA))). do 2 eexists.
    split; [exact H|]. split.
    { assert (Er : node_at s0 root_addr = node_at sA root_addr)
        by (apply Hfr; discriminate).
      simpl in Er. inversion Er. reflexivity. }
    split; [exact HL|]. split; [reflexivity|]. right. eauto.
  - unfold ret in Hif. inversion Hif; subst. exists null, sA, ndA.
    split; [exact H|]. split; [reflexivity|]. split; [exact HnA|]. auto.
Qed.

(** Without an entry for the leaf in the root, [adjustTree] does not
    return. *)
Lemma adjustTree_no_entry f a nn s nd rs s' :
  node_at s (heap_addr a) = Some nd -> parent nd = root_addr ->
  find_child (heap_addr a) (entries (root (tree s))) 0 = None ->
  adjustTree (S f) (heap_addr a) nn s = Ok (rs, s') -> False.
Proof.
  intros Hn Hp Hnone H. rewrite adjustTree_unfold in H. cbn [ptr_eqb] in H.
  apply bind_Ok in H as (ent & s1 & Hge & H).
  unfold getEntry in Hge.
  apply bind_Ok in Hge as (nd1 & s2 & Hld & Hge). apply load_Ok in Hld as [Hld ->].
  same_node Hld Hn. rewrite Hp in Hge.
  apply bind_Ok in Hge as (nd2 & s2 & Hld & Hge). apply load_Ok in Hld as [Hld ->].
  simpl in Hld. inversion Hld; subst nd2; clear Hld.
  rewrite Hnone in Hge. unfold ret in Hge. inversion Hge; subst ent s1.
  apply bind_Ok in H as (b & s2 & _ & H).
  apply bind_Ok in H as (u & s3 & Hsb & _).
  simpl in Hsb. discriminate.
Qed.

Lemma count_not_stuck s :
  (s3 <- get ;;
   put (mkState (mkRtree (Dim (tree s3)) (MinChildren (tree s3))
                         (MaxChildren (tree s3)) (root (tree s3))
                         (wrap64 (size (tree s3) + 1)))
                (heap s3)) ;;;
   ret (@None error))%M s <> Stuck.
Proof. discriminate. Qed.

(** On the stores that successful insertions produce, the recursion
    budget suffices and every address used is in the store: [Insert]
    either returns or panics. *)
Lemma Insert_not_stuck o s : shape s -> Insert o s <> Stuck.
Proof.
  intros Hs H. unfold Insert in H.
  stuck_step H as H1. apply get_Ok in H1 as [-> ->].
  stuck_step H as Hc by
    (destruct (shape_levels _ Hs) as (h & Hlv & Hh);
     exact (chooseLeaf_not_stuck o s h _ _ Hlv Hh H)).
  apply chooseLeaf_descends in Hc as [-> Hc].
  destruct Hs as [Hl Hall Hlen|Hl Hall Hnd Hlen|Hl Hall].
  - (* one level *)
    apply descends_root_leaf in Hc; [|exact Hl].
    match type of Hc with ?v = _ => subst v end.
    stuck_step H as H1. apply load_Ok in H1 as [_ ->].
    stuck_step H as H1. apply set_entries_Ok in H1 as (nd' & _ & ->).
    stuck_step H as H1. apply load_Ok in H1 as [Hld ->].
    stuck_step H as H1. apply get_Ok in H1 as [-> ->].
    stuck_step H as Hif by
      (destruct (_ >? _) in H;
       [revert H; apply split_not_stuck, valid_root|discriminate H]).
    stuck_step H as H1. apply get_Ok in H1 as [-> ->].
    destruct (_ >? _) in Hif.
    + eapply split_spec in Hif as (L & R & E & _ & HR & _); [|exact Hld].
      match type of E with ?v = _ => subst v end.
      cbn [fst snd] in H. unfold budget in H.
      stuck_step H as Hadj. apply adjustTree_root in Hadj as [-> ->].
      cbn [fst snd ptr_eqb negb] in H.
      stuck_step H as Hg by (revert H; apply grow_root_not_stuck; eauto).
      exact (count_not_stuck _ H).
    + unfold ret in Hif. inversion Hif; subst.
      cbn [fst snd] in H. unfold budget in H.
      stuck_step H as Hadj. apply adjustTree_root in Hadj as [-> ->].
      cbn [fst snd ptr_eqb negb] in H.
      stuck_step H as Hg. exact (count_not_stuck _ H).
  - (* two levels *)
    apply descends_two_levels in Hc as (c & Hin & Ec & Hleaf); auto.
    match type of Ec with ?v = _ => subst v end.
    destruct Hleaf as (la & nd & Ea & Hn & Hp & _).
    rewrite Ea in *.
    destruct (find_child_elem _ _ _ Hin Ea) as [i Hfind].
    pose proof (append_heap_leaf_stuck o la s nd _ Hn H)
      as (nn & sB & ndB & HK & Hroot & HnB & HpB & Hnn).
    clear H. rename HK into H.
    rewrite Hp in HpB.
    stuck_step H as H1. apply get_Ok in H1 as [-> ->].
    cbn [fst snd] in H. unfold budget in H.
    stuck_step H as Hadj by
      (exact (adjustTree_heap_leaf_not_stuck _ _ _ _ _ HnB HpB Hnn H)).
    eapply adjustTree_heap_leaf in Hadj as (b & ci & _ & _ & Hadj);
      [|exact HnB|exact HpB|rewrite Hroot; exact Hfind].
    cbv zeta in Hadj.
    destruct Hadj as [(_ & -> & _)
                     |(_ & ndn & bnn & _ & _ & [(_ & -> & _)|(_ & Hsp)])].
    + cbn [fst snd ptr_eqb negb] in H.
      stuck_step H as Hg. exact (count_not_stuck _ H).
    + cbn [fst snd ptr_eqb negb] in H.
      stuck_step H as Hg. exact (count_not_stuck _ H).
    + eapply split_spec in Hsp as (L & R & E & _ & HR & _); [|reflexivity].
      match type of E with ?v = _ => subst v end.
      cbn [fst snd ptr_eqb negb] in H.
      stuck_step H as Hg by (revert H; apply grow_root_not_stuck; eauto).
      exact (count_not_stuck _ H).
  - (* three levels *)
    apply descends_three_levels in Hc as (la & nd & Ea & Hn & Hp & Hlf & _); auto.
    match type of Ea with ?v = _ => subst v end.
    assert (Hnone : find_child (heap_addr la) (entries (root (tree s))) 0 = None).
    { apply find_child_None. eapply Forall_impl; [exact Hall|].
      intros c (a' & nd' & Hc' & Hn' & Hl' & _) E. rewrite E in Hn'. congruence. }
    pose proof (append_heap_leaf_stuck o la s nd _ Hn H)
      as (nn & sB & ndB & HK & Hroot & HnB & HpB & Hnn).
    clear H. rename HK into H.
    rewrite Hp in HpB.
    stuck_step H as H1. apply get_Ok in H1 as [-> ->].
    cbn [fst snd] in H. unfold budget in H.
    stuck_step H as Hadj by
      (exact (adjustTree_heap_leaf_not_stuck _ _ _ _ _ HnB HpB Hnn H)).
    eapply adjustTree_no_entry in Hadj; [exact Hadj|exact HnB|exact HpB|].
    rewrite Hroot. exact Hnone.
Qed.

Lemma run_not_stuck ops : forall s,
  2 <= MinChildren (tree s) -> 2 * MinChildren (tree s) <= MaxChildren (tree s) ->
  shape s -> run ops s <> Stuck.
Proof.
  induction ops as [|[o|o] ops IH]; intros s Hmin Hmax Hs H; simpl in H.
  - discriminate H.
  - stuck_step H as Hi by (exact (Insert_not_stuck o s Hs H)).
    stuck_step H as Hr by
      (pose proof (Insert_Ok _ _ _ _ Hi) as (_ & _ & _ & Emn & Emx);
       revert H; apply IH; [lia|lia|eapply Insert_shape; eauto]).
    discriminate H.
  - stuck_step H as Hd. rewrite Delete_is_noop in Hd. inversion Hd; subst.
    stuck_step H as Hr by (revert H; apply IH; assumption).
    discriminate H.
Qed.

(** X7: on a new tree with 2 <= MinChildren <= MaxChildren/2, a run of
    calls either returns or ends in a panic of the program: the
    recursions of [chooseLeaf] and [adjustTree] through child and parent
    pointers come to an end, and the recursion budget of the embedding
    never decides the outcome. *)
Lemma run_returns_or_panics (d m mx : Z) (ops : list op) :
  2 <= m <= mx / 2 -> run ops (NewTree d m mx) <> Stuck.
Proof.
  intros [Hm Hmx].
  assert (2 * m <= mx).
  { pose proof (Z.mul_div_le mx 2 ltac:(lia)). lia. }
  apply run_not_stuck; simpl; [lia|lia|apply shape_NewTree; lia].
Qed.

Lemma run_returns_or_panics_witness :
  run (map OpInsert thirteen_points ++ [OpInsert (mkSpatial 13 (pt 30 31))])
      (NewTree 2 2 4) <> Stuck.
Proof.
  apply (run_returns_or_panics 2 2 4). vm_compute. split; discriminate.
Defined.

(** Every [Insert] into a tree of three levels panics. *)
Lemma Insert_three_levels_panics o s :
  leaf (root (tree s)) = false ->
  Forall (inner_below s) (entries (root (tree s))) ->
  exists k, Insert o s = Panic k.
Proof.
  intros Hl Hall. destruct (Insert o s) as [[e s']|k|] eqn:E.
  - destruct (Insert_three_levels _ _ _ _ Hl Hall E).
  - eauto.
  - destruct (Insert_not_stuck o s (three_levels s Hl Hall) E).
Qed.

(** ** split returns on boxes of one dimension with a wasteful pair *)

Lemma boundingBox_dim d r1 r2 :
  Geom.dim r1 = d -> Geom.dim r2 = d ->
  exists u, Geom.boundingBox r1 r2 = Ok u /\ Geom.dim u = d.
Proof.
  intros H1 H2. unfold Geom.boundingBox. rewrite H1, H2, Nat.eqb_refl.
  eexists. split; [reflexivity|]. unfold Geom.dim in *. simpl.
  rewrite length_zip_with. lia.
Qed.

Lemma boundingBoxN_dim d rs :
  rs <> [] -> Forall (fun r => Geom.dim r = d) rs ->
  exists u, Geom.boundingBoxN rs = Ok u /\ Geom.dim u = d.
Proof.
  destruct rs as [|r rs]; [congruence|]. intros _ Hall.
  apply Forall_cons in Hall as [Hr Hall]. simpl.
  revert r Hr. induction rs as [|r' rs IH]; intros r Hr; simpl; [eauto|].
  apply Forall_cons in Hall as [Hr' Hall].
  destruct (boundingBox_dim d r r' Hr Hr') as (u & Hu & Hd).
  rewrite Hu. apply IH; assumption.
Qed.

Lemma pickSeeds_inner_Ok d e1 i es : forall j st,
  Geom.dim (bb e1) = d -> same_dim d es ->
  exists st', pickSeeds_inner e1 i es j st = Ok st'.
Proof.
  induction es as [|e es IH]; intros j st H1 Hall; simpl; [eauto|].
  apply Forall_cons in Hall as [He Hall].
  destruct (boundingBox_dim d _ _ H1 He) as (u & Hu & _). rewrite Hu. simpl.
  apply IH; assumption.
Qed.

Lemma pickSeeds_Ok d es : same_dim d es -> exists lr, pickSeeds es = Ok lr.
Proof.
  intros Hall. unfold pickSeeds.
  assert (H : forall i st, exists st', pickSeeds_outer es i st = Ok st').
  { induction es as [|e es IH]; intros i st; simpl; [eauto|].
    apply Forall_cons in Hall as [He Hall].
    destruct (pickSeeds_inner_Ok d e i es 0 st He Hall) as [st1 H1].
    rewrite H1. simpl. apply IH, Hall. }
  destruct (H 0%nat ((-1)%float, (0%nat, 0%nat))) as [st' Hst]. rewrite Hst. simpl. eauto.
Qed.

Lemma pickNext_loop_range lb rb es : forall i st st',
  pickNext_loop lb rb es i st = Ok st' ->
  st' = st \/ (i <= snd st' < i + length es)%nat.
Proof.
  induction es as [|e es IH]; intros i st st' H; simpl in H.
  - inversion H. auto.
  - apply rbind_Ok in H as (u1 & _ & H). apply rbind_Ok in H as (u2 & _ & H).
    apply IH in H as [->|H]; [|right; simpl; lia].
    destruct (_ <? _)%float; [right; simpl; lia|left; reflexivity].
Qed.

Lemma pickNext_loop_Ok d lb rb es : forall i st,
  Geom.dim lb = d -> Geom.dim rb = d -> same_dim d es ->
  exists st', pickNext_loop lb rb es i st = Ok st'.
Proof.
  induction es as [|e es IH]; intros i st Hl Hr Hall; simpl.
  - eexists. reflexivity.
  - apply Forall_cons in Hall as [He Hall].
    destruct (boundingBox_dim d _ _ Hl He) as (u1 & Hu1 & _). rewrite Hu1. simpl.
    destruct (boundingBox_dim d _ _ Hr He) as (u2 & Hu2 & _). rewrite Hu2. simpl.
    apply IH; assumption.
Qed.

Lemma bind_eq {A B} (m : M A) (f : A -> M B) s a s1 :
  m s = Ok (a, s1) -> bind m f s = f a s1.
Proof. intros H. unfold bind. rewrite H. reflexivity. Qed.

Lemma lift_eq {A} (r : res A) (a : A) s : r = Ok a -> lift r s = Ok (a, s).
Proof. intros ->. reflexivity. Qed.

Lemma computeBoundingBox_filled s d x :
  filled s d x ->
  exists b, computeBoundingBox x s = Ok (b, s) /\ Geom.dim b = d.
Proof.
  intros (nd & Hn & Hne & Hall).
  destruct (boundingBoxN_dim d (map bb (entries nd))) as (b & Hb & Hd).
  - destruct (entries nd); [congruence|discriminate].
  - apply Forall_fmap. exact Hall.
  - exists b. split; [|exact Hd]. eapply computeBoundingBox_eq; eauto.
Qed.

Lemma pickNext_filled s d l r es :
  filled s d l -> filled s d r -> same_dim d es -> es <> [] ->
  exists i, pickNext l r es s = Ok (i, s) /\ (i < length es)%nat.
Proof.
  intros Hl Hr Hall Hne. unfold pickNext.
  destruct (computeBoundingBox_filled _ _ _ Hl) as (lb & Hlb & Hld).
  destruct (computeBoundingBox_filled _ _ _ Hr) as (rb & Hrb & Hrd).
  rewrite (bind_eq _ _ _ _ _ Hlb), (bind_eq _ _ _ _ _ Hrb).
  destruct (pickNext_loop_Ok d lb rb es 0 ((-1)%float, 0%nat) Hld Hrd Hall)
    as (st' & Hst).
  rewrite (bind_eq _ _ _ _ _ (lift_eq _ _ s Hst)).
  exists (snd st'). split; [reflexivity|].
  apply pickNext_loop_range in Hst as [->|Hst]; [|lia].
  simpl. destruct es; [congruence|simpl; lia].
Qed.

Lemma assign_eq e g s nd :
  node_at s g = Some nd ->
  assign e g s = Ok (tt, set_node s g (with_entries nd (entries nd ++ [e]))).
Proof.
  intros Hn. unfold assign, set_entries.
  rewrite (bind_eq _ _ _ _ _ (load_eq _ _ _ Hn)).
  rewrite (bind_eq _ _ _ _ _ (load_eq _ _ _ Hn)).
  unfold store. destruct g; [discriminate|rewrite Hn; reflexivity..].
Qed.

Lemma filled_after_assign s d e g nd y :
  node_at s g = Some nd -> Geom.dim (bb e) = d -> filled s d y ->
  filled (set_node s g (with_entries nd (entries nd ++ [e]))) d y.
Proof.
  intros Hn He (ndy & Hy & Hne & Hall).
  destruct (decide (g = y)) as [->|Hgy].
  - same_node Hy Hn. eexists. rewrite node_at_set_eq by eauto.
    split; [reflexivity|]. simpl. split.
    + destruct (entries nd); discriminate.
    + apply Forall_app. split; [exact Hall|]. apply Forall_singleton, He.
  - exists ndy. rewrite node_at_set_ne by exact Hgy. auto.
Qed.

Lemma assignGroup_filled s d e l r :
  filled s d l -> filled s d r -> Geom.dim (bb e) = d ->
  exists g nd, (g = l \/ g = r) /\ node_at s g = Some nd /\
    assignGroup e l r s =
      Ok (tt, set_node s g (with_entries nd (entries nd ++ [e]))).
Proof.
  intros Hl Hr He. unfold assignGroup.
  destruct (computeBoundingBox_filled _ _ _ Hl) as (lb & Hlb & Hld).
  destruct (computeBoundingBox_filled _ _ _ Hr) as (rb & Hrb & Hrd).
  rewrite (bind_eq _ _ _ _ _ Hlb), (bind_eq _ _ _ _ _ Hrb).
  destruct (boundingBox_dim d _ _ Hld He) as (u1 & Hu1 & _).
  destruct (boundingBox_dim d _ _ Hrd He) as (u2 & Hu2 & _).
  rewrite (bind_eq _ _ _ _ _ (lift_eq _ _ s Hu1)).
  rewrite (bind_eq _ _ _ _ _ (lift_eq _ _ s Hu2)).
  destruct Hl as (ndl & Hnl & _). destruct Hr as (ndr & Hnr & _).
  cbv zeta.
  repeat match goal with
         | |- context [if ?b then _ else _] => destruct b
         end;
    try (exists l, ndl; split; [auto|]; split; [exact Hnl|]; apply assign_eq, Hnl);
    try (exists r, ndr; split; [auto|]; split; [exact Hnr|]; apply assign_eq, Hnr).
  all: rewrite (bind_eq _ _ _ _ _ (load_eq _ _ _ Hnl));
       rewrite (bind_eq _ _ _ _ _ (load_eq _ _ _ Hnr)).
  all: destruct (_ <=? _);
    [exists l, ndl; split; [auto|]; split; [exact Hnl|]; apply assign_eq, Hnl
    |exists r, ndr; split; [auto|]; split; [exact Hnr|]; apply assign_eq, Hnr].
Qed.

Lemma slice_eq {A} (l : list A) lo hi :
  (lo <= hi <= length l)%nat -> slice l lo hi = Ok (take (hi - lo) (drop lo l)).
Proof.
  intros [H1 H2]. unfold slice.
  apply Nat.leb_le in H1, H2. rewrite H1, H2. reflexivity.
Qed.

Lemma index_eq {A} (l : list A) i a : l !! i = Some a -> index l i = Ok a.
Proof. intros H. unfold index. rewrite H. reflexivity. Qed.

Lemma same_dim_remove d (rem : list entry) next :
  same_dim d rem -> same_dim d (take next rem ++ drop (S next) rem).
Proof.
  intros H. apply Forall_app. split; [apply Forall_take|apply Forall_drop]; exact H.
Qed.

Lemma split_loop_Ok d m l r : forall fuel rem s,
  (length rem <= fuel)%nat ->
  filled s d l -> filled s d r -> same_dim d rem ->
  exists s', split_loop fuel l r m rem s = Ok (tt, s').
Proof.
  induction fuel as [|fuel IH]; intros rem s Hlen Hl Hr Hall;
    destruct rem as [|e0 rem0]; simpl; eauto.
  { simpl in Hlen. lia. }
  change (S (length rem0)) with (length (e0 :: rem0)).
  remember (e0 :: rem0) as rem eqn:Erem.
  assert (Hne : rem <> []) by (subst rem; discriminate).
  assert (Hlen' : (length rem <= S fuel)%nat) by (subst rem; exact Hlen).
  clear Erem Hlen e0 rem0.
  destruct (pickNext_filled s d l r rem Hl Hr Hall Hne) as (next & Hnext & Hlt).
  rewrite (bind_eq _ _ _ _ _ Hnext).
  destruct (lookup_lt_is_Some_2 rem next Hlt) as [e He].
  rewrite (bind_eq _ _ _ _ _ (lift_eq _ _ s (index_eq _ _ _ He))).
  assert (Hde : Geom.dim (bb e) = d).
  { unfold same_dim in Hall. rewrite Forall_lookup in Hall. eapply Hall, He. }
  pose proof Hl as (ndl & Hnl & _). pose proof Hr as (ndr & Hnr & _).
  rewrite (bind_eq _ _ _ _ _ (load_eq _ _ _ Hnl)).
  rewrite (bind_eq _ _ _ _ _ (load_eq _ _ _ Hnr)).
  assert (Hstep : exists g nd, node_at s g = Some nd /\
    (if len rem + len (entries ndl) <=? m then assign e l
     else if len rem + len (entries ndr) <=? m then assign e r
     else assignGroup e l r) s =
    Ok (tt, set_node s g (with_entries nd (entries nd ++ [e])))).
  { destruct (_ <=? m); [|destruct (_ <=? m)].
    - exists l, ndl. split; [exact Hnl|]. apply assign_eq, Hnl.
    - exists r, ndr. split; [exact Hnr|]. apply assign_eq, Hnr.
    - destruct (assignGroup_filled s d e l r Hl Hr Hde) as (g & nd & _ & Hg & Has).
      eauto. }
  destruct Hstep as (g & nd & Hg & Hstep).
  rewrite (bind_eq _ _ _ _ _ Hstep).
  rewrite (bind_eq _ _ _ _ _ (lift_eq _ _ _ (slice_eq rem 0 next ltac:(lia)))).
  rewrite (bind_eq _ _ _ _ _
             (lift_eq _ _ _ (slice_eq rem (S next) (length rem) ltac:(lia)))).
  assert (E1 : take (next - 0) (drop 0 rem) = take next rem)
    by (rewrite Nat.sub_0_r; reflexivity).
  assert (E2 : take (length rem - S next) (drop (S next) rem) = drop (S next) rem)
    by (apply take_ge; rewrite length_drop; lia).
  rewrite E1, E2.
  apply IH.
  - rewrite length_app, length_take, length_drop. lia.
  - apply filled_after_assign; assumption.
  - apply filled_after_assign; assumption.
  - apply same_dim_remove, Hall.
Qed.

(** On a node whose boxes all have one dimension and among which some pair
    wastes more than -1, as float64 compares, [split] returns. *)
Lemma split_Ok d n m s nd :
  node_at s n = Some nd -> same_dim d (entries nd) ->
  (exists a b e1 e2 w, (a < b)%nat /\ entries nd !! a = Some e1 /\
     entries nd !! b = Some e2 /\ wasted (bb e1) (bb e2) = Ok w /\
     (-1 <? w)%float = true) ->
  exists lr s', split n m s = Ok (lr, s').
Proof.
  intros Hn Hall (a & b & e1 & e2 & w & Hab & Ha & Hb & Hw & Hpos).
  destruct (pickSeeds_Ok d _ Hall) as ([l r] & Hseeds).
  pose proof (pickSeeds_spec _ _ _ Hseeds) as
    [(_ & _ & Hnone)|(x & y & mw & Hlr & Hx & Hy & _)].
  { destruct (Hnone a b e1 e2 Hab Ha Hb) as (w' & Hw' & Hle).
    rewrite Hw in Hw'. inversion Hw'; subst. congruence. }
  unfold split.
  rewrite (bind_eq _ _ _ _ _ (load_eq _ _ _ Hn)).
  rewrite (bind_eq _ _ _ _ _ (lift_eq _ _ s Hseeds)). cbn [fst snd]. cbv zeta.
  rewrite (bind_eq _ _ _ _ _ (lift_eq _ _ s (index_eq _ _ _ Hx))).
  rewrite (bind_eq _ _ _ _ _ (lift_eq _ _ s (index_eq _ _ _ Hy))).
  pose proof (lookup_lt_Some _ _ _ Hy) as Hrlen.
  rewrite (bind_eq _ _ _ _ _
             (lift_eq _ _ _ (slice_eq (entries nd) 0 l ltac:(lia)))).
  rewrite (bind_eq _ _ _ _ _
             (lift_eq _ _ _ (slice_eq (entries nd) (S l) r ltac:(lia)))).
  rewrite (bind_eq _ _ _ _ _
             (lift_eq _ _ _ (slice_eq (entries nd) (S r) (length (entries nd))
                               ltac:(lia)))).
  assert (Hse : set_entries n [x] s =
                Ok (tt, set_node s n (with_entries nd [x]))).
  { unfold set_entries. rewrite (bind_eq _ _ _ _ _ (load_eq _ _ _ Hn)).
    unfold store. destruct n; [discriminate|rewrite Hn; reflexivity..]. }
  rewrite (bind_eq _ _ _ _ _ Hse).
  unfold alloc at 1. unfold bind at 1.
  set (sA := set_node s n (with_entries nd [x])).
  set (right := heap_addr (length (heap sA))).
  set (sB := mkState (tree sA) (heap sA ++ [mkNode (parent nd) (leaf nd) [y]])).
  assert (Hdx : Geom.dim (bb x) = d).
  { unfold same_dim in Hall. rewrite Forall_lookup in Hall. eapply Hall, Hx. }
  assert (Hdy : Geom.dim (bb y) = d).
  { unfold same_dim in Hall. rewrite Forall_lookup in Hall. eapply Hall, Hy. }
  match goal with
  | |- exists lr s', bind (split_loop ?fuel ?a1 ?a2 ?a3 ?rem) _ _ = _ =>
      destruct (split_loop_Ok d m n right fuel rem sB) as [s' Hloop]
  end.
  - lia.
  - exists (with_entries nd [x]). split; [|split; [discriminate|]].
    + unfold sB. rewrite node_at_alloc_ne.
      * apply node_at_set_eq. eauto.
      * unfold sA. rewrite heap_length_set. intros ->.
        rewrite node_at_beyond in Hn by lia. discriminate.
    + apply Forall_singleton, Hdx.
  - eexists. split; [apply node_at_alloc_eq|]. split; [discriminate|].
    apply Forall_singleton, Hdy.
  - apply Forall_app. split; [apply Forall_app; split|].
    + apply Forall_take, Forall_drop, Hall.
    + apply Forall_take, Forall_drop, Hall.
    + apply Forall_take, Forall_drop, Hall.
  - rewrite (bind_eq _ _ _ _ _ Hloop). eauto.
Qed.

(** X10: a node that is one entry over the maximum, whose boxes all have
    one dimension and among which some pair wastes more than -1 as float64
    compares, is split by [split]: it returns two groups within the
    bounds that together hold the entries of the node. *)
Lemma split_returns_partition d n m mx s nd :
  node_at s n = Some nd -> same_dim d (entries nd) ->
  (exists a b e1 e2 w, (a < b)%nat /\ entries nd !! a = Some e1 /\
     entries nd !! b = Some e2 /\ wasted (bb e1) (bb e2) = Ok w /\
     (-1 <? w)%float = true) ->
  len (entries nd) = mx + 1 -> 1 <= m -> 2 * m <= mx ->
  exists L R s',
    split n m s = Ok ((n, heap_addr (length (heap s))), s') /\
    node_at s' n = Some (with_entries nd L) /\
    node_at s' (heap_addr (length (heap s))) = Some (with_entries nd R) /\
    L ++ R ≡ₚ entries nd /\
    m <= len L <= mx /\ m <= len R <= mx.
Proof.
  intros Hn Hall Hpair Hlen Hm Hmx.
  destruct (split_Ok d n m s nd Hn Hall Hpair) as (lr & s' & Hsplit).
  destruct (split_spec _ _ _ _ _ _ Hsplit Hn)
    as (L & R & -> & HL & HR & _ & _ & _ & Hp & Hcnt).
  exists L, R, s'. destruct (Hcnt mx Hlen Hm Hmx). auto 10.
Qed.

Lemma split_returns_partition_witness :
  exists L R s',
    split root_addr 2
      (mkState (mkRtree 2 2 4 (mkNode null true (map entry_of five_points)) 4) []) =
      Ok ((root_addr, heap_addr 0), s') /\
    node_at s' root_addr = Some (mkNode null true L) /\
    node_at s' (heap_addr 0) = Some (mkNode null true R) /\
    L ++ R ≡ₚ map entry_of five_points /\
    2 <= len L <= 4 /\ 2 <= len R <= 4.
Proof.
  apply (split_returns_partition 2 root_addr 2 4
           (mkState (mkRtree 2 2 4 (mkNode null true (map entry_of five_points)) 4) [])
           (mkNode null true (map entry_of five_points))).
  - reflexivity.
  - unfold same_dim. vm_compute. repeat constructor.
  - exists 0%nat, 1%nat. eexists. eexists. eexists.
    split; [lia|]. split; [reflexivity|]. split; [reflexivity|].
    split; [reflexivity|reflexivity].
  - reflexivity.
  - lia.
  - lia.
Defined.

(** * Further properties of the code *)

(** ** The objects held by the leaves *)

Lemma stored_leaf_node s f x nd :
  node_at s x = Some nd -> leaf nd = true -> stored (S f) s x = entries nd.
Proof. intros Hn Hl. simpl. rewrite Hn, Hl. reflexivity. Qed.

Lemma stored_inner_node s f x nd :
  node_at s x = Some nd -> leaf nd = false ->
  stored (S f) s x = flat_map (fun e => stored f s (child e)) (entries nd).
Proof. intros Hn Hl. simpl. rewrite Hn, Hl. reflexivity. Qed.

Lemma stored_ext s s' : forall f x,
  (forall y, node_at s' y = node_at s y) -> stored f s' x = stored f s x.
Proof.
  induction f as [|f IH]; intros x H; simpl; [reflexivity|].
  rewrite H. destruct (node_at s x) as [nd|]; [|reflexivity].
  destruct (leaf nd); [reflexivity|].
  apply flat_map_ext. intros e. apply IH, H.
Qed.

Lemma flat_map_ext_Forall {A B} (f g : A -> list B) (l : list A) :
  Forall (fun a => f a = g a) l -> flat_map f l = flat_map g l.
Proof.
  induction 1 as [|a l Ha _ IH]; simpl; [reflexivity|]. rewrite Ha, IH. reflexivity.
Qed.

Lemma objects_one_level s :
  leaf (root (tree s)) = true -> objects s = entries (root (tree s)).
Proof. intros Hl. unfold objects, budget. simpl. rewrite Hl. reflexivity. Qed.

Lemma objects_inner s :
  leaf (root (tree s)) = false ->
  objects s =
  flat_map (fun e => stored (S (length (heap s))) s (child e))
           (entries (root (tree s))).
Proof. intros Hl. unfold objects, budget. simpl. rewrite Hl. reflexivity. Qed.

Lemma objects_two_levels s :
  leaf (root (tree s)) = false ->
  Forall (leaf_below s) (entries (root (tree s))) ->
  objects s = flat_map (fun e => stored 1 s (child e)) (entries (root (tree s))).
Proof.
  intros Hl Hall. rewrite objects_inner by exact Hl.
  apply flat_map_ext_Forall. eapply Forall_impl; [exact Hall|].
  intros e [(a & nd & _ & Hn & _ & Hlf & _) _].
  rewrite !(stored_leaf_node _ _ _ _ Hn Hlf). reflexivity.
Qed.

Lemma objects_count s sz :
  objects (mkState (mkRtree (Dim (tree s)) (MinChildren (tree s))
                            (MaxChildren (tree s)) (root (tree s)) sz)
                   (heap s)) = objects s.
Proof.
  unfold objects, budget. simpl heap. apply stored_ext. intros [| |a]; reflexivity.
Qed.

Lemma Insert_count_eq s e s' :
  (s3 <- get ;;
   put (mkState (mkRtree (Dim (tree s3)) (MinChildren (tree s3))
                         (MaxChildren (tree s3)) (root (tree s3))
                         (wrap64 (size (tree s3) + 1)))
                (heap s3)) ;;;
   ret (@None error))%M s = Ok (e, s') ->
  objects s' = objects s.
Proof. intros H. inversion H; subst; clear H. apply objects_count. Qed.

Lemma concat_one_changed {B} (g g' : ptr -> list B) a : forall cs,
  NoDup cs -> a ∈ cs ->
  (forall y, y ∈ cs -> y <> a -> g' y = g y) ->
  exists rest, concat (map g cs) ≡ₚ g a ++ rest /\
               concat (map g' cs) ≡ₚ g' a ++ rest.
Proof.
  induction cs as [|c cs IH]; intros Hnd Hin Hsame.
  - apply elem_of_nil in Hin. destruct Hin.
  - apply NoDup_cons in Hnd as [Hc Hnd]. simpl.
    destruct (decide (c = a)) as [->|Hne].
    + exists (concat (map g cs)). split; [reflexivity|].
      apply Permutation_app_head.
      assert (E : map g' cs = map g cs).
      { apply map_ext_in. intros y Hy. apply list_elem_of_In in Hy.
        apply Hsame; [right; exact Hy|]. intros ->. contradiction. }
      rewrite E. reflexivity.
    + apply elem_of_cons in Hin as [Hin|Hin]; [congruence|].
      destruct (IH Hnd Hin) as (rest & H1 & H2).
      { intros y Hy. apply Hsame. right. exact Hy. }
      exists (g c ++ rest). rewrite (Hsame c) by (auto; left).
      rewrite H1, H2. split.
      * rewrite !app_assoc. apply Permutation_app_tail, Permutation_app_comm.
      * rewrite !app_assoc. apply Permutation_app_tail, Permutation_app_comm.
Qed.

Lemma flat_map_one_changed {B} (g g' : ptr -> list B) (es es' : list entry) a :
  map child es' = map child es -> NoDup (map child es) -> a ∈ map child es ->
  (forall y, y ∈ map child es -> y <> a -> g' y = g y) ->
  exists rest, flat_map (fun e => g (child e)) es ≡ₚ g a ++ rest /\
               flat_map (fun e => g' (child e)) es' ≡ₚ g' a ++ rest.
Proof.
  intros E Hnd Hin Hsame.
  destruct (concat_one_changed g g' a _ Hnd Hin Hsame) as (rest & H1 & H2).
  exists rest. rewrite !flat_map_concat_map.
  rewrite <- !(map_map child g), <- !(map_map child g'), E. auto.
Qed.

(** Insertion into a tree whose root is a leaf. *)
Lemma Insert_one_level_objects o s e s' :
  leaf (root (tree s)) = true ->
  Insert o s = Ok (e, s') -> objects s' ≡ₚ objects s ++ [entry_of o].
Proof.
  intros Hl H. unfold Insert in H.
  rewrite (objects_one_level s) by exact Hl.
  apply bind_Ok in H as (s0 & s1 & Hg & H). apply get_Ok in Hg as [-> ->].
  apply bind_Ok in H as (leaf0 & s1 & Hc & H).
  apply chooseLeaf_descends in Hc as [-> Hc].
  apply descends_root_leaf in Hc; [subst leaf0|exact Hl].
  apply bind_Ok in H as (ln & s1 & Hld & H). apply load_Ok in Hld as [Hld ->].
  simpl in Hld. inversion Hld; subst ln; clear Hld.
  apply bind_Ok in H as ([] & sA & HA & H).
  apply set_entries_Ok in HA as (nd & Hnd & ->).
  simpl in Hnd. inversion Hnd; subst nd; clear Hnd.
  apply bind_Ok in H as (ln' & s1 & Hld & H). apply load_Ok in Hld as [Hld ->].
  simpl in Hld. inversion Hld; subst ln'; clear Hld.
  apply bind_Ok in H as (s0 & s1 & Hg & H). apply get_Ok in Hg as [-> ->].
  change (mkEntry (Bounds o) null (Some o)) with (entry_of o) in *.
  set (nd := with_entries (root (tree s)) (entries (root (tree s)) ++ [entry_of o])) in *.
  set (sA := set_node s root_addr nd) in *.
  apply bind_Ok in H as (ls & sB & Hsplit & H).
  apply bind_Ok in H as (s0 & s1 & Hg & H). apply get_Ok in Hg as [-> ->].
  apply bind_Ok in H as (rs & sX & Hadj & H).
  apply bind_Ok in H as ([] & sF & Hgrow & H).
  apply Insert_count_eq in H. rewrite H. clear H s' e.
  change (MaxChildren (tree sA)) with (MaxChildren (tree s)) in Hsplit.
  change (MinChildren (tree sA)) with (MinChildren (tree s)) in Hsplit.
  destruct (len (entries nd) >? MaxChildren (tree s)) eqn:Eov.
  - (* the root overflows and is split *)
    apply (split_spec _ _ _ _ _ nd) in Hsplit
      as (L & R & -> & HL & HR & Hfr & Hhp & Hcf & Hp & Hcnt); [|reflexivity].
    change (length (heap sA)) with (length (heap s)) in *.
    unfold budget in Hadj. apply adjustTree_root in Hadj as [-> ->].
    cbn [fst snd ptr_eqb negb] in Hgrow.
    eapply grow_root_Ok in Hgrow as (b1 & b2 & Hb1 & Hb2 & Hroot & Hk & Hr & _ & Hcf');
      [|exact HR].
    simpl in HL. inversion HL as [HL']. rewrite HL' in *. simpl in Hk, Hr.
    rewrite objects_inner by (rewrite Hroot; reflexivity).
    rewrite Hroot. cbn [entries flat_map child].
    rewrite (stored_leaf_node sF _ (heap_addr _) _ Hk Hl),
      (stored_leaf_node sF _ (heap_addr _) _ Hr Hl).
    cbn [entries]. rewrite app_nil_r. exact Hp.
  - (* no overflow *)
    inv_step.
    unfold budget in Hadj. apply adjustTree_root in Hadj as [-> ->].
    cbn [fst snd ptr_eqb negb] in Hgrow. inv_step.
    rewrite objects_one_level by exact Hl. reflexivity.
Qed.

Lemma stored_same_node s t f f' x nd :
  node_at s x = Some nd -> node_at t x = Some nd -> leaf nd = true ->
  stored (S f') t x = stored (S f) s x.
Proof.
  intros Hs Ht Hl.
  rewrite (stored_leaf_node _ _ _ _ Hs Hl), (stored_leaf_node _ _ _ _ Ht Hl).
  reflexivity.
Qed.

(** The leaves below the root of a two-level tree after one of them has
    changed: what the other leaves hold is the same in both stores. *)
Lemma leaves_content s t f f' es es' i ci a nd nd' :
  Forall (leaf_below s) es -> NoDup (map child es) ->
  es !! i = Some ci -> child ci = heap_addr a ->
  map child es' = map child es ->
  (forall y, y <> root_addr -> y <> heap_addr a -> is_Some (node_at s y) ->
             node_at t y = node_at s y) ->
  node_at s (heap_addr a) = Some nd ->
  node_at t (heap_addr a) = Some nd' -> leaf nd' = true ->
  exists rest,
    flat_map (fun e => stored (S f) s (child e)) es ≡ₚ entries nd ++ rest /\
    flat_map (fun e => stored (S f') t (child e)) es' ≡ₚ entries nd' ++ rest.
Proof.
  intros Hall Hnd Hci Hc Hmap Hfr Hn Hn' Hl'.
  assert (Hlf : leaf nd = true).
  { rewrite Forall_lookup in Hall. destruct (Hall i ci Hci) as [Hh _].
    destruct Hh as (a0 & nd0 & E & Hn0 & _ & Hl0 & _).
    rewrite Hc in Hn0. rewrite Hn in Hn0. inversion Hn0; subst. exact Hl0. }
  destruct (flat_map_one_changed (stored (S f) s) (stored (S f') t) es es'
              (heap_addr a) Hmap Hnd) as (rest & H1 & H2).
  - apply list_elem_of_fmap. exists ci. split; [auto|].
    eapply list_elem_of_lookup_2; eauto.
  - intros y Hy Hne. apply list_elem_of_fmap in Hy as (e & -> & Hin).
    rewrite Forall_forall in Hall. destruct (Hall e Hin) as [Hh _].
    pose proof (heap_leaf_valid _ _ Hh) as [Hv Hr].
    destruct Hh as (a0 & nd0 & E & Hn0 & _ & Hl0 & _).
    apply (stored_same_node s t f f' _ nd0); auto.
    rewrite Hfr; auto.
  - exists rest.
    rewrite (stored_leaf_node _ _ _ _ Hn Hlf) in H1.
    rewrite (stored_leaf_node _ _ _ _ Hn' Hl') in H2. auto.
Qed.

Lemma Insert_two_levels_objects o s e s' :
  leaf (root (tree s)) = false ->
  Forall (leaf_below s) (entries (root (tree s))) ->
  NoDup (map child (entries (root (tree s)))) ->
  Insert o s = Ok (e, s') -> objects s' ≡ₚ objects s ++ [entry_of o].
Proof.
  intros Hl Hall Hnd H. unfold Insert in H.
  rewrite (objects_inner s) by exact Hl.
  apply bind_Ok in H as (s0 & s1 & Hg & H). apply get_Ok in Hg as [-> ->].
  apply bind_Ok in H as (leaf0 & s1 & Hc & H).
  apply chooseLeaf_descends in Hc as [-> Hc].
  apply descends_two_levels in Hc as (c & Hin & -> & Hleaf); auto.
  destruct Hleaf as (a & nd & Ea & Hn & Hp & Hlf & Hle & Hb).
  rewrite Ea in *.
  destruct (find_child_elem _ _ _ Hin Ea) as [i Hfind].
  destruct (find_child_Some _ _ _ _ Hfind) as (ci & _ & Hci & Hcia).
  rewrite Nat.sub_0_r in Hci.
  apply (append_heap_leaf o a s nd) in H
    as (ls & sB & H & Hcf & Hfr & Hcase); [|exact Hn].
  assert (Hroot : root (tree sB) = root (tree s)).
  { assert (E : node_at sB root_addr = node_at s root_addr)
      by (apply Hfr; discriminate).
    simpl in E. congruence. }
  apply conf_bounds in Hcf as [EmnB EmxB].
  apply bind_Ok in H as (s0 & s1 & Hg & H). apply get_Ok in Hg as [-> ->].
  apply bind_Ok in H as (rs & sX & Hadj & H).
  apply bind_Ok in H as ([] & sF & Hgrow & H).
  apply Insert_count_eq in H. rewrite H. clear H s' e.
  unfold budget in Hadj.
  change (mkEntry (Bounds o) null (Some o)) with (entry_of o) in *.
  assert (Hk : node_at s (heap_addr (length (heap s))) = None).
  { simpl. apply lookup_ge_None_2. lia. }
  destruct Hcase as [(Hov & L & R & -> & HL & HR & Hperm & Hcnt)
                    |(Hov & -> & HL & HR)]; cbn [fst snd] in Hadj.
  - eapply adjustTree_heap_leaf in Hadj
      as (b & ci' & Hbb & Hci' & Hadj); [|exact HL|exact Hp|rewrite Hroot; exact Hfind].
    rewrite Hroot in Hci', Hadj. rewrite Hci in Hci'. inversion Hci'; subst ci'; clear Hci'.
    cbv zeta in Hadj.
    destruct Hadj as [(Hnull & _)|(_ & ndn & bnn & Hnn & Hbnn & Hadj)]; [discriminate|].
    rewrite node_at_set_ne in Hnn by discriminate. same_node Hnn HR.
    set (rt := root (tree s)) in *.
    set (res1 := <[i := mkEntry b (child ci) (obj ci)]> (entries rt)) in *.
    set (enn := mkEntry bnn (heap_addr (length (heap s))) None) in *.
    set (s2 := set_node sB root_addr (with_entries rt (res1 ++ [enn]))) in *.
    assert (Hs2 : forall y, y <> root_addr -> node_at s2 y = node_at sB y).
    { intros y Hy. unfold s2. apply node_at_set_ne. congruence. }
    assert (Hfr2 : forall y, y <> root_addr -> y <> heap_addr a ->
                     is_Some (node_at s y) -> node_at s2 y = node_at s y).
    { intros y Hy1 Hy2 [ndy Hy3]. rewrite Hs2 by exact Hy1. apply Hfr; [exact Hy2|].
      intros E. rewrite E in Hy3. congruence. }
    assert (Hmap : map child res1 = map child (entries rt)).
    { unfold res1. apply updated_children. exact Hci. }
    destruct Hadj as [(Hfit & -> & ->)|(Hover & Hsplit)];
      cbn [fst snd ptr_eqb negb] in Hgrow.
    + (* the root has room for the entry of the sibling *)
      unfold ret in Hgrow. inversion Hgrow; subst sF; clear Hgrow.
      rewrite objects_inner by exact Hl.
      change (entries (root (tree s2))) with (res1 ++ [enn]).
      rewrite flat_map_app. cbn [flat_map child enn].
      rewrite (stored_leaf_node s2 _ (heap_addr (length (heap s))) (with_entries nd R))
        by (rewrite ?Hs2 by discriminate; auto).
      cbn [entries with_entries]. rewrite app_nil_r.
      destruct (leaves_content s s2 (length (heap s)) (length (heap s2))
                  (entries rt) res1 i ci a nd (with_entries nd L))
        as (rest & H1 & H2); auto.
      rewrite H1, H2. cbn [entries with_entries].
      rewrite <- (app_assoc (entries nd) rest), (Permutation_app_comm rest [entry_of o]).
      rewrite (app_assoc (entries nd)), <- Hperm.
      rewrite <- !app_assoc. apply Permutation_app_head, Permutation_app_comm.
    + (* the root overflows and is split *)
      apply (split_spec _ _ _ _ _ (with_entries rt (res1 ++ [enn]))) in Hsplit
        as (L' & R' & -> & HL' & HR' & Hfr' & Hhp' & Hcf' & Hperm' & Hcnt');
        [|reflexivity].
      cbn [fst snd ptr_eqb negb] in Hgrow.
      eapply grow_root_Ok in Hgrow
        as (b1 & b2 & Hb1 & Hb2 & HrootF & HkF & HrF & HfrF & HcfF); [|exact HR'].
      simpl in HL'. inversion HL' as [HL'']. rewrite HL'' in *. clear HL'.
      cbn [leaf entries with_entries] in HkF, HrF.
      change (length (heap s2)) with (length (heap sB)) in *.
      cbn [entries with_entries] in Hperm'.
      assert (HfrF2 : forall y, y <> root_addr -> is_Some (node_at s2 y) ->
                        node_at sF y = node_at s2 y).
      { intros y Hy [ndy Hv].
        assert (Hy2 : y <> heap_addr (length (heap sB))).
        { intros ->. rewrite (node_at_beyond s2) in Hv; [discriminate|].
          change (heap s2) with (heap sB). lia. }
        assert (Hy3 : y <> heap_addr (length (heap sX))).
        { intros ->. rewrite (node_at_beyond s2) in Hv; [discriminate|].
          change (heap s2) with (heap sB). lia. }
        rewrite HfrF, Hfr'; auto. }
      assert (HLs2 : node_at s2 (heap_addr a) = Some (with_entries nd L)).
      { rewrite Hs2 by discriminate. exact HL. }
      assert (HRs2 : node_at s2 (heap_addr (length (heap s))) = Some (with_entries nd R)).
      { rewrite Hs2 by discriminate. exact HR. }
      rewrite objects_inner by (rewrite HrootF; reflexivity).
      rewrite HrootF. cbn [entries flat_map child].
      pose proof (node_at_valid _ _ _ HkF) as Hpos.
      destruct (length (heap sF)) as [|n] eqn:En; [lia|].
      rewrite (stored_inner_node sF _ _ _ HkF Hl), (stored_inner_node sF _ _ _ HrF Hl).
      cbn [entries]. rewrite app_nil_r, <- flat_map_app.
      rewrite (Permutation_flat_map _ Hperm').
      rewrite flat_map_app. cbn [flat_map child enn].
      rewrite (stored_leaf_node sF _ (heap_addr (length (heap s))) (with_entries nd R))
        by (rewrite ?HfrF2 by (try discriminate; eauto); auto).
      cbn [entries with_entries]. rewrite app_nil_r.
      destruct (leaves_content s sF (length (heap s)) n
                  (entries rt) res1 i ci a nd (with_entries nd L))
        as (rest & H1 & H2); auto.
      { intros y Hy1 Hy2 Hy3. rewrite HfrF2; auto. rewrite Hfr2; auto. }
      { rewrite HfrF2 by (try discriminate; eauto). exact HLs2. }
      rewrite H1, H2. cbn [entries with_entries].
      rewrite <- (app_assoc (entries nd) rest), (Permutation_app_comm rest [entry_of o]).
      rewrite (app_assoc (entries nd)), <- Hperm.
      rewrite <- !app_assoc. apply Permutation_app_head, Permutation_app_comm.
  - (* the leaf has room for the object *)
    eapply adjustTree_heap_leaf in Hadj
      as (b & ci' & Hbb & Hci' & Hadj); [|exact HL|exact Hp|rewrite Hroot; exact Hfind].
    rewrite Hroot in Hci', Hadj. rewrite Hci in Hci'. inversion Hci'; subst ci'; clear Hci'.
    cbv zeta in Hadj.
    destruct Hadj as [(_ & -> & ->)|(Hnull & _)]; [|congruence].
    cbn [fst snd ptr_eqb negb] in Hgrow.
    unfold ret in Hgrow. inversion Hgrow; subst sF; clear Hgrow.
    set (rt := root (tree s)) in *.
    set (res1 := <[i := mkEntry b (child ci) (obj ci)]> (entries rt)) in *.
    set (s2 := set_node sB root_addr (with_entries rt res1)) in *.
    assert (Hs2 : forall y, y <> root_addr -> node_at s2 y = node_at sB y).
    { intros y Hy. unfold s2. apply node_at_set_ne. congruence. }
    change (objects s2 ≡ₚ
            flat_map (fun e => stored (S (length (heap s))) s (child e)) (entries rt) ++
            [entry_of o]).
    rewrite (objects_inner s2) by exact Hl.
    change (entries (root (tree s2))) with res1.
    destruct (leaves_content s s2 (length (heap s)) (length (heap s2))
                (entries rt) res1 i ci a nd (with_entries nd (entries nd ++ [entry_of o])))
      as (rest & H1 & H2); auto.
    { unfold res1. apply updated_children. exact Hci. }
    { intros y Hy1 Hy2 [ndy Hy3]. rewrite Hs2 by exact Hy1. apply Hfr; [exact Hy2|].
      intros E. rewrite E in Hy3. congruence. }
    rewrite H1, H2. cbn [entries with_entries].
    rewrite <- !app_assoc. apply Permutation_app_head, Permutation_app_comm.
Qed.

(** ** The objects of a run *)

Lemma Insert_objects o s e s' :
  shape s -> Insert o s = Ok (e, s') -> objects s' ≡ₚ objects s ++ [entry_of o].
Proof.
  intros [Hl Hall Hlen|Hl Hall Hnd Hlen|Hl Hall] H.
  - eapply Insert_one_level_objects; eauto.
  - eapply Insert_two_levels_objects; eauto.
  - destruct (Insert_three_levels _ _ _ _ Hl Hall H).
Qed.

Lemma run_objects ops : forall s c s',
  2 <= MinChildren (tree s) -> 2 * MinChildren (tree s) <= MaxChildren (tree s) ->
  shape s -> run ops s = Ok (c, s') ->
  objects s' ≡ₚ objects s ++ map entry_of (inserted ops) /\
  fst c = length (inserted ops).
Proof.
  induction ops as [|[o|o] ops IH]; intros s c s' Hmin Hmax Hs H; simpl in H.
  - inv_step. simpl. rewrite app_nil_r. auto.
  - apply bind_Ok in H as (e & s1 & Hi & H).
    apply bind_Ok in H as (c1 & s2 & Hr & H). inv_step.
    pose proof (Insert_Ok _ _ _ _ Hi) as (-> & _ & _ & Emn & Emx).
    pose proof (Insert_objects _ _ _ _ Hs Hi) as Ho.
    apply IH in Hr as [Hr Hc]; [| | |eapply Insert_shape; eauto]; try lia.
    simpl. split; [|congruence].
    rewrite Hr, Ho, <- app_assoc. reflexivity.
  - apply bind_Ok in H as (d & s1 & Hd & H).
    rewrite Delete_is_noop in Hd. inversion Hd; subst d s1.
    apply bind_Ok in H as (c1 & s2 & Hr & H). inv_step.
    simpl. eapply IH; eauto.
Qed.

(** X1: on a new tree with 2 <= MinChildren <= MaxChildren/2, after a run
    of calls that all return, the leaves hold exactly the entries of the
    objects that were passed to [Insert], each as often as it was
    inserted: none is lost and none is duplicated, whatever splits took
    place. *)
Theorem leaves_hold_inserted_objects (d m mx : Z) (ops : list op)
    (c : nat * nat) (s : state) :
  2 <= m <= mx / 2 ->
  run ops (NewTree d m mx) = Ok (c, s) ->
  objects s ≡ₚ map entry_of (inserted ops).
Proof.
  intros [Hm Hmx] H.
  assert (2 * m <= mx).
  { pose proof (Z.mul_div_le mx 2 ltac:(lia)). lia. }
  apply run_objects in H as [H _]; simpl; try lia.
  - exact H.
  - apply shape_NewTree. lia.
Qed.

Lemma leaves_hold_inserted_objects_witness :
  objects (state_of (insert_all thirteen_points (NewTree 2 2 4))) ≡ₚ
  map entry_of thirteen_points.
Proof.
  apply (leaves_hold_inserted_objects 2 2 4 (map OpInsert thirteen_points)
           (13%nat, 0%nat)).
  - vm_compute. split; discriminate.
  - vm_compute. reflexivity.
Defined.

(** X2: on a new tree with 2 <= MinChildren <= MaxChildren/2, after a run
    of calls that all return, [Size] returns the number of entries held by
    the leaves, as long as that number fits the 64-bit counter. *)
Theorem Size_is_number_of_objects (d m mx : Z) (ops : list op)
    (c : nat * nat) (s : state) :
  2 <= m <= mx / 2 ->
  run ops (NewTree d m mx) = Ok (c, s) ->
  len (objects s) < 2 ^ 63 ->
  Size s = Ok (len (objects s), s).
Proof.
  intros [Hm Hmx] H Hlt.
  assert (2 * m <= mx).
  { pose proof (Z.mul_div_le mx 2 ltac:(lia)). lia. }
  pose proof H as H'.
  apply run_objects in H' as [Ho Hc]; simpl; try lia;
    [|apply shape_NewTree; lia].
  destruct c as [n k]. simpl in Hc.
  apply run_counts in H as (-> & Hsz & _).
  assert (E : len (objects s) = Z.of_nat n).
  { rewrite (len_perm _ _ Ho). simpl. unfold len. rewrite length_map. lia. }
  unfold Size, bind, get, ret. rewrite Hsz. simpl size.
  rewrite E in *. rewrite iter_incr_wrap by lia. do 2 f_equal.
Qed.

Lemma Size_is_number_of_objects_witness :
  Size (state_of (insert_all thirteen_points (NewTree 2 2 4))) =
  Ok (13, state_of (insert_all thirteen_points (NewTree 2 2 4))).
Proof.
  apply (Size_is_number_of_objects 2 2 4 (map OpInsert thirteen_points)
           (13%nat, 0%nat)).
  - vm_compute. split; discriminate.
  - vm_compute. reflexivity.
  - vm_compute. reflexivity.
Defined.

(** ** How many insertions can succeed *)

Lemma len_flat_map_bound {A B} (f : A -> list B) (mx : Z) (l : list A) :
  Forall (fun a => len (f a) <= mx) l -> len (flat_map f l) <= len l * mx.
Proof.
  induction 1 as [|a l Ha _ IH]; simpl; [unfold len; simpl; lia|].
  rewrite len_app, len_cons. lia.
Qed.

Lemma objects_bound s :
  0 <= MaxChildren (tree s) ->
  shape s ->
  len (objects s) <= MaxChildren (tree s) * MaxChildren (tree s) \/
  (leaf (root (tree s)) = false /\ Forall (inner_below s) (entries (root (tree s)))).
Proof.
  intros Hmx [Hl Hall Hlen|Hl Hall Hnd Hlen|Hl Hall].
  - left. rewrite objects_one_level by exact Hl. nia.
  - left. rewrite objects_two_levels by assumption.
    etransitivity; [apply (len_flat_map_bound _ (MaxChildren (tree s)))|].
    + eapply Forall_impl; [exact Hall|].
      intros e [(a & nd & _ & Hn & _ & Hlf & _ & Hb) _].
      rewrite (stored_leaf_node _ _ _ _ Hn Hlf). lia.
    + assert (0 <= len (entries (root (tree s)))) by (unfold len; lia). nia.
  - right. auto.
Qed.

Lemma run_three_levels ops : forall s n k s',
  leaf (root (tree s)) = false ->
  Forall (inner_below s) (entries (root (tree s))) ->
  run ops s = Ok ((n, k), s') -> n = 0%nat.
Proof.
  induction ops as [|[o|o] ops IH]; intros s n k s' Hl Hall H; simpl in H.
  - inv_step. reflexivity.
  - apply bind_Ok in H as (e & s1 & Hi & H).
    destruct (Insert_three_levels _ _ _ _ Hl Hall Hi).
  - apply bind_Ok in H as (d & s1 & Hd & H).
    rewrite Delete_is_noop in Hd. inversion Hd; subst d s1.
    apply bind_Ok in H as ([n1 k1] & s2 & Hr & H). inv_step.
    simpl. eapply IH; eauto.
Qed.

Lemma run_capacity ops : forall s n k s',
  2 <= MinChildren (tree s) -> 2 * MinChildren (tree s) <= MaxChildren (tree s) ->
  shape s ->
  len (objects s) <= MaxChildren (tree s) * MaxChildren (tree s) ->
  run ops s = Ok ((n, k), s') ->
  Z.of_nat n + len (objects s) <= MaxChildren (tree s) * MaxChildren (tree s) + 1.
Proof.
  induction ops as [|[o|o] ops IH]; intros s n k s' Hmin Hmax Hs Hb H; simpl in H.
  - inv_step. simpl. lia.
  - apply bind_Ok in H as (e & s1 & Hi & H).
    apply bind_Ok in H as ([n1 k1] & s2 & Hr & H). inv_step.
    pose proof (Insert_Ok _ _ _ _ Hi) as (-> & _ & _ & Emn & Emx).
    pose proof (Insert_objects _ _ _ _ Hs Hi) as Ho.
    pose proof (Insert_shape _ _ _ _ Hmin Hmax Hs Hi) as Hs1.
    apply len_perm in Ho. rewrite len_app in Ho. change (len [entry_of o]) with 1 in Ho.
    simpl fst. simpl is_nil. cbv iota.
    destruct (objects_bound s1) as [Hb1|[Hl1 Hall1]]; [lia|exact Hs1| |].
    + apply IH in Hr; [|lia|lia|exact Hs1|exact Hb1]. rewrite Emx in Hr. lia.
    + apply (run_three_levels _ _ _ _ _ Hl1 Hall1) in Hr. subst n1. lia.
  - apply bind_Ok in H as (d & s1 & Hd & H).
    rewrite Delete_is_noop in Hd. inversion Hd; subst d s1.
    apply bind_Ok in H as ([n1 k1] & s2 & Hr & H). inv_step.
    simpl. eapply IH; eauto.
Qed.

(** X3: on a new tree with 2 <= MinChildren <= MaxChildren/2, no run of
    calls contains more than MaxChildren * MaxChildren + 1 calls of
    [Insert] that return: a tree of two levels holds at most
    MaxChildren * MaxChildren objects, one more insertion may split the
    root, and no [Insert] returns on a tree of three levels. *)
Theorem Insert_succeeds_boundedly_often (d m mx : Z) (ops : list op)
    (n k : nat) (s : state) :
  2 <= m <= mx / 2 ->
  run ops (NewTree d m mx) = Ok ((n, k), s) ->
  Z.of_nat n <= mx * mx + 1.
Proof.
  intros [Hm Hmx] H.
  assert (2 * m <= mx).
  { pose proof (Z.mul_div_le mx 2 ltac:(lia)). lia. }
  apply run_capacity in H; [|simpl; lia|simpl; lia|apply shape_NewTree; lia|].
  - change (len (objects (NewTree d m mx))) with 0 in H. simpl in H. lia.
  - change (len (objects (NewTree d m mx))) with 0. simpl. nia.
Qed.

Lemma Insert_succeeds_boundedly_often_witness :
  (13 <= 4 * 4 + 1).
Proof.
  apply (Insert_succeeds_boundedly_often 2 2 4 (map OpInsert thirteen_points) 13 0
           (state_of (insert_all thirteen_points (NewTree 2 2 4)))).
  - vm_compute. split; discriminate.
  - vm_compute. reflexivity.
Defined.

(** ** Insert *)

(** X4: once a run of calls that all return has left a tree of three
    levels, [Insert] panics for every object. *)
Theorem Insert_panics_at_three_levels (d m mx : Z) (ops : list op)
    (c : nat * nat) (s : state) (o : Spatial) :
  2 <= m <= mx / 2 ->
  run ops (NewTree d m mx) = Ok (c, s) ->
  levels s 3 root_addr ->
  exists k, Insert o s = Panic k.
Proof.
  intros [Hm Hmx] H Hlv.
  assert (2 * m <= mx).
  { pose proof (Z.mul_div_le mx 2 ltac:(lia)). lia. }
  assert (Hs : shape s).
  { eapply run_shape; [| |apply (shape_NewTree d m mx); lia|exact H]; simpl; lia. }
  pose proof (Insert_not_stuck o s Hs) as Hns.
  destruct (Insert o s) as [[e s']|k|] eqn:Hi; [|eauto|congruence].
  exfalso. destruct Hs as [Hl Hall Hlen|Hl Hall Hnd Hlen|Hl Hall].
  - destruct Hlv as (nd & Hn & Hlv). simpl in Hn. inversion Hn; subst nd.
    rewrite Hl in Hlv. discriminate.
  - unfold Insert in Hi.
    apply bind_Ok in Hi as (s0 & s1 & Hg & Hi). apply get_Ok in Hg as [-> ->].
    apply bind_Ok in Hi as (leaf0 & s1 & Hc & _).
    apply chooseLeaf_descends in Hc as [-> Hc].
    apply descends_two_levels in Hc as (c0 & Hin & -> & Hleaf); auto.
    destruct Hlv as (nd & Hn & Hlv). simpl in Hn. inversion Hn; subst nd.
    rewrite Hl in Hlv. destruct Hlv as [_ Hlv].
    rewrite Forall_forall in Hlv. specialize (Hlv c0 Hin).
    destruct Hlv as (nd' & Hn' & Hlv).
    destruct Hleaf as (a & nd2 & _ & Hn2 & _ & Hl2 & _).
    rewrite Hn2 in Hn'. inversion Hn'; subst nd'. rewrite Hl2 in Hlv. discriminate.
  - exact (Insert_three_levels _ _ _ _ Hl Hall Hi).
Qed.

Lemma Insert_panics_at_three_levels_witness :
  exists k, Insert (mkSpatial 13 (pt 30 31))
              (state_of (insert_all thirteen_points (NewTree 2 2 4))) = Panic k.
Proof.
  apply (Insert_panics_at_three_levels 2 2 4 (map OpInsert thirteen_points)
           (13%nat, 0%nat)).
  - vm_compute. split; discriminate.
  - vm_compute. reflexivity.
  - vm_compute. eexists. split; [reflexivity|]. split; [discriminate|].
    repeat (constructor;
            [eexists; split; [reflexivity|]; split; [discriminate|];
             repeat (constructor; [eexists; split; reflexivity|]); constructor|]).
    constructor.
Defined.

(** Forward evaluation of one statement. *)
Ltac step := erewrite bind_eq; [|reflexivity].

(** X5: on a tree whose root is a leaf with room for one more entry,
    [Insert] returns a nil error for every object, whatever its bounds or
    its dimension: the entry of the object is appended to the root, the
    counter goes up by one, and nothing else changes. *)
Theorem Insert_into_leaf_root (o : Spatial) (s : state) :
  leaf (root (tree s)) = true ->
  len (entries (root (tree s))) < MaxChildren (tree s) ->
  Insert o s =
    Ok (None,
        mkState (mkRtree (Dim (tree s)) (MinChildren (tree s)) (MaxChildren (tree s))
                   (mkNode (parent (root (tree s))) true
                           (entries (root (tree s)) ++ [entry_of o]))
                   (wrap64 (size (tree s) + 1)))
                (heap s)).
Proof.
  destruct s as [t h]. destruct t as [d m mx rt sz]. destruct rt as [p l es].
  cbn [tree root leaf entries MaxChildren MinChildren Dim size heap parent].
  intros -> Hlen.
  assert (E : (len (es ++ [entry_of o]) >? mx) = false).
  { rewrite Z.gtb_ltb. apply Z.ltb_ge. rewrite len_app.
    change (len [entry_of o]) with 1. lia. }
  unfold Insert. do 6 step.
  cbn [entries tree root MaxChildren MinChildren set_root set_node parent leaf].
  change (mkEntry (Bounds o) null (Some o)) with (entry_of o). rewrite E.
  do 3 step. cbn [fst snd ptr_eqb negb]. do 3 step. reflexivity.
Qed.

Lemma Insert_into_leaf_root_witness :
  Insert cube (NewTree 2 2 4) =
  Ok (None, mkState (mkRtree 2 2 4 (mkNode null true [entry_of cube]) (wrap64 (0 + 1))) []).
Proof.
  apply (Insert_into_leaf_root cube (NewTree 2 2 4)).
  - reflexivity.
  - unfold len. simpl. lia.
Defined.

(** X6: whenever [Insert] returns, the error is nil, the counter has gone
    up by one (modulo 2^64) and [Dim], [MinChildren] and [MaxChildren] are
    what they were. *)
Theorem Insert_returns_nil_error (o : Spatial) (s s' : state) (e : option error) :
  Insert o s = Ok (e, s') ->
  e = None /\
  size (tree s') = wrap64 (size (tree s) + 1) /\
  Dim (tree s') = Dim (tree s) /\
  MinChildren (tree s') = MinChildren (tree s) /\
  MaxChildren (tree s') = MaxChildren (tree s).
Proof. apply Insert_Ok. Qed.

Lemma Insert_returns_nil_error_witness :
  size (tree (state_of (insert_all [cube] (NewTree 2 2 4)))) = wrap64 (0 + 1) /\
  Dim (tree (state_of (insert_all [cube] (NewTree 2 2 4)))) = 2.
Proof.
  destruct (Insert_returns_nil_error cube (NewTree 2 2 4)
              (state_of (insert_all [cube] (NewTree 2 2 4))) None)
    as (_ & Hs & Hd & _).
  - vm_compute. reflexivity.
  - split; [exact Hs|exact Hd].
Defined.

(** ** Depth *)

Lemma wrap64_add_l a b : wrap64 (wrap64 a + b) = wrap64 (a + b).
Proof.
  unfold wrap64. f_equal.
  replace ((a + 2 ^ 63) mod 2 ^ 64 - 2 ^ 63 + b + 2 ^ 63)
    with ((a + 2 ^ 63) mod 2 ^ 64 + b) by lia.
  rewrite Zplus_mod_idemp_l. f_equal. lia.
Qed.

Lemma wrap64_add a b : wrap64 (wrap64 a + wrap64 b) = wrap64 (a + b).
Proof.
  rewrite wrap64_add_l, Z.add_comm, wrap64_add_l. f_equal. lia.
Qed.

Lemma nodeDepth_unfold f n :
  nodeDepth (S f) n =
  (nd <- load n ;;
   if leaf nd then ret 1
   else foldl (depth_step f) (ret 0) (entries nd))%M.
Proof. reflexivity. Qed.

Lemma depth_fold_spec s f
    (IH : forall x z s', nodeDepth f x s = Ok (z, s') ->
            s' = s /\ z = wrap64 (len (leaves f s x))) :
  forall es (acc : M Z) k0 z s',
    (forall z0 s0, acc s = Ok (z0, s0) -> s0 = s /\ z0 = wrap64 k0) ->
    foldl (depth_step f) acc es s = Ok (z, s') ->
    s' = s /\
    z = wrap64 (k0 + len (flat_map (fun e => leaves f s (child e)) es)).
Proof.
  induction es as [|e es IHes]; intros acc k0 z s' Hacc H; simpl in H.
  - apply Hacc in H as [-> ->]. simpl. rewrite Z.add_0_r. auto.
  - eapply (IHes _ (k0 + len (leaves f s (child e)))) in H.
    + destruct H as [-> ->]. split; [reflexivity|]. f_equal.
      cbn [flat_map]. rewrite len_app. lia.
    + intros z0 s0 H0. unfold depth_step in H0.
      apply bind_Ok in H0 as (sum & s1 & Ha & H0).
      apply Hacc in Ha as [-> ->].
      apply bind_Ok in H0 as (dd & s2 & Hd & H0).
      apply IH in Hd as [-> ->].
      unfold ret in H0. inversion H0; subst. split; [reflexivity|].
      apply wrap64_add.
Qed.

Lemma nodeDepth_spec s : forall f x z s',
  nodeDepth f x s = Ok (z, s') ->
  s' = s /\ z = wrap64 (len (leaves f s x)).
Proof.
  induction f as [|f IH]; intros x z s' H; [discriminate|].
  rewrite nodeDepth_unfold in H.
  apply bind_Ok in H as (nd & s1 & Hld & H). apply load_Ok in Hld as [Hn ->].
  simpl leaves. rewrite Hn.
  destruct (leaf nd).
  - unfold ret in H. inversion H; subst. auto.
  - eapply (depth_fold_spec s f IH _ _ 0) in H; [exact H|].
    intros z0 s0 H0. unfold ret in H0. inversion H0; subst. auto.
Qed.

Lemma depth_fold_total s f : forall es (acc : M Z),
  Forall (fun e => exists z, nodeDepth f (child e) s = Ok (z, s)) es ->
  (exists z0, acc s = Ok (z0, s)) ->
  exists z, foldl (depth_step f) acc es s = Ok (z, s).
Proof.
  induction es as [|e es IHes]; intros acc Hall Hacc; simpl; [exact Hacc|].
  apply Forall_cons in Hall as [[d Hd] Hall].
  apply IHes; [exact Hall|]. destruct Hacc as [z0 Hz0].
  exists (wrap64 (z0 + d)). unfold depth_step.
  rewrite (bind_eq _ _ _ _ _ Hz0). rewrite (bind_eq _ _ _ _ _ Hd). reflexivity.
Qed.

Lemma nodeDepth_total s : forall h f x,
  levels s h x -> (h <= f)%nat -> exists z, nodeDepth f x s = Ok (z, s).
Proof.
  induction h as [|h IH]; intros f x Hlv Hf; [destruct Hlv|].
  destruct f as [|f]; [lia|].
  destruct Hlv as (nd & Hn & Hlv).
  rewrite nodeDepth_unfold. rewrite (bind_eq _ _ _ _ _ (load_eq _ _ _ Hn)).
  destruct (leaf nd); [eexists; reflexivity|].
  destruct Hlv as [_ Hall].
  apply depth_fold_total; [|eexists; reflexivity].
  eapply Forall_impl; [exact Hall|]. intros e He. apply IH; [exact He|lia].
Qed.

(** X8: on a new tree with 2 <= MinChildren <= MaxChildren/2, after a run
    of calls that all return, [Depth] returns the number of leaf nodes
    below the root (modulo 2^64) and leaves the tree as it is. *)
Theorem Depth_returns_leaf_count (d m mx : Z) (ops : list op)
    (c : nat * nat) (s : state) :
  2 <= m <= mx / 2 ->
  run ops (NewTree d m mx) = Ok (c, s) ->
  Depth s = Ok (wrap64 (len (leaves (budget s) s root_addr)), s).
Proof.
  intros [Hm Hmx] H.
  assert (2 * m <= mx).
  { pose proof (Z.mul_div_le mx 2 ltac:(lia)). lia. }
  assert (Hs : shape s).
  { eapply run_shape; [| |apply (shape_NewTree d m mx); lia|exact H]; simpl; lia. }
  destruct (shape_levels s Hs) as (h & Hlv & Hh).
  destruct (nodeDepth_total s h (budget s) root_addr Hlv Hh) as [z Hz].
  unfold Depth. rewrite (bind_eq get _ s s s eq_refl). rewrite Hz.
  apply nodeDepth_spec in Hz as [_ ->]. reflexivity.
Qed.

Lemma Depth_returns_leaf_count_witness :
  Depth (state_of (insert_all eight_points (NewTree 2 2 4))) =
  Ok (3, state_of (insert_all eight_points (NewTree 2 2 4))).
Proof.
  apply (Depth_returns_leaf_count 2 2 4 (map OpInsert eight_points) (8%nat, 0%nat)).
  - vm_compute. split; discriminate.
  - vm_compute. reflexivity.
Defined.

(** ** split and its parts *)

(** X9: whenever [split] returns, the left node is [n] itself and the
    right node is one newly allocated node; both carry the parent pointer
    and the leaf flag [n] had, their entry lists together are a
    rearrangement of the entries of [n], and every other node of the store
    is what it was.  In particular the children that moved to the new node
    keep the parent pointer they had. *)
Theorem split_moves_entries_only (n : ptr) (m : Z) (s s' : state)
    (lr : ptr * ptr) (nd : node) :
  split n m s = Ok (lr, s') -> node_at s n = Some nd ->
  exists L R,
    lr = (n, heap_addr (length (heap s))) /\
    node_at s' n = Some (mkNode (parent nd) (leaf nd) L) /\
    node_at s' (heap_addr (length (heap s))) = Some (mkNode (parent nd) (leaf nd) R) /\
    L ++ R ≡ₚ entries nd /\
    length (heap s') = S (length (heap s)) /\
    conf s' = conf s /\
    (forall y, y <> n -> is_Some (node_at s y) -> node_at s' y = node_at s y).
Proof.
  intros H Hn.
  destruct (split_spec _ _ _ _ _ _ H Hn)
    as (L & R & Hlr & HL & HR & Hfr & Hhp & Hcf & Hp & _).
  exists L, R. repeat (split; [assumption|]).
  intros y Hy [ndy Hv]. apply Hfr; [exact Hy|].
  intros ->. apply node_at_valid in Hv. lia.
Qed.

Lemma split_moves_entries_only_witness :
  exists s s' L R,
    insert_all (pts [(0,0); (10,10); (1,1); (9,9)]%float) (NewTree 2 2 4) = Ok (tt, s) /\
    split root_addr 2 s = Ok ((root_addr, heap_addr 0), s') /\
    node_at s' root_addr = Some (mkNode null true L) /\
    node_at s' (heap_addr 0) = Some (mkNode null true R) /\
    L ++ R ≡ₚ entries (root (tree s)).
Proof.
  eexists. eexists.
  destruct (split_moves_entries_only root_addr 2
              (state_of (insert_all (pts [(0,0); (10,10); (1,1); (9,9)]%float) (NewTree 2 2 4)))
              _ _ _ ltac:(vm_compute; reflexivity) eq_refl)
    as (L & R & _ & HL & HR & Hp & _).
  exists L, R. split; [vm_compute; reflexivity|]. split; [vm_compute; reflexivity|].
  split; [exact HL|]. split; [exact HR|exact Hp].
Defined.

(** X11: whenever [pickSeeds] returns, the result is either a pair of
    indices l < r within the entries, or (0, 0), and the latter only if no
    pair of entries wastes more than -1 as float64 compares. *)
Theorem pickSeeds_distinct_pair_or_zero (es : list entry) (l r : nat) :
  pickSeeds es = Ok (l, r) ->
  (l = 0%nat /\ r = 0%nat /\
   forall a b e1 e2, (a < b)%nat -> es !! a = Some e1 -> es !! b = Some e2 ->
     exists d, wasted (bb e1) (bb e2) = Ok d /\ (-1 <? d)%float = false)
  \/
  ((l < r < length es)%nat /\
   exists e1 e2 m, es !! l = Some e1 /\ es !! r = Some e2 /\
     wasted (bb e1) (bb e2) = Ok m).
Proof.
  intros H. apply pickSeeds_spec in H as [H|(e1 & e2 & m & Hlr & H1 & H2 & Hw)].
  - left. exact H.
  - right. split.
    + split; [exact Hlr|]. eapply lookup_lt_Some. exact H2.
    + exists e1, e2, m. auto.
Qed.

Lemma pickSeeds_distinct_pair_or_zero_witness :
  (0 < 1 < length (map entry_of five_points))%nat /\
  exists e1 e2 m,
    map entry_of five_points !! 0%nat = Some e1 /\
    map entry_of five_points !! 1%nat = Some e2 /\
    wasted (bb e1) (bb e2) = Ok m.
Proof.
  destruct (pickSeeds_distinct_pair_or_zero (map entry_of five_points) 0 1 eq_refl)
    as [(_ & E & _)|H]; [discriminate|exact H].
Defined.

(** X12: whenever [pickNext] returns, the store is unchanged and the
    result is the index of one of the entries passed in (0 when there is
    none). *)
Theorem pickNext_in_range (l r : ptr) (es : list entry) (s s' : state) (i : nat) :
  pickNext l r es s = Ok (i, s') ->
  s' = s /\ (es = [] -> i = 0%nat) /\ (es <> [] -> (i < length es)%nat).
Proof.
  intros H. pose proof (pickNext_Ok _ _ _ _ _ _ H) as ->.
  split; [reflexivity|]. unfold pickNext in H.
  apply bind_Ok in H as (lb & s1 & Hl & H).
  apply computeBoundingBox_Ok in Hl as [-> _].
  apply bind_Ok in H as (rb & s1 & Hr & H).
  apply computeBoundingBox_Ok in Hr as [-> _].
  apply bind_Ok in H as (st & s1 & Hloop & H). apply lift_Ok in Hloop as [Hloop ->].
  unfold ret in H. inversion H; subst; clear H.
  apply pickNext_loop_range in Hloop as [->|Hrange]; simpl.
  - split; [reflexivity|]. intros Hne. destruct es; [congruence|simpl; lia].
  - split; [|intros _; lia]. intros ->. simpl in Hrange. lia.
Qed.

Lemma pickNext_in_range_witness :
  (1 < length [mkEntry (pt 7 7) null None; mkEntry (pt 2 2) null None;
               mkEntry (pt 8 8) null None])%nat.
Proof.
  refine (proj2 (proj2 (pickNext_in_range (heap_addr 1) (heap_addr 0)
            [mkEntry (pt 7 7) null None; mkEntry (pt 2 2) null None;
             mkEntry (pt 8 8) null None]
            (state_of (insert_all five_points (NewTree 2 2 4)))
            (state_of (insert_all five_points (NewTree 2 2 4))) 1%nat _)) _).
  - vm_compute. reflexivity.
  - discriminate.
Defined.

(** X13: whenever [assignGroup] returns, the entry has been appended to
    the entries of exactly one of the two groups and the rest of the store
    is what it was. *)
Theorem assignGroup_appends_to_one_group (e : entry) (l r : ptr)
    (s s' : state) (u : unit) :
  assignGroup e l r s = Ok (u, s') ->
  exists g nd, (g = l \/ g = r) /\ node_at s g = Some nd /\
    s' = set_node s g (with_entries nd (entries nd ++ [e])).
Proof.
  intros H. apply assignGroup_Ok in H as [H|H];
    apply assign_Ok in H as (nd & Hn & ->); eauto 6.
Qed.

Lemma assignGroup_appends_to_one_group_witness :
  exists g nd, (g = heap_addr 1 \/ g = heap_addr 0) /\
    node_at (state_of (insert_all five_points (NewTree 2 2 4))) g = Some nd /\
    state_of (assignGroup (mkEntry (pt 6 6) null None) (heap_addr 1) (heap_addr 0)
                (state_of (insert_all five_points (NewTree 2 2 4)))) =
    set_node (state_of (insert_all five_points (NewTree 2 2 4))) g
      (with_entries nd (entries nd ++ [mkEntry (pt 6 6) null None])).
Proof.
  apply (assignGroup_appends_to_one_group (mkEntry (pt 6 6) null None)
           (heap_addr 1) (heap_addr 0)
           (state_of (insert_all five_points (NewTree 2 2 4))) _ tt).
  vm_compute. reflexivity.
Defined.

(** ** getEntry *)

Lemma find_child_first n es : forall i j,
  find_child n es i = Some j ->
  forall k c, (k < j - i)%nat -> es !! k = Some c -> child c <> n.
Proof.
  induction es as [|e es IH]; intros i j H k c Hk Hc; simpl in H; [discriminate|].
  destruct (ptr_eqb (child e) n) eqn:E.
  - inversion H; subst. lia.
  - destruct k as [|k]; simpl in Hc.
    + inversion Hc; subst. apply ptr_eqb_neq. exact E.
    + pose proof (find_child_Some _ _ _ _ H) as (_ & Hij & _).
      apply (IH _ _ H k c); [lia|exact Hc].
Qed.

(** X14: whenever [getEntry] returns, the store is unchanged and the
    result is nil when no entry of the parent points at [n], and otherwise
    the first entry of the parent that does; on a node whose parent
    pointer is nil, such as the root, [getEntry] panics. *)
Theorem getEntry_first_entry_of_parent (n : ptr) (s : state) :
  (forall e s', getEntry n s = Ok (e, s') ->
     s' = s /\
     exists nd pn, node_at s n = Some nd /\ node_at s (parent nd) = Some pn /\
       match e with
       | None => Forall (fun c => child c <> n) (entries pn)
       | Some (x, i) =>
           x = parent nd /\
           (exists c, entries pn !! i = Some c /\ child c = n) /\
           (forall j c, (j < i)%nat -> entries pn !! j = Some c -> child c <> n)
       end) /\
  (forall nd, node_at s n = Some nd -> parent nd = null ->
     getEntry n s = Panic NilDeref).
Proof.
  split.
  - intros e s' H. unfold getEntry in H.
    apply bind_Ok in H as (nd & s1 & Hld & H). apply load_Ok in Hld as [Hn ->].
    apply bind_Ok in H as (pn & s1 & Hld & H). apply load_Ok in Hld as [Hp ->].
    unfold ret in H. inversion H; subst; clear H. split; [reflexivity|].
    exists nd, pn. split; [exact Hn|]. split; [exact Hp|].
    destruct (find_child n (entries pn) 0) as [i|] eqn:E.
    + split; [reflexivity|]. split.
      * destruct (find_child_Some _ _ _ _ E) as (c & _ & Hc & Hcn).
        rewrite Nat.sub_0_r in Hc. eauto.
      * intros j c Hj Hc. apply (find_child_first _ _ _ _ E j c); [lia|exact Hc].
    + eapply find_child_None_inv, E.
  - intros nd Hn Hp. unfold getEntry.
    rewrite (bind_eq _ _ _ _ _ (load_eq _ _ _ Hn)). rewrite Hp. reflexivity.
Qed.

Lemma getEntry_first_entry_of_parent_witness :
  exists s l,
    insert_all eight_points (NewTree 2 2 4) = Ok (tt, s) /\
    chooseLeaf (budget s) root_addr (mkSpatial 8 (pt 9 10)) s = Ok (l, s) /\
    getEntry l s = Ok (Some (root_addr, 1%nat), s) /\
    getEntry root_addr s = Panic NilDeref.
Proof.
  eexists. eexists. split; [vm_compute; reflexivity|].
  split; [vm_compute; reflexivity|]. split; [vm_compute; reflexivity|].
  eapply (proj2 (getEntry_first_entry_of_parent root_addr _)); reflexivity.
Defined.

(** ** adjustTree *)

(** X15: on a node other than the root whose parent holds no entry that
    points at it, [adjustTree] panics with a nil dereference when it
    assigns the bounding box through the nil entry. *)
Theorem adjustTree_without_entry_panics (f : nat) (n nn : ptr) (s : state)
    (nd pn : node) (b : Rect) :
  n <> root_addr ->
  node_at s n = Some nd -> node_at s (parent nd) = Some pn ->
  Forall (fun c => child c <> n) (entries pn) ->
  Geom.boundingBoxN (map bb (entries nd)) = Ok b ->
  adjustTree (S f) n nn s = Panic NilDeref.
Proof.
  intros Hr Hn Hp Hnone Hb. rewrite adjustTree_unfold.
  apply ptr_eqb_neq in Hr. rewrite Hr.
  assert (Hge : getEntry n s = Ok (None, s)).
  { unfold getEntry.
    rewrite (bind_eq _ _ _ _ _ (load_eq _ _ _ Hn)).
    rewrite (bind_eq _ _ _ _ _ (load_eq _ _ _ Hp)).
    rewrite (find_child_None _ _ _ Hnone). reflexivity. }
  rewrite (bind_eq _ _ _ _ _ Hge).
  rewrite (bind_eq _ _ _ _ _ (computeBoundingBox_eq _ _ _ _ Hn Hb)).
  reflexivity.
Qed.

Lemma adjustTree_without_entry_panics_witness :
  exists s l,
    insert_all thirteen_points (NewTree 2 2 4) = Ok (tt, s) /\
    chooseLeaf (budget s) root_addr (mkSpatial 13 (pt 30 31)) s = Ok (l, s) /\
    adjustTree (budget s) l null s = Panic NilDeref.
Proof.
  eexists. eexists. split; [vm_compute; reflexivity|].
  split; [vm_compute; reflexivity|].
  eapply (adjustTree_without_entry_panics _ _ null _ _ _ _).
  - discriminate.
  - vm_compute; reflexivity.
  - vm_compute; reflexivity.
  - vm_compute. repeat constructor; discriminate.
  - vm_compute; reflexivity.
Defined.

(** ** findLeaf *)

Lemma findLeaf_loop_spec o es : forall r,
  findLeaf_loop es o = Ok r ->
  match r with
  | None => Forall (misses o) es
  | Some c =>
      exists pre post, es = pre ++ c :: post /\ Forall (misses o) pre /\ covers o c
  end.
Proof.
  induction es as [|e es IH]; intros r H; simpl in H.
  - inversion H; subst. constructor.
  - destruct (Geom.containsRect (bb e) (Bounds o)) as [[|]| |] eqn:E;
      simpl in H; try discriminate.
    + inversion H; subst. exists [], es.
      split; [reflexivity|]. split; [constructor|exact E].
    + apply IH in H. destruct r as [c|].
      * destruct H as (pre & post & -> & Hpre & Hc).
        exists (e :: pre), post.
        split; [reflexivity|]. split; [constructor; assumption|exact Hc].
      * constructor; assumption.
Qed.

Lemma findLeaf_loop_total o es :
  Forall (fun e => Geom.dim (bb e) = Geom.dim (Bounds o)) es ->
  exists r, findLeaf_loop es o = Ok r.
Proof.
  induction 1 as [|e es He _ IH]; simpl; [eauto|].
  unfold Geom.containsRect. rewrite He, Nat.eqb_refl. simpl.
  destruct (_ && _)%bool; eauto.
Qed.

Lemma findLeaf_unfold f n o :
  findLeaf (S f) n o =
  (nd <- load n ;;
   if leaf nd then ret n
   else
     found <- lift (findLeaf_loop (entries nd) o) ;;
     match found with
     | Some e => findLeaf f (child e) o
     | None => ret null
     end)%M.
Proof. reflexivity. Qed.

Lemma findLeaf_finds o s : forall fuel n l s',
  findLeaf fuel n o s = Ok (l, s') -> s' = s /\ finds s o n l.
Proof.
  induction fuel as [|f IH]; intros n l s' H; [discriminate|].
  rewrite findLeaf_unfold in H.
  apply bind_Ok in H as (nd & s1 & Hld & H). apply load_Ok in Hld as [Hn ->].
  destruct (leaf nd) eqn:Hl.
  - unfold ret in H. inversion H; subst. split; [reflexivity|].
    eapply finds_leaf; eauto.
  - apply bind_Ok in H as (found & s1 & Hf & H). apply lift_Ok in Hf as [Hf ->].
    apply findLeaf_loop_spec in Hf. destruct found as [c|].
    + destruct Hf as (pre & post & Hes & Hpre & Hc).
      apply IH in H as [-> H]. split; [reflexivity|].
      eapply finds_child; eauto.
    + unfold ret in H. inversion H; subst. split; [reflexivity|].
      eapply finds_nil; eauto.
Qed.

Lemma findLeaf_total o s : forall h fuel n,
  levels s h n -> searchable s o -> (h <= fuel)%nat ->
  exists l, findLeaf fuel n o s = Ok (l, s).
Proof.
  induction h as [|h IH]; intros fuel n Hlv Hs Hf; [destruct Hlv|].
  destruct fuel as [|f]; [lia|].
  destruct Hlv as (nd & Hn & Hlv).
  rewrite findLeaf_unfold. rewrite (bind_eq _ _ _ _ _ (load_eq _ _ _ Hn)).
  destruct (leaf nd) eqn:Hl; [eexists; reflexivity|].
  destruct Hlv as [_ Hall].
  destruct (findLeaf_loop_total o (entries nd) (Hs n nd Hn Hl)) as [r Hr].
  rewrite (bind_eq _ _ _ _ _ (lift_eq _ _ _ Hr)).
  destruct r as [c|]; [|eexists; reflexivity].
  apply findLeaf_loop_spec in Hr as (pre & post & Hes & _ & _).
  apply IH; [|exact Hs|lia].
  rewrite Forall_forall in Hall. apply Hall. rewrite Hes.
  apply elem_of_app. right. left.
Qed.

(** X16: whenever [findLeaf] returns, the store is unchanged and the
    result ends the path that goes, at every internal node, through the
    first entry whose box contains the bounds of the object: a leaf, or nil
    when an internal node on the path has no such entry.  It does return
    on a tree of [h] levels whose boxes have the dimension of the object,
    given a recursion budget of at least [h]. *)
Theorem findLeaf_first_covering_entry (s : state) (o : Spatial) :
  (forall fuel n l s', findLeaf fuel n o s = Ok (l, s') -> s' = s /\ finds s o n l) /\
  (forall h fuel n, levels s h n -> searchable s o -> (h <= fuel)%nat ->
     exists l, findLeaf fuel n o s = Ok (l, s) /\ finds s o n l).
Proof.
  split.
  - apply findLeaf_finds.
  - intros h fuel n Hlv Hs Hf.
    destruct (findLeaf_total o s h fuel n Hlv Hs Hf) as [l Hl].
    exists l. split; [exact Hl|]. eapply findLeaf_finds, Hl.
Qed.

Lemma findLeaf_first_covering_entry_witness :
  exists s, insert_all eight_points (NewTree 2 2 4) = Ok (tt, s) /\
    findLeaf (budget s) root_addr (mkSpatial 3 (pt 9 9)) s = Ok (heap_addr 0, s) /\
    finds s (mkSpatial 3 (pt 9 9)) root_addr (heap_addr 0) /\
    findLeaf (budget s) root_addr (mkSpatial 9 (pt 7 7)) s = Ok (null, s).
Proof.
  eexists. split; [vm_compute; reflexivity|].
  split; [vm_compute; reflexivity|].
  split; [|vm_compute; reflexivity].
  apply (proj1 (findLeaf_first_covering_entry _ _)
           (budget (state_of (insert_all eight_points (NewTree 2 2 4))))
           root_addr (heap_addr 0)
           (state_of (insert_all eight_points (NewTree 2 2 4)))).
  vm_compute. reflexivity.
Defined.

(** ** Delete *)

(** X17: the [Delete] calls of a sequence of calls have no effect: the
    sequence ends in the same tree, with the same counts or the same
    panic, as the sequence of its [Insert] calls alone. *)
Theorem Delete_calls_have_no_effect (ops : list op) (s : state) :
  run ops s = run (map OpInsert (inserted ops)) s.
Proof.
  revert s. induction ops as [|[o|o] ops IH]; intros s; simpl.
  - reflexivity.
  - unfold bind at 1 3. destruct (Insert o s) as [[e s1]| |]; [|reflexivity..].
    unfold bind. rewrite IH. reflexivity.
  - unfold bind at 1. rewrite Delete_is_noop. unfold bind. rewrite <- IH.
    destruct (run ops s) as [[[n k] s1]| |]; reflexivity.
Qed.
